(** * The min-max game engine ([src/utils/gameUtils.js]) in Rocq

    A shallow embedding of the numerical engine of the adversarial min-max
    game: landscape synthesis, the smoothing pass, the gradient estimator,
    the per-step position update and the dynamic loss, together with the
    properties stated about them.  The contour lines, the gradient field
    and the colour map of the engine follow, with the part of the state of
    the view ([MinMaxGame]) that a frame of the animation updates.

    Numbers.  A JavaScript number is modelled as an exact real or one of the
    three special values [Infinity], [-Infinity] and [NaN]; the operations
    follow IEEE-754 on the special values and are exact on the reals, so
    rounding, overflow and the sign of zero are not represented.

    Effects.  [Math.random] is the only source of non-determinism: a world
    carries the sequence of values the uniform source is going to return and
    the number of draws made so far.  The world also carries the store of
    heap objects, used where a function allocates or assigns to objects.
    A run either returns a value and a new world, or throws. *)

From Stdlib Require Import Reals Lra Lia List ZArith Bool.
Import ListNotations.

Local Open Scope R_scope.

(* ================================================================= *)
(** ** JavaScript numbers *)

Inductive number : Type :=
| Fin (r : R)
| PInf
| NInf
| NaN.

Arguments Fin r%_R.

Declare Scope js_scope.
Delimit Scope js_scope with js.
Bind Scope js_scope with number.

Definition nneg (x : number) : number :=
  match x with
  | Fin r => Fin (- r)
  | PInf => NInf
  | NInf => PInf
  | NaN => NaN
  end.

Definition nadd (x y : number) : number :=
  match x, y with
  | NaN, _ | _, NaN => NaN
  | Fin a, Fin b => Fin (a + b)
  | PInf, NInf | NInf, PInf => NaN
  | PInf, _ | _, PInf => PInf
  | NInf, _ | _, NInf => NInf
  end.

Definition nsub (x y : number) : number := nadd x (nneg y).

(** An infinity times a real: the sign follows the real, [0] gives [NaN]. *)
Definition scale_inf (i : number) (r : R) : number :=
  if Rlt_dec 0 r then i else if Rlt_dec r 0 then nneg i else NaN.

Definition nmul (x y : number) : number :=
  match x, y with
  | NaN, _ | _, NaN => NaN
  | Fin a, Fin b => Fin (a * b)
  | Fin a, i => scale_inf i a
  | i, Fin b => scale_inf i b
  | PInf, PInf | NInf, NInf => PInf
  | PInf, NInf | NInf, PInf => NInf
  end.

(** Division.  A non-zero real over zero is an infinity with the sign of
    the numerator (the model has one zero, standing for [+0]); [0/0] is
    [NaN]. *)
Definition ndiv (x y : number) : number :=
  match x, y with
  | NaN, _ | _, NaN => NaN
  | Fin a, Fin b => if Req_dec_T b 0 then scale_inf PInf a else Fin (a / b)
  | Fin _, _ => Fin 0
  | i, Fin b => if Rlt_dec b 0 then nneg i else i
  | _, _ => NaN
  end.

(** [x < y]; every comparison with [NaN] is false. *)
Definition nlt (x y : number) : bool :=
  match x, y with
  | NaN, _ | _, NaN => false
  | Fin a, Fin b => if Rlt_dec a b then true else false
  | Fin _, PInf => true
  | Fin _, NInf => false
  | PInf, _ => false
  | NInf, NInf => false
  | NInf, _ => true
  end.

Definition ngt (x y : number) : bool := nlt y x.

Infix "+" := nadd : js_scope.
Infix "-" := nsub : js_scope.
Infix "*" := nmul : js_scope.
Infix "/" := ndiv : js_scope.
Notation "- x" := (nneg x) : js_scope.
Infix "<?" := nlt : js_scope.
Infix ">?" := ngt : js_scope.

(** *** The [Math] object *)

Definition Math_PI : number := Fin PI.

Definition Math_max (x y : number) : number :=
  match x, y with
  | NaN, _ | _, NaN => NaN
  | _, _ => if nlt x y then y else x
  end.

Definition Math_min (x y : number) : number :=
  match x, y with
  | NaN, _ | _, NaN => NaN
  | _, _ => if nlt y x then y else x
  end.

Definition Math_floor (x : number) : number :=
  match x with
  | Fin r => Fin (IZR (Zfloor r))
  | _ => x
  end.

Definition Math_abs (x : number) : number :=
  match x with
  | Fin r => Fin (Rabs r)
  | PInf | NInf => PInf
  | NaN => NaN
  end.

Definition Math_sqrt (x : number) : number :=
  match x with
  | Fin r => if Rlt_dec r 0 then NaN else Fin (sqrt r)
  | PInf => PInf
  | NInf | NaN => NaN
  end.

(** [Math.log(0)] is [-Infinity]; the logarithm of a negative number is
    [NaN]. *)
Definition Math_log (x : number) : number :=
  match x with
  | Fin r => if Rlt_dec 0 r then Fin (ln r)
             else if Rlt_dec r 0 then NaN else NInf
  | PInf => PInf
  | NInf | NaN => NaN
  end.

Definition Math_exp (x : number) : number :=
  match x with
  | Fin r => Fin (exp r)
  | PInf => PInf
  | NInf => Fin 0
  | NaN => NaN
  end.

Definition Math_cos (x : number) : number :=
  match x with
  | Fin r => Fin (cos r)
  | _ => NaN
  end.

Definition Math_sin (x : number) : number :=
  match x with
  | Fin r => Fin (sin r)
  | _ => NaN
  end.

(** [Math.pow(x, n)] for a literal non-negative integer exponent. *)
Fixpoint Math_pow (x : number) (n : nat) : number :=
  match n with
  | O => Fin 1
  | S k => nmul x (Math_pow x k)
  end.

(** A loop counter or a length, as a number. *)
Definition of_nat (n : nat) : number := Fin (INR n).

(** The array index a number denotes, if any: property keys that are not
    non-negative integers name no element. *)
Definition index_of (x : number) : option nat :=
  match x with
  | Fin r =>
      if Rle_dec 0 r then
        if Req_dec_T (IZR (Zfloor r)) r then Some (Z.to_nat (Zfloor r))
        else None
      else None
  | _ => None
  end.

(* ================================================================= *)
(** ** Objects, worlds and runs *)

(** A position object [{x, y}]. *)
Record position : Type := mkPos { pos_x : number; pos_y : number }.

(** A grid: an array of rows, [grid[row][col]]. *)
Definition grid : Type := list (list number).

Inductive object : Type :=
| OPos (p : position)
| OGrid (g : grid).

Definition loc : Type := nat.

Record world : Type := mkWorld {
  entropy : nat -> R;     (* the values [Math.random()] returns, in order *)
  drawn : nat;            (* how many of them have been consumed *)
  store : list object     (* the heap: a location is an index *)
}.

Inductive js_error : Type := TypeError | RangeError.

Inductive outcome (A : Type) : Type :=
| Returns (a : A) (w : world)
| Throws (e : js_error).

Arguments Returns {A} a w.
Arguments Throws {A} e.

Definition M (A : Type) : Type := world -> outcome A.

Definition ret {A} (a : A) : M A := fun w => Returns a w.

Definition bind {A B} (m : M A) (k : A -> M B) : M B :=
  fun w => match m w with
           | Returns a w' => k a w'
           | Throws e => Throws e
           end.

Definition throw {A} (e : js_error) : M A := fun _ => Throws e.

Declare Scope monad_scope.
Delimit Scope monad_scope with monad.
Notation "x <- m ;; k" := (bind m (fun x => k))
  (at level 61, m at next level, right associativity) : monad_scope.
Notation "' pat <- m ;; k" := (bind m (fun x => match x with pat => k end))
  (at level 61, pat pattern, m at next level, right associativity) : monad_scope.
Notation "m ;; k" := (bind m (fun _ => k))
  (at level 61, right associativity) : monad_scope.
Local Open Scope monad_scope.

(** [for (const a of l) s = body(a, s)], threading the loop state [s]. *)
Fixpoint for_each {A S} (l : list A) (body : A -> S -> M S) (s : S) : M S :=
  match l with
  | [] => ret s
  | a :: l' => s' <- body a s ;; for_each l' body s'
  end.

(** [Math.random()]: the next value of the uniform source. *)
Definition Math_random : M number :=
  fun w => Returns (Fin (entropy w (drawn w)))
                   (mkWorld (entropy w) (S (drawn w)) (store w)).

(** The uniform source returns values in [[0,1)]. *)
Definition uniform_source (w : world) : Prop :=
  forall n, 0 <= entropy w n < 1.

(** A uniform source that never returns [0]. *)
Definition zero_free (w : world) : Prop :=
  forall n, 0 < entropy w n < 1.

(* ================================================================= *)
(** ** Arrays *)

(** [a[j]] for an array of numbers; a missing element is [undefined],
    which every arithmetic use converts to [NaN]. *)
Definition elem (a : list number) (j : nat) : number :=
  nth j a NaN.

(** [a[j] = v]: assignment past the end extends the array, the holes in
    between read as [undefined]. *)
Definition array_set (a : list number) (j : nat) (v : number) : list number :=
  if Nat.ltb j (length a) then firstn j a ++ v :: skipn (S j) a
  else a ++ repeat NaN (j - length a) ++ [v].

(** [g[i][j]]: reading a property of a missing row throws. *)
Definition read2 (g : grid) (i j : nat) : M number :=
  match nth_error g i with
  | Some row => ret (elem row j)
  | None => throw TypeError
  end.

(** [g[i][j] = v]. *)
Definition write2 (g : grid) (i j : nat) (v : number) : M grid :=
  match nth_error g i with
  | Some row => ret (firstn i g ++ array_set row j v :: skipn (S i) g)
  | None => throw TypeError
  end.

(** [g[i][j]] where the indices are computed numbers. *)
Definition read2_num (g : grid) (i j : number) : M number :=
  match index_of i with
  | Some i' =>
      match nth_error g i' with
      | Some row => ret (match index_of j with
                         | Some j' => elem row j'
                         | None => NaN
                         end)
      | None => throw TypeError
      end
  | None => throw TypeError
  end.

(** [g[0].length]. *)
Definition row0_length (g : grid) : M nat :=
  match g with
  | row :: _ => ret (length row)
  | [] => throw TypeError
  end.

(* ================================================================= *)
(** ** The standard-normal generator *)

(** [boxMullerTransform] (gameUtils.js 86-92). *)
Definition boxMullerTransform : M number :=
  u1 <- Math_random ;;
  u2 <- Math_random ;;
  let z0 := (Math_sqrt (Fin (-2.0) * Math_log u1)
             * Math_cos (Fin 2.0 * Math_PI * u2))%js in
  ret z0.

(* ================================================================= *)
(** ** Landscape synthesis *)

(** [JSON.parse(JSON.stringify(grid))]: a deep copy.  JSON has no notation
    for [NaN] and the infinities and writes them as [null], which is read
    back as [null] and converts to [0] in arithmetic. *)
Definition json_number (x : number) : number :=
  match x with
  | Fin r => Fin r
  | _ => Fin 0
  end.

Definition json_copy (g : grid) : grid := map (map json_number) g.

(** [gibbsSmoothingPass], lines 112-123: the new value of a cell from its
    four neighbours and its current value. *)
Definition gibbsUpdate (up down left right cell : number) : number :=
  let neighborAvg := ((up + down + left + right) / Fin 4.0)%js in
  let temperature := Fin 0.2 in
  let weight := Math_exp (- Math_abs (cell - neighborAvg) / temperature)%js in
  (weight * neighborAvg + (Fin 1 - weight) * cell)%js.

(** [gibbsSmoothingPass], lines 111-123: the body of the inner loop.  Every
    read and the assignment go to the one array [smoothedGrid]. *)
Definition smoothCell (i j : nat) (smoothedGrid : grid) : M grid :=
  up <- read2 smoothedGrid (i - 1) j ;;
  down <- read2 smoothedGrid (i + 1) j ;;
  left <- read2 smoothedGrid i (j - 1) ;;
  right <- read2 smoothedGrid i (j + 1) ;;
  cell <- read2 smoothedGrid i j ;;
  write2 smoothedGrid i j (gibbsUpdate up down left right cell).

(** [gibbsSmoothingPass] (gameUtils.js 102-129).  The loop counters are
    natural numbers; [seq 1 (rows - 2)] enumerates [1 <= i < rows - 1]. *)
Definition gibbsSmoothingPass (g : grid) (iterations : nat) : M grid :=
  let rows := length g in
  cols <- row0_length g ;;
  let smoothedGrid := json_copy g in
  for_each (seq 0 iterations) (fun _ smoothedGrid =>
    for_each (seq 1 (rows - 2)) (fun i smoothedGrid =>
      for_each (seq 1 (cols - 2)) (fun j smoothedGrid =>
        smoothCell i j smoothedGrid)
      smoothedGrid)
    smoothedGrid)
  smoothedGrid.

Record peak : Type := mkPeak {
  peak_x : number; peak_y : number; peak_height : number; peak_spread : number
}.

Record saddle : Type := mkSaddle {
  saddle_x : number; saddle_y : number; saddle_strength : number;
  saddle_spreadX : number; saddle_spreadY : number
}.

Definition peaks (cols rows : number) : list peak :=
  [ mkPeak (cols * Fin 0.3) (rows * Fin 0.7) (Fin 0.8) (Fin 0.2);
    mkPeak (cols * Fin 0.7) (rows * Fin 0.3) (Fin 1.0) (Fin 0.2);
    mkPeak (cols * Fin 0.5) (rows * Fin 0.5) (Fin 0.7) (Fin 0.3);
    mkPeak (cols * Fin 0.2) (rows * Fin 0.2) (Fin 0.5) (Fin 0.1);
    mkPeak (cols * Fin 0.8) (rows * Fin 0.8) (Fin 0.6) (Fin 0.15) ]%js.

Definition saddlePoints (cols rows : number) : list saddle :=
  [ mkSaddle (cols * Fin 0.4) (rows * Fin 0.4) (Fin 0.3) (Fin 0.2) (Fin 0.3);
    mkSaddle (cols * Fin 0.6) (rows * Fin 0.6) (Fin 0.4) (Fin 0.25) (Fin 0.15)
  ]%js.

(** The length [new Array(n)] accepts: an integer in [[0, 2^32)]. *)
Definition array_length (n : number) : option nat :=
  match index_of n, n with
  | Some k, Fin r => if Rlt_dec r 4294967296 then Some k else None
  | _, _ => None
  end.

(** [new Array(n)]: [n] holes, which read as [undefined]. *)
Definition new_Array (n : number) : M (list number) :=
  match array_length n with
  | Some k => ret (repeat NaN k)
  | None => throw RangeError
  end.

(** How often the body of [for (let j = 0; j < n; j++)] runs.  The loops
    of the generator are reached with [n] an array length only. *)
Definition trip_count (n : number) : nat :=
  match n with
  | Fin r => Z.to_nat (- Zfloor (- r))
  | _ => O
  end.

(** The Gaussian part of a cell, lines 38-49. *)
Definition gaussianValue (cols rows : number) (i j : nat) : number :=
  fold_left (fun gaussianValue pk =>
    let dx := (of_nat j - peak_x pk)%js in
    let dy := (of_nat i - peak_y pk)%js in
    let distSquared := ((dx * dx + dy * dy) / (cols * cols + rows * rows))%js in
    (gaussianValue
     + peak_height pk
       * Math_exp (- distSquared / (Fin 2 * peak_spread pk * peak_spread pk)))%js)
    (peaks cols rows) (Fin 0).

(** The saddle part of a cell, lines 52-62. *)
Definition saddleValue (cols rows : number) (i j : nat) : number :=
  fold_left (fun saddleValue sd =>
    let dx := ((of_nat j - saddle_x sd) / cols)%js in
    let dy := ((of_nat i - saddle_y sd) / rows)%js in
    (saddleValue
     + saddle_strength sd
       * (Math_pow (dx / saddle_spreadX sd) 2
          - Math_pow (dy / saddle_spreadY sd) 2))%js)
    (saddlePoints cols rows) (Fin 0).

(** [generateLossLandscape], lines 38-72: the body of the inner loop, the
    value of the cell at row [i] and column [j]. *)
Definition fillCell (cols rows : number) (i j : nat) (g : grid) : M grid :=
  let gaussianValue := gaussianValue cols rows i j in
  let saddleValue := saddleValue cols rows i j in
  z <- boxMullerTransform ;;
  let mcNoise := (z * Fin 0.08)%js in
  u <- Math_random ;;
  let value :=
    (gaussianValue + saddleValue * Fin 0.2 + mcNoise + u * Fin 0.02)%js in
  write2 g i j (Math_min (Math_max value (Fin 0)) (Fin 1)).

(** [generateLossLandscape] (gameUtils.js 10-78).  [new Array(rows)]
    followed by [grid[i] = new Array(cols)] for every [i] builds the array
    of rows one row at a time. *)
Definition generateLossLandscape (width height resolution : number) : M grid :=
  let cols := Math_floor (width / resolution) in
  let rows := Math_floor (height / resolution) in
  slots <- new_Array rows ;;
  g <- for_each (seq 0 (length slots))
         (fun _ g => row <- new_Array cols ;; ret (g ++ [row])) [] ;;
  g <- for_each (seq 0 (trip_count rows)) (fun i g =>
         for_each (seq 0 (trip_count cols)) (fun j g =>
           fillCell cols rows i j g)
         g) g ;;
  gibbsSmoothingPass g 1.

(* ================================================================= *)
(** ** The gradient estimator *)

Record gradient : Type := mkGrad { grad_dx : number; grad_dy : number }.

(** [calculateGradient] (gameUtils.js 190-210). *)
Definition calculateGradient (g : grid) (x y noiseLevel : number) : M gradient :=
  let rows := of_nat (length g) in
  ncols <- row0_length g ;;
  let cols := of_nat ncols in
  let row := Math_min (Math_max (Math_floor y) (Fin 1)) (rows - Fin 2) in
  let col := Math_min (Math_max (Math_floor x) (Fin 1)) (cols - Fin 2) in
  e <- read2_num g row (col + Fin 1) ;;
  w <- read2_num g row (col - Fin 1) ;;
  let dx := ((e - w) / Fin 2)%js in
  s <- read2_num g (row + Fin 1) col ;;
  n <- read2_num g (row - Fin 1) col ;;
  let dy := ((s - n) / Fin 2)%js in
  if (noiseLevel >? Fin 0)%js then
    z1 <- boxMullerTransform ;;
    let dx := (dx + z1 * noiseLevel * Math_abs dx)%js in
    z2 <- boxMullerTransform ;;
    let dy := (dy + z2 * noiseLevel * Math_abs dy)%js in
    ret (mkGrad dx dy)
  else
    ret (mkGrad dx dy).

(* ================================================================= *)
(** ** The object store *)

Definition set_store (w : world) (s : list object) : world :=
  mkWorld (entropy w) (drawn w) s.

(** [{x: ..., y: ...}] or an array literal: a new object at a fresh
    location. *)
Definition alloc (o : object) : M loc :=
  fun w => Returns (length (store w)) (set_store w (store w ++ [o])).

Definition load_pos (l : loc) : M position :=
  fun w => match nth_error (store w) l with
           | Some (OPos p) => Returns p w
           | _ => Throws TypeError
           end.

Definition load_grid (l : loc) : M grid :=
  fun w => match nth_error (store w) l with
           | Some (OGrid g) => Returns g w
           | _ => Throws TypeError
           end.

Definition store_pos (l : loc) (p : position) : M unit :=
  fun w => match nth_error (store w) l with
           | Some (OPos _) =>
               Returns tt (set_store w (firstn l (store w) ++ OPos p
                                        :: skipn (S l) (store w)))
           | _ => Throws TypeError
           end.

(** [p.x] and [p.y]. *)
Definition get_x (l : loc) : M number := p <- load_pos l ;; ret (pos_x p).
Definition get_y (l : loc) : M number := p <- load_pos l ;; ret (pos_y p).

(** [p.x = v] and [p.y = v]. *)
Definition set_x (l : loc) (v : number) : M unit :=
  p <- load_pos l ;; store_pos l (mkPos v (pos_y p)).
Definition set_y (l : loc) (v : number) : M unit :=
  p <- load_pos l ;; store_pos l (mkPos (pos_x p) v).

(* ================================================================= *)
(** ** One step of the game *)

(** The displacements proposed for the two agents. *)
Record proposal : Type := mkProposal {
  defDx : number; defDy : number; advDx : number; advDy : number
}.

Definition strengthRatio (attackStrength defenseStrength : number) : number :=
  (attackStrength / defenseStrength)%js.

(** [maxPerturbation], line 303. *)
Definition maxPerturbation (defenseStrength attackStrength : number) : number :=
  (Fin 0.2 * attackStrength
   * (if strengthRatio attackStrength defenseStrength >? Fin 1
      then Fin 1.2 else Fin 1.0))%js.

(** [simulateStep], lines 255-287: gradients at both positions, adaptive
    scales and the proposed displacements. *)
Definition proposeMoves (defender adversary grid : loc)
    (defenseStrength attackStrength : number) : M proposal :=
  let strengthRatio := strengthRatio attackStrength defenseStrength in
  let adversaryNoiseLevel :=
    if (strengthRatio >? Fin 1)%js then Fin 0.04 else Fin 0.08 in
  let defenderNoiseLevel :=
    if (strengthRatio >? Fin 1)%js then Fin 0.08 else Fin 0.05 in
  g <- load_grid grid ;;
  x <- get_x defender ;; y <- get_y defender ;;
  defenderGradient <- calculateGradient g x y defenderNoiseLevel ;;
  g <- load_grid grid ;;
  x <- get_x adversary ;; y <- get_y adversary ;;
  adversaryGradient <- calculateGradient g x y adversaryNoiseLevel ;;
  let defMagnitude :=
    Math_sqrt (grad_dx defenderGradient * grad_dx defenderGradient
               + grad_dy defenderGradient * grad_dy defenderGradient)%js in
  let advMagnitude :=
    Math_sqrt (grad_dx adversaryGradient * grad_dx adversaryGradient
               + grad_dy adversaryGradient * grad_dy adversaryGradient)%js in
  let defScale := (Fin 0.02 * defenseStrength / (Fin 0.1 + defMagnitude))%js in
  let advScale :=
    if (strengthRatio >? Fin 1)%js
    then (Fin 0.025 * attackStrength / (Fin 0.05 + advMagnitude))%js
    else (Fin 0.02 * attackStrength / (Fin 0.1 + advMagnitude))%js in
  let defDx := (- grad_dx defenderGradient * defScale)%js in
  let defDy := (- grad_dy defenderGradient * defScale)%js in
  let advDx := (grad_dx adversaryGradient * advScale)%js in
  let advDy := (grad_dy adversaryGradient * advScale)%js in
  ret (mkProposal defDx defDy advDx advDy).

(** [simulateStep], lines 304-310: a proposed displacement of the adversary
    longer than the budget is scaled down to it. *)
Definition perturbationBudget (adversary newAdversary : loc) (p : proposal)
    (maxPerturbation : number) : M unit :=
  let advDist := Math_sqrt (advDx p * advDx p + advDy p * advDy p)%js in
  if (advDist >? maxPerturbation)%js then
    let scale := (maxPerturbation / advDist)%js in
    x <- get_x adversary ;;
    set_x newAdversary (x + advDx p * scale)%js ;;
    y <- get_y adversary ;;
    set_y newAdversary (y + advDy p * scale)%js
  else ret tt.

(** [simulateStep], lines 314-324: a stronger adversary jumps toward the
    defender now and then.  [Math.random()] is called only when the ratio
    exceeds [1]. *)
Definition targetedJump (defender adversary newAdversary : loc)
    (strengthRatio maxPerturbation : number) : M unit :=
  if (strengthRatio >? Fin 1)%js then
    u <- Math_random ;;
    if (u <? Fin 0.08)%js then
      let targetJump := Fin 0.15 in
      dx <- get_x defender ;; ax <- get_x adversary ;;
      let dirX := (dx - ax)%js in
      dy <- get_y defender ;; ay <- get_y adversary ;;
      let dirY := (dy - ay)%js in
      let dirMag := Math_sqrt (dirX * dirX + dirY * dirY)%js in
      if (dirMag >? Fin 0)%js then
        x <- get_x newAdversary ;;
        set_x newAdversary
              (x + (dirX / dirMag) * targetJump * maxPerturbation)%js ;;
        y <- get_y newAdversary ;;
        set_y newAdversary
              (y + (dirY / dirMag) * targetJump * maxPerturbation)%js
      else ret tt
    else ret tt
  else ret tt.

(** [simulateStep], lines 289-324: the two new position objects, the
    perturbation budget and the targeted jump. *)
Definition applyMoves (defender adversary : loc) (p : proposal)
    (defenseStrength attackStrength : number) : M (loc * loc) :=
  let strengthRatio := strengthRatio attackStrength defenseStrength in
  x <- get_x defender ;; y <- get_y defender ;;
  newDefender <- alloc (OPos (mkPos (x + defDx p) (y + defDy p))%js) ;;
  x <- get_x adversary ;; y <- get_y adversary ;;
  newAdversary <- alloc (OPos (mkPos (x + advDx p) (y + advDy p))%js) ;;
  let maxPerturbation := maxPerturbation defenseStrength attackStrength in
  perturbationBudget adversary newAdversary p maxPerturbation ;;
  targetedJump defender adversary newAdversary strengthRatio maxPerturbation ;;
  ret (newDefender, newAdversary).

(** [simulateStep], lines 326-335: both new positions are brought back
    onto the board. *)
Definition keepWithinBounds (grid newDefender newAdversary : loc)
    : M (loc * loc) :=
  g <- load_grid grid ;;
  let rows := of_nat (length g) in
  ncols <- row0_length g ;;
  let cols := of_nat ncols in
  x <- get_x newDefender ;;
  set_x newDefender (Math_min (Math_max x (Fin 0)) (cols - Fin 1)) ;;
  y <- get_y newDefender ;;
  set_y newDefender (Math_min (Math_max y (Fin 0)) (rows - Fin 1)) ;;
  x <- get_x newAdversary ;;
  set_x newAdversary (Math_min (Math_max x (Fin 0)) (cols - Fin 1)) ;;
  y <- get_y newAdversary ;;
  set_y newAdversary (Math_min (Math_max y (Fin 0)) (rows - Fin 1)) ;;
  ret (newDefender, newAdversary).

(** [simulateStep] (gameUtils.js 254-336).  The arguments [defender],
    [adversary] and [grid] are references to objects of the store. *)
Definition simulateStep (defender adversary grid : loc)
    (defenseStrength attackStrength : number) : M (loc * loc) :=
  p <- proposeMoves defender adversary grid defenseStrength attackStrength ;;
  '(newDefender, newAdversary) <-
     applyMoves defender adversary p defenseStrength attackStrength ;;
  keepWithinBounds grid newDefender newAdversary.

(* ================================================================= *)
(** ** The dynamic loss *)

Record losses : Type := mkLosses {
  defenderLoss : number; adversaryLoss : number
}.

(** [strengthAdvantage], line 386. *)
Definition strengthAdvantage (attackStrength defenseStrength : number)
    : number :=
  (Math_max (Fin 0) (strengthRatio attackStrength defenseStrength - Fin 1)
   * Fin 0.15)%js.

(** [calculateDynamicLoss], lines 405-414: the adjustment of the two
    losses when the adversary is the stronger side. *)
Definition applyAdvantage
    (iteration strengthRatio strengthAdvantage defenderLoss adversaryLoss
     : number) : number * number :=
  if (strengthRatio >? Fin 1)%js then
    let defenderLoss :=
      Math_min (defenderLoss * (Fin 1 + strengthAdvantage))%js (Fin 1) in
    let adversaryLoss :=
      Math_max (adversaryLoss * (Fin 1 - strengthAdvantage))%js (Fin 0) in
    if (iteration >? Fin 50)%js then
      let growingGap :=
        Math_min (Fin 0.3) ((iteration - Fin 50) / Fin 500)%js in
      (Math_min (defenderLoss + growingGap * Math_sin (iteration / Fin 30))%js
                (Fin 1),
       adversaryLoss)
    else (defenderLoss, adversaryLoss)
  else (defenderLoss, adversaryLoss).

(** [calculateDynamicLoss] (gameUtils.js 350-420).  The function only
    reads its arguments; the positions are given by the records they
    hold. *)
Definition calculateDynamicLoss (g : grid) (defender adversary : position)
    (iteration defenseStrength attackStrength : number) : M losses :=
  let rows := of_nat (length g) in
  ncols <- row0_length g ;;
  let cols := of_nat ncols in
  let defRow :=
    Math_min (Math_max (Math_floor (pos_y defender)) (Fin 0)) (rows - Fin 1) in
  let defCol :=
    Math_min (Math_max (Math_floor (pos_x defender)) (Fin 0)) (cols - Fin 1) in
  let advRow :=
    Math_min (Math_max (Math_floor (pos_y adversary)) (Fin 0)) (rows - Fin 1) in
  let advCol :=
    Math_min (Math_max (Math_floor (pos_x adversary)) (Fin 0)) (cols - Fin 1) in
  baseLoss <- read2_num g defRow defCol ;;
  let dx := ((pos_x defender - pos_x adversary) / cols)%js in
  let dy := ((pos_y defender - pos_y adversary) / rows)%js in
  let distance := Math_sqrt (dx * dx + dy * dy)%js in
  let learningFactor :=
    Math_max (Fin 0.1) (Fin 1.0 - iteration / Fin 500)%js in
  let influenceRange := Fin 0.3 in
  let influence := Math_max (Fin 0) (Fin 1.0 - distance / influenceRange)%js in
  let oscillation := (Fin 0.1 * Math_sin (iteration / Fin 10))%js in
  let strengthRatio := strengthRatio attackStrength defenseStrength in
  let strengthAdvantage := strengthAdvantage attackStrength defenseStrength in
  z <- boxMullerTransform ;;
  let defenderLoss :=
    ((baseLoss * Fin 0.7 + influence * Fin 0.2 + oscillation + z * Fin 0.03)
     * learningFactor)%js in
  advCell <- read2_num g advRow advCol ;;
  z <- boxMullerTransform ;;
  let adversaryLoss :=
    ((advCell * Fin 0.3 + baseLoss * Fin 0.4 + influence * Fin 0.2
      + oscillation + z * Fin 0.05) * learningFactor)%js in
  let '(defenderLoss, adversaryLoss) :=
    applyAdvantage iteration strengthRatio strengthAdvantage
                   defenderLoss adversaryLoss in
  ret (mkLosses (Math_min (Math_max defenderLoss (Fin 0)) (Fin 1))
                (Math_min (Math_max adversaryLoss (Fin 0)) (Fin 1))).

(* ================================================================= *)
(** ** Predicates used in the statements *)

(** A number that is a real. *)
Definition finite (x : number) : Prop :=
  match x with Fin _ => True | _ => False end.

(** A real in [[lo, hi]]. *)
Definition between (lo hi : R) (x : number) : Prop :=
  match x with Fin r => lo <= r <= hi | _ => False end.

Definition in_unit (x : number) : Prop := between 0 1 x.

(** The Euclidean norm of a displacement. *)
Definition norm (x y : R) : R := sqrt (x * x + y * y).

(** *** Grids *)

(** Every cell of a grid satisfies [P]. *)
Definition all_cells (P : number -> Prop) (g : grid) : Prop :=
  Forall (Forall P) g.

(** A [rows] by [cols] array of arrays. *)
Definition shape (rows cols : nat) (g : grid) : Prop :=
  length g = rows /\ Forall (fun row => length row = cols) g.

(** The cell at row [i], column [j], when there is one. *)
Definition cell (g : grid) (i j : nat) : option number :=
  match nth_error g i with
  | Some row => nth_error row j
  | None => None
  end.

(** The value at row [i], column [j] of a grid ([NaN] outside). *)
Definition peek (g : grid) (i j : nat) : number := elem (nth i g []) j.

(** The cells the smoothing pass updates: all but the outermost ring. *)
Definition interior (rows cols i j : nat) : Prop :=
  (1 <= i)%nat /\ (i + 1 < rows)%nat /\ (1 <= j)%nat /\ (j + 1 < cols)%nat.

(** The cell [(i', j')] is treated before the cell [(i, j)] in the
    row-by-row traversal. *)
Definition before (i j i' j' : nat) : Prop :=
  (i' < i)%nat \/ (i' = i /\ (j' < j)%nat).

(** The smoothing pass as the specification words it: the new value of an
    interior cell computed from the neighbours as they were before the
    pass. *)
Definition snapshotValue (g : grid) (i j : nat) : number :=
  gibbsUpdate (peek g (i - 1) j) (peek g (i + 1) j)
              (peek g i (j - 1)) (peek g i (j + 1)) (peek g i j).

(** The state of the working copy [sg] when the pass over [g] is about to
    treat the cell [(i, j)]: the interior cells before it hold their update,
    computed from the working copy above and to the left and from [g] below
    and to the right; every other cell is as in [g]. *)
Definition pass_state (rows cols : nat) (g sg : grid) (i j : nat) : Prop :=
  forall i' j', (i' < rows)%nat -> (j' < cols)%nat ->
    (interior rows cols i' j' /\ before i j i' j' ->
     peek sg i' j'
     = gibbsUpdate (peek sg (i' - 1) j') (peek g (i' + 1) j')
                   (peek sg i' (j' - 1)) (peek g i' (j' + 1)) (peek g i' j'))
    /\
    (~ (interior rows cols i' j' /\ before i j i' j') ->
     peek sg i' j' = peek g i' j').

(** A gradient estimated on [g]: central differences at an interior cell,
    each perturbed by a multiple of its absolute value. *)
Definition gradient_at (rows cols : nat) (g : grid) (gr : gradient) : Prop :=
  exists (i j : nat) (e wv s n t1 t2 : R),
    interior rows cols i j /\
    peek g i (j + 1) = Fin e /\ peek g i (j - 1) = Fin wv /\
    peek g (i + 1) j = Fin s /\ peek g (i - 1) j = Fin n /\
    gr = mkGrad (Fin ((e - wv) / 2 + t1 * Rabs ((e - wv) / 2)))
                (Fin ((s - n) / 2 + t2 * Rabs ((s - n) / 2))).

(** *** Positions and displacements *)

Definition finite_pos (p : position) : Prop :=
  finite (pos_x p) /\ finite (pos_y p).

(** The board [[0, cols-1] x [0, rows-1]] of a grid. *)
Definition on_board (rows cols : nat) (p : position) : Prop :=
  between 0 (INR cols - 1) (pos_x p) /\ between 0 (INR rows - 1) (pos_y p).

(** A position brought back onto the board of a [rows] by [cols] grid,
    as lines 330-333 do. *)
Definition clampToBoard (rows cols : nat) (p : position) : position :=
  mkPos (Math_min (Math_max (pos_x p) (Fin 0)) (of_nat cols - Fin 1))
        (Math_min (Math_max (pos_y p) (Fin 0)) (of_nat rows - Fin 1)).

(** The displacements proposed from two gradients, as lines 264-287
    compute them. *)
Definition proposal_from (d a gdx gdy gax gay : R) (p : proposal) : Prop :=
  defDx p = Fin (- gdx * (0.02 * d / (0.1 + sqrt (gdx * gdx + gdy * gdy)))) /\
  defDy p = Fin (- gdy * (0.02 * d / (0.1 + sqrt (gdx * gdx + gdy * gdy)))) /\
  exists advScale,
    advDx p = Fin (gax * advScale) /\ advDy p = Fin (gay * advScale).

(** *** Runs *)

(** The run of [m] from [w] returns, and its result satisfies [Q]. *)
Definition run_ok {A} (m : M A) (w : world) (Q : A -> world -> Prop) : Prop :=
  match m w with
  | Returns a w' => Q a w'
  | Throws _ => False
  end.

(** Whenever the run of [m] from [w] returns, its result satisfies [Q]. *)
Definition run_if {A} (m : M A) (w : world) (Q : A -> world -> Prop) : Prop :=
  forall a w', m w = Returns a w' -> Q a w'.

(** A computation that leaves the store as it is. *)
Definition quiet {A} (m : M A) : Prop :=
  forall w a w', m w = Returns a w' -> store w' = store w.

(** Two worlds that differ in the number of draws made only. *)
Definition only_draws (w w' : world) : Prop :=
  entropy w' = entropy w /\ store w' = store w.

(** The store [st] followed by the two objects of a step. *)
Definition two_more (st : list object) (w : world) : Prop :=
  exists p1 p2, store w = st ++ [OPos p1; OPos p2].

(* ================================================================= *)
(** ** Sample inputs *)

(** A world whose uniform source returns [0] at every draw. *)
Definition zero_world : world := mkWorld (fun _ => 0) 0 [].

(** A world whose uniform source returns [1/2] at every draw. *)
Definition half_world (s : list object) : world := mkWorld (fun _ => 1 / 2) 0 s.

(** A grid of [rows] by [cols] cells, all equal to [c]. *)
Definition flat_grid (rows cols : nat) (c : R) : grid :=
  repeat (repeat (Fin c) cols) rows.

(** Three rows of four cells, all [0] but a [1] at the left end of the
    middle row. *)
Definition spike_grid : grid :=
  [ [Fin 0; Fin 0; Fin 0; Fin 0];
    [Fin 1; Fin 0; Fin 0; Fin 0];
    [Fin 0; Fin 0; Fin 0; Fin 0] ].

(** The scenario of the specification: a flat grid of 20 by 20 cells at
    [0.5], the defender at [(5,14)] and the adversary at [(14,5)], held at
    the locations [0], [1] and [2] of the store. *)
Definition scenario_world : world :=
  half_world [ OPos (mkPos (Fin 5) (Fin 14));
               OPos (mkPos (Fin 14) (Fin 5));
               OGrid (flat_grid 20 20 0.5) ].

(** A board of three rows and two columns at [0.5], the defender at
    [(0,0)] and the adversary at [(1,1)]. *)
Definition narrow_world : world :=
  half_world [ OPos (mkPos (Fin 0) (Fin 0));
               OPos (mkPos (Fin 1) (Fin 1));
               OGrid (flat_grid 3 2 0.5) ].


(** A uniform source that returns [0] at every draw. *)
Definition all_zero (w : world) : Prop := forall n, entropy w n = 0.

(** The scenario of the specification with a uniform source that returns
    [0] at every draw. *)
Definition zero_draw_scenario : world :=
  mkWorld (fun _ => 0) 0
          [ OPos (mkPos (Fin 5) (Fin 14));
            OPos (mkPos (Fin 14) (Fin 5));
            OGrid (flat_grid 20 20 0.5) ].

(** A world whose uniform source returns [1/2] and [1/4] in turn: every
    sample of the standard-normal generator is
    [sqrt (2 * ln 2) * cos (PI / 2)], that is [0]. *)
Definition quarter_world : world :=
  mkWorld (fun n => if Nat.even n then 1 / 2 else 1 / 4) 0 [].

(* ================================================================= *)
(** ** Further predicates *)

(** The interior index [calculateGradient] reads for the coordinate [v]
    on an axis of [n] cells: the floor of [v], brought into [[1, n - 2]]. *)
Definition clampIndex (v : R) (n : nat) : nat :=
  Z.to_nat (Z.min (Z.max (Zfloor v) 1) (Z.of_nat n - 2)).

(* ================================================================= *)
(** ** The colour map *)

From Stdlib Require String DecimalString.
Import String.StringSyntax.
Delimit Scope string_scope with string.

(** [x >= y]; every comparison with [NaN] is false. *)
Definition nge (x y : number) : bool :=
  match x, y with
  | NaN, _ | _, NaN => false
  | _, _ => negb (nlt x y)
  end.

Infix ">=?" := nge (at level 70) : js_scope.

(** [Math.round]: the nearest integer, a tie going up. *)
Definition Math_round (x : number) : number :=
  match x with
  | Fin r => Fin (IZR (Zfloor (r + 1 / 2)))
  | _ => x
  end.

(** The decimal notation of an integer. *)
Definition integer_to_string (z : Z) : String.string :=
  DecimalString.NilZero.string_of_int (Z.to_int z).

(** [`${x}`] for the numbers the colour map prints, which are integers:
    literals and results of [Math.round]. *)
Definition number_to_string (x : number) : String.string :=
  match x with
  | Fin r => integer_to_string (Zfloor r)
  | PInf => "Infinity"%string
  | NInf => "-Infinity"%string
  | NaN => "NaN"%string
  end.

Record color : Type := mkColor {
  color_r : number; color_g : number; color_b : number
}.

(** [getLossColor], lines 430-435: the colours of the gradient, from low
    to high. *)
Definition colors : list color :=
  [ mkColor (Fin 245) (Fin 167) (Fin 66);
    mkColor (Fin 230) (Fin 190) (Fin 120);
    mkColor (Fin 180) (Fin 210) (Fin 170);
    mkColor (Fin 66) (Fin 245) (Fin 209) ].

(** [colors[i]] in front of a property access: reading a property of a
    missing element throws. *)
Definition color_at (i : number) : M color :=
  match index_of i with
  | Some k =>
      match nth_error colors k with
      | Some c => ret c
      | None => throw TypeError
      end
  | None => throw TypeError
  end.

(** [`rgb(${r}, ${g}, ${b})`]. *)
Definition rgb (r g b : number) : String.string :=
  String.append "rgb("
    (String.append (number_to_string r)
       (String.append ", "
          (String.append (number_to_string g)
             (String.append ", "
                (String.append (number_to_string b) ")"))))).

(** [getLossColor], lines 437-449: the three channels of the colour, for
    each of the three [return]s. *)
Definition lossChannels (value : number) : M color :=
  let numColors := of_nat (length colors) in
  let position := (value * (numColors - Fin 1))%js in
  let index := Math_floor position in
  let t := (position - index)%js in
  if (index >=? numColors - Fin 1)%js then color_at (numColors - Fin 1)%js
  else if (index <? Fin 0)%js then color_at (Fin 0)
  else
    c0 <- color_at index ;;
    c1 <- color_at (index + Fin 1)%js ;;
    let r := Math_round (color_r c0 + t * (color_r c1 - color_r c0))%js in
    let g := Math_round (color_g c0 + t * (color_g c1 - color_g c0))%js in
    let b := Math_round (color_b c0 + t * (color_b c1 - color_b c0))%js in
    ret (mkColor r g b).

(** [getLossColor] (gameUtils.js 428-452): the channels, printed. *)
Definition getLossColor (value : number) : M String.string :=
  c <- lossChannels value ;;
  ret (rgb (color_r c) (color_g c) (color_b c)).

(** The piecewise-linear ramp through [c0], [c1], [c2] and [c3] at [0],
    [1/3], [2/3] and [1], constant outside [[0, 1]]. *)
Definition ramp (c0 c1 c2 c3 : R) (v : R) : R :=
  if Rlt_dec v 0 then c0
  else if Rlt_dec v (1 / 3) then c0 + 3 * v * (c1 - c0)
  else if Rlt_dec v (2 / 3) then c1 + (3 * v - 1) * (c2 - c1)
  else if Rlt_dec v 1 then c2 + (3 * v - 2) * (c3 - c2)
  else c3.

(* ================================================================= *)
(** ** Contour lines *)

(** A point [{x, y}] of a contour line. *)
Record point : Type := mkPoint { point_x : number; point_y : number }.

(** A corner [{x, y, value}] of a cell of the grid. *)
Record corner : Type := mkCorner {
  corner_x : number; corner_y : number; corner_value : number
}.

(** A contour [{level, points}]. *)
Record contour : Type := mkContour {
  contour_level : number; contour_points : list point
}.

(** [generateContours], lines 150-155: the four corners of the cell whose
    upper left corner is at row [i] and column [j], clockwise. *)
Definition cellCorners (g : grid) (i j : nat) : M (list corner) :=
  v0 <- read2 g i j ;;
  v1 <- read2 g i (j + 1) ;;
  v2 <- read2 g (i + 1) (j + 1) ;;
  v3 <- read2 g (i + 1) j ;;
  ret [ mkCorner (of_nat j) (of_nat i) v0;
        mkCorner (of_nat j + Fin 1)%js (of_nat i) v1;
        mkCorner (of_nat j + Fin 1)%js (of_nat i + Fin 1)%js v2;
        mkCorner (of_nat j) (of_nat i + Fin 1)%js v3 ].

(** [generateContours], lines 161-169: the edge from the corner [cm] to the
    corner [cn] contributes a point when the values at its ends lie on
    different sides of the threshold. *)
Definition crossing (threshold : number) (cm cn : corner)
    (lines : list point) : list point :=
  if ((corner_value cm <? threshold)%js && (corner_value cn >=? threshold)%js)
     || ((corner_value cm >=? threshold)%js && (corner_value cn <? threshold)%js)
  then
    let t := ((threshold - corner_value cm)
              / (corner_value cn - corner_value cm))%js in
    let x := (corner_x cm + t * (corner_x cn - corner_x cm))%js in
    let y := (corner_y cm + t * (corner_y cn - corner_y cm))%js in
    lines ++ [mkPoint x y]
  else lines.

(** The element read at an index the four-element array [cell] lacks; the
    loop below stays within the array. *)
Definition no_corner : corner := mkCorner NaN NaN NaN.

(** [generateContours], lines 158-170: the loop over the four edges of a
    cell. *)
Definition cellCrossings (threshold : number) (cell : list corner)
    (lines : list point) : list point :=
  fold_left (fun lines m =>
               let n := ((m + 1) mod 4)%nat in
               crossing threshold (nth m cell no_corner) (nth n cell no_corner)
                        lines)
            (seq 0 4) lines.

(** [generateContours] (gameUtils.js 138-178).  [levels] is a number of
    levels, a natural number. *)
Definition generateContours (g : grid) (levels : nat) : M (list contour) :=
  let rows := length g in
  cols <- row0_length g ;;
  for_each (seq 1 levels) (fun k contours =>
    let threshold := (of_nat k / of_nat levels)%js in
    lines <- for_each (seq 0 (rows - 1)) (fun i lines =>
               for_each (seq 0 (cols - 1)) (fun j lines =>
                 cell <- cellCorners g i j ;;
                 ret (cellCrossings threshold cell lines))
               lines) [] ;;
    ret (contours ++ [mkContour threshold lines])) [].

(** *** What a contour consists of *)

(** The corners of a cell, read with [peek]. *)
Definition cornersOf (g : grid) (i j : nat) : list corner :=
  [ mkCorner (of_nat j) (of_nat i) (peek g i j);
    mkCorner (of_nat j + Fin 1)%js (of_nat i) (peek g i (j + 1));
    mkCorner (of_nat j + Fin 1)%js (of_nat i + Fin 1)%js
             (peek g (i + 1) (j + 1));
    mkCorner (of_nat j) (of_nat i + Fin 1)%js (peek g (i + 1) j) ].

(** The points one cell contributes to the contour at [threshold]. *)
Definition cellPoints (threshold : number) (g : grid) (i j : nat)
    : list point :=
  cellCrossings threshold (cornersOf g i j) [].

(** The points of the contour at [threshold], cell by cell in the order of
    the traversal. *)
Definition levelPoints (threshold : number) (g : grid) (rows cols : nat)
    : list point :=
  flat_map (fun i => flat_map (fun j => cellPoints threshold g i j)
                              (seq 0 (cols - 1)))
           (seq 0 (rows - 1)).

(** The point [p] lies on the boundary of the cell whose upper left corner
    is at row [i] and column [j]. *)
Definition on_cell_boundary (i j : nat) (p : point) : Prop :=
  exists x y : R,
    p = mkPoint (Fin x) (Fin y) /\
    INR j <= x <= INR j + 1 /\ INR i <= y <= INR i + 1 /\
    (x = INR j \/ x = INR j + 1 \/ y = INR i \/ y = INR i + 1).

(** The point, if any, at which the level [th] is crossed on the edge from
    [(xm, ym)], where the grid has the value [a], to [(xn, yn)], where it
    has the value [b]: the crossing as it reads on reals. *)
Definition edgePoints (th xm ym a xn yn b : R) : list point :=
  let p := mkPoint (Fin (xm + (th - a) / (b - a) * (xn - xm)))
                   (Fin (ym + (th - a) / (b - a) * (yn - ym))) in
  if Rlt_dec a th
  then if Rlt_dec b th then [] else [p]
  else if Rlt_dec b th then [p] else [].

(** The level [th] is crossed at [p] on one of the four edges of the cell
    whose upper left corner is at row [i] and column [j]: the values [a]
    and [b] at the ends of the edge lie on different sides of the level,
    and [p] is the point of the edge at which the linear interpolation of
    [a] and [b] equals [th]. *)
Definition level_crossed (th : R) (g : grid) (i j : nat) (p : point) : Prop :=
  exists (m : nat) (cm cn : corner) (xm ym a xn yn b t : R),
    nth_error (cornersOf g i j) m = Some cm /\
    nth_error (cornersOf g i j) ((m + 1) mod 4) = Some cn /\
    cm = mkCorner (Fin xm) (Fin ym) (Fin a) /\
    cn = mkCorner (Fin xn) (Fin yn) (Fin b) /\
    (a < th <= b \/ b < th <= a) /\
    0 <= t <= 1 /\ a + t * (b - a) = th /\
    p = mkPoint (Fin (xm + t * (xn - xm))) (Fin (ym + t * (yn - ym))).

(* ================================================================= *)
(** ** The gradient field *)

(** An arrow [{x, y, dx, dy, magnitude}] of the field. *)
Record arrow : Type := mkArrow {
  arrow_x : number; arrow_y : number;
  arrow_dx : number; arrow_dy : number; arrow_magnitude : number
}.

(** The values of [i] in [for (let i = spacing; i < n; i += spacing)]: the
    multiples of [spacing] below [n], from [spacing] on.  The spacing is a
    positive integer, as the loop needs to come to an end. *)
Definition strides (spacing : positive) (n : nat) : list nat :=
  map (fun k => (k * Pos.to_nat spacing)%nat)
      (seq 1 ((n - 1) / Pos.to_nat spacing)).

(** [generateGradientField], lines 226-237: the body of the inner loop. *)
Definition fieldArrow (g : grid) (i j : nat) (gradients : list arrow)
    : M (list arrow) :=
  gr <- calculateGradient g (of_nat j) (of_nat i) (Fin 0) ;;
  let dx := grad_dx gr in
  let dy := grad_dy gr in
  if (dx * dx + dy * dy >? Fin 0.0001)%js then
    ret (gradients
         ++ [mkArrow (of_nat j) (of_nat i) dx dy
                     (Math_sqrt (dx * dx + dy * dy)%js)])
  else ret gradients.

(** [generateGradientField] (gameUtils.js 219-242). *)
Definition generateGradientField (g : grid) (spacing : positive)
    : M (list arrow) :=
  let rows := length g in
  cols <- row0_length g ;;
  for_each (strides spacing rows) (fun i gradients =>
    for_each (strides spacing cols) (fun j gradients =>
      fieldArrow g i j gradients)
    gradients) [].

(** The real a number stands for, [0] when it is none. *)
Definition real_of (x : number) : R :=
  match x with Fin r => r | _ => 0 end.

(** The central differences [calculateGradient] takes at [(x, y)] on a
    grid of [rows] by [cols] reals. *)
Definition central_dx (g : grid) (rows cols : nat) (x y : R) : R :=
  (real_of (peek g (clampIndex y rows) (clampIndex x cols + 1))
   - real_of (peek g (clampIndex y rows) (clampIndex x cols - 1))) / 2.

Definition central_dy (g : grid) (rows cols : nat) (x y : R) : R :=
  (real_of (peek g (clampIndex y rows + 1) (clampIndex x cols))
   - real_of (peek g (clampIndex y rows - 1) (clampIndex x cols))) / 2.

(** The arrow the field holds for row [i] and column [j] of a grid of
    [rows] by [cols] reals: none where the gradient is not significant. *)
Definition arrowsAt (g : grid) (rows cols i j : nat) : list arrow :=
  let dx := central_dx g rows cols (INR j) (INR i) in
  let dy := central_dy g rows cols (INR j) (INR i) in
  if Rlt_dec 0.0001 (dx * dx + dy * dy)
  then [mkArrow (of_nat j) (of_nat i) (Fin dx) (Fin dy) (Fin (norm dx dy))]
  else [].

(* ================================================================= *)
(** ** The state kept by the view ([MinMaxGame]) *)

(** [a.slice(start)]: the elements of [a] from the index [start] on; a
    negative [start] counts from the end of the array. *)
Definition Array_slice {A} (start : Z) (a : list A) : list A :=
  let len := Z.of_nat (length a) in
  let k := if (start <? 0)%Z then Z.max (len + start) 0 else Z.min start len in
  skipn (Z.to_nat k) a.

(** The update of a position history ([MinMaxGame], the callbacks given
    to [setDefenderHistory] and [setAdversaryHistory]): the new position is
    appended and the last 50 positions are kept. *)
Definition pushPosition {A} (prev : list A) (newPosition : A) : list A :=
  let updated := prev ++ [newPosition] in
  if (50 <? length updated)%nat then Array_slice (-50) updated else updated.

(** The loss history [{defender, adversary}]. *)
Record lossHistory : Type := mkLossHistory {
  history_defender : list number; history_adversary : list number
}.

(** The update of the loss history (the callback given to
    [setLossHistory]): the last 100 values of each loss are kept. *)
Definition pushLosses (prev : lossHistory) (l : losses) : lossHistory :=
  mkLossHistory
    (Array_slice (-100) (history_defender prev ++ [defenderLoss l]))
    (Array_slice (-100) (history_adversary prev ++ [adversaryLoss l])).

(** The part of the state of the view that a frame updates: the grid and
    the two positions, held by reference, the iteration counter and the
    two position histories, which hold references to the positions of the
    earlier frames. *)
Record view : Type := mkView {
  view_grid : loc;
  view_defender : loc;
  view_adversary : loc;
  view_iteration : nat;
  view_defenderHistory : list loc;
  view_adversaryHistory : list loc
}.

(** The frame callback [animate] when an update is due: one step of the
    game, after which the new positions replace the current ones and are
    appended to the histories, and the iteration counter is incremented. *)
Definition animationStep (defenseStrength attackStrength : number) (v : view)
    : M view :=
  '(newDefender, newAdversary) <-
     simulateStep (view_defender v) (view_adversary v) (view_grid v)
                  defenseStrength attackStrength ;;
  ret (mkView (view_grid v) newDefender newAdversary
              (S (view_iteration v))
              (pushPosition (view_defenderHistory v) newDefender)
              (pushPosition (view_adversaryHistory v) newAdversary)).

(** A run of frames, each with the strengths the controls hold at the
    time: [(defenseStrength, attackStrength)] for every frame in turn. *)
Definition animation (strengths : list (R * R)) (v : view) : M view :=
  for_each strengths
           (fun s v => animationStep (Fin (fst s)) (Fin (snd s)) v) v.

(** The location [l] holds a position on the board. *)
Definition holds_on_board (rows cols : nat) (w : world) (l : loc) : Prop :=
  exists p, nth_error (store w) l = Some (OPos p) /\ on_board rows cols p.

(** [x === y] on numbers; [NaN] equals nothing. *)
Definition nseq (x y : number) : bool :=
  match x, y with
  | Fin a, Fin b => if Req_dec_T a b then true else false
  | PInf, PInf | NInf, NInf => true
  | _, _ => false
  end.

(** What the regeneration of the landscape sets: the contours, the
    gradient field and the state a frame works on. *)
Record scene : Type := mkScene {
  scene_contours : list contour;
  scene_gradientField : list arrow;
  scene_view : view
}.

(** The effect that runs when the dimensions of the canvas change: it
    returns at once on an empty canvas ([None]); otherwise it generates
    the landscape at resolution 5, its contours at 15 levels and its
    gradient field at spacing 20, places the two agents and resets the
    histories and the iteration counter.  The grid and the two positions
    are objects of the store, which the state refers to. *)
Definition regenerate (width height : number) : M (option scene) :=
  if nseq width (Fin 0) || nseq height (Fin 0) then ret None
  else
    let resolution := Fin 5 in
    newGrid <- generateLossLandscape width height resolution ;;
    grid <- alloc (OGrid newGrid) ;;
    newContours <- generateContours newGrid 15 ;;
    newGradientField <- generateGradientField newGrid 20 ;;
    let rows := of_nat (length newGrid) in
    ncols <- row0_length newGrid ;;
    let cols := of_nat ncols in
    defender <- alloc (OPos (mkPos (cols * Fin 0.3) (rows * Fin 0.7))%js) ;;
    adversary <- alloc (OPos (mkPos (cols * Fin 0.7) (rows * Fin 0.3))%js) ;;
    ret (Some (mkScene newContours newGradientField
                       (mkView grid defender adversary 0 [] []))).

(** From [w] to [w'] exactly [n] random numbers have been drawn, and
    nothing else has changed. *)
Definition draws (n : nat) (w w' : world) : Prop :=
  w' = mkWorld (entropy w) (drawn w + n) (store w).
(* ================================================================= *)
(** ** Arithmetic on real-valued numbers *)

Ltac decide_reals :=
  repeat match goal with
  | |- context [Rlt_dec ?a ?b] => destruct (Rlt_dec a b); try lra
  | |- context [Rle_dec ?a ?b] => destruct (Rle_dec a b); try lra
  | |- context [Req_dec_T ?a ?b] => destruct (Req_dec_T a b); try lra
  end.

Lemma finite_inv x : finite x -> exists r, x = Fin r.
Proof. destruct x; simpl; intros H; try contradiction. now exists r. Qed.

Lemma between_inv lo hi x :
  between lo hi x -> exists r, x = Fin r /\ lo <= r <= hi.
Proof. destruct x; simpl; intros H; try contradiction. now exists r. Qed.

Lemma ndiv_fin a b : b <> 0 -> (Fin a / Fin b)%js = Fin (a / b).
Proof. intros H. unfold ndiv. decide_reals. reflexivity. Qed.

Lemma Math_sqrt_fin a : 0 <= a -> Math_sqrt (Fin a) = Fin (sqrt a).
Proof. intros H. unfold Math_sqrt. decide_reals. reflexivity. Qed.

Lemma Math_log_fin a : 0 < a -> Math_log (Fin a) = Fin (ln a).
Proof. intros H. unfold Math_log. decide_reals. reflexivity. Qed.

Lemma Math_max_fin a b : Math_max (Fin a) (Fin b) = Fin (Rmax a b).
Proof.
  unfold Math_max, nlt, Rmax.
  destruct (Rlt_dec a b), (Rle_dec a b); try reflexivity; try lra.
  f_equal; lra.
Qed.

Lemma Math_min_fin a b : Math_min (Fin a) (Fin b) = Fin (Rmin a b).
Proof.
  unfold Math_min, nlt, Rmin.
  destruct (Rlt_dec b a), (Rle_dec a b); try reflexivity; try lra.
Qed.

Lemma ngt_fin a b : (Fin a >? Fin b)%js = true <-> b < a.
Proof. unfold ngt, nlt. destruct (Rlt_dec b a); split; intros; try easy. Qed.

Lemma ngt_fin_false a b : (Fin a >? Fin b)%js = false <-> a <= b.
Proof.
  unfold ngt, nlt. destruct (Rlt_dec b a); split; intros; try easy; lra.
Qed.

(** [Math.min(Math.max(x, lo), hi)] lands in [[lo, hi]] unless [x] is
    [NaN]. *)
Lemma clamp_between x lo hi :
  x <> NaN -> lo <= hi ->
  between lo hi (Math_min (Math_max x (Fin lo)) (Fin hi)).
Proof.
  intros Hx Hle. destruct x as [r| | |]; try congruence.
  - rewrite Math_max_fin, Math_min_fin. simpl.
    unfold Rmin, Rmax. decide_reals.
  - simpl. unfold Math_min, nlt. decide_reals; simpl; lra.
  - simpl. unfold Math_min, nlt. decide_reals; simpl; lra.
Qed.

Lemma nsub_NaN_r x : (x - NaN)%js = NaN.
Proof. now destruct x. Qed.

Lemma nmul_NaN_r x : (x * NaN)%js = NaN.
Proof. now destruct x. Qed.

Lemma nadd_NaN_r x : (x + NaN)%js = NaN.
Proof. now destruct x. Qed.

(** *** Integer-valued numbers and indices *)

Lemma Rmax_IZR a b : Rmax (IZR a) (IZR b) = IZR (Z.max a b).
Proof.
  unfold Rmax. destruct (Rle_dec (IZR a) (IZR b)) as [H|H].
  - apply le_IZR in H. now rewrite Z.max_r.
  - rewrite Z.max_l; [reflexivity|].
    destruct (Z.le_gt_cases b a) as [L|L]; [assumption|].
    exfalso. apply H. apply IZR_le. lia.
Qed.

Lemma Rmin_IZR a b : Rmin (IZR a) (IZR b) = IZR (Z.min a b).
Proof.
  unfold Rmin. destruct (Rle_dec (IZR a) (IZR b)) as [H|H].
  - apply le_IZR in H. now rewrite Z.min_l.
  - rewrite Z.min_r; [reflexivity|].
    destruct (Z.le_gt_cases b a) as [L|L]; [assumption|].
    exfalso. apply H. apply IZR_le. lia.
Qed.

Lemma index_of_IZR z : (0 <= z)%Z -> index_of (Fin (IZR z)) = Some (Z.to_nat z).
Proof.
  intros H. unfold index_of. rewrite ZfloorZ.
  destruct (Rle_dec 0 (IZR z)) as [L|L].
  - destruct (Req_dec_T (IZR z) (IZR z)); congruence.
  - exfalso. apply L. now apply IZR_le.
Qed.

Lemma index_of_negative z : (z < 0)%Z -> index_of (Fin (IZR z)) = None.
Proof.
  intros H. unfold index_of.
  destruct (Rle_dec 0 (IZR z)) as [L|L]; [|reflexivity].
  apply le_IZR in L. lia.
Qed.

Lemma of_nat_IZR n : of_nat n = Fin (IZR (Z.of_nat n)).
Proof. unfold of_nat. now rewrite INR_IZR_INZ. Qed.

(** The clamped floor of a coordinate is an integer of the range. *)
Lemma clamped_floor y lo hi :
  (lo <= hi)%Z ->
  exists z, (lo <= z <= hi)%Z /\
    Math_min (Math_max (Math_floor (Fin y)) (Fin (IZR lo))) (Fin (IZR hi))
    = Fin (IZR z).
Proof.
  intros H. exists (Z.min (Z.max (Zfloor y) lo) hi). split; [lia|].
  unfold Math_floor. now rewrite Math_max_fin, Rmax_IZR, Math_min_fin, Rmin_IZR.
Qed.

(** Reduction of the operations that are total on the reals. *)
Ltac fin_arith :=
  cbn [nadd nsub nneg nmul Math_abs Math_exp Math_cos Math_sin Math_floor
       Math_pow].

(** Evaluation of [Rmin] and [Rmax] at operands that [lra] can compare. *)
Ltac minmax :=
  repeat match goal with
  | |- context [Rmin ?x ?y] =>
      first [rewrite (Rmin_left x y) by lra | rewrite (Rmin_right x y) by lra]
  | |- context [Rmax ?x ?y] =>
      first [rewrite (Rmax_left x y) by lra | rewrite (Rmax_right x y) by lra]
  end.

(* ================================================================= *)
(** ** Runs *)

Lemma run_ok_ret {A} (a : A) w (Q : A -> world -> Prop) :
  Q a w -> run_ok (ret a) w Q.
Proof. exact (fun H => H). Qed.

Lemma run_ok_step {A B} (m : M A) (k : A -> M B) w
      (P : A -> world -> Prop) (Q : B -> world -> Prop) :
  run_ok m w P ->
  (forall a w', P a w' -> run_ok (k a) w' Q) ->
  run_ok (bind m k) w Q.
Proof.
  unfold run_ok, bind. intros Hm Hk.
  destruct (m w) as [a w'|e]; [|contradiction]. now apply Hk.
Qed.

Lemma run_ok_weaken {A} (m : M A) w (P Q : A -> world -> Prop) :
  run_ok m w P -> (forall a w', P a w' -> Q a w') -> run_ok m w Q.
Proof.
  unfold run_ok. intros Hm HPQ. destruct (m w); [now apply HPQ|assumption].
Qed.

Lemma run_ok_returns {A} (m : M A) w (Q : A -> world -> Prop) :
  run_ok m w Q -> exists a w', m w = Returns a w' /\ Q a w'.
Proof.
  unfold run_ok. intros H. destruct (m w) as [a w'|e]; [|contradiction].
  now exists a, w'.
Qed.

(** A loop keeps an invariant that every turn of its body keeps. *)
Lemma for_each_invariant {A S} (I : S -> world -> Prop)
      (l : list A) (body : A -> S -> M S) :
  (forall a s w, In a l -> I s w -> run_ok (body a s) w I) ->
  forall s w, I s w -> run_ok (for_each l body s) w I.
Proof.
  induction l as [|a l IH]; intros Hbody s w Hs; simpl.
  - exact Hs.
  - eapply run_ok_step.
    + apply Hbody; [now left|exact Hs].
    + intros s' w' Hs'. apply IH; [|exact Hs'].
      intros b s0 w0 Hb. apply Hbody. now right.
Qed.

Lemma only_draws_refl w : only_draws w w.
Proof. now split. Qed.

Lemma only_draws_trans w1 w2 w3 :
  only_draws w1 w2 -> only_draws w2 w3 -> only_draws w1 w3.
Proof. unfold only_draws. intros [-> ->] [-> ->]. now split. Qed.

Lemma zero_free_only_draws w w' :
  only_draws w w' -> zero_free w -> zero_free w'.
Proof. unfold zero_free. intros [-> _] H. exact H. Qed.

Lemma Math_random_ok w :
  run_ok Math_random w
         (fun u w' => u = Fin (entropy w (drawn w)) /\ only_draws w w').
Proof. simpl. split; [reflexivity|now split]. Qed.

(** With a source that never returns [0] the Box-Muller sample is a real. *)
Lemma boxMullerTransform_finite w :
  zero_free w ->
  run_ok boxMullerTransform w (fun z w' => finite z /\ only_draws w w').
Proof.
  intros Hz. unfold boxMullerTransform.
  eapply run_ok_step; [apply Math_random_ok|]. intros u1 w1 [-> H1].
  eapply run_ok_step; [apply Math_random_ok|]. intros u2 w2 [-> H2].
  apply run_ok_ret. split; [|eapply only_draws_trans; eassumption].
  destruct (Hz (drawn w)) as [Hpos Hlt].
  rewrite Math_log_fin by assumption. fin_arith.
  rewrite Math_sqrt_fin; [exact I|].
  assert (ln (entropy w (drawn w)) < 0).
  { rewrite <- ln_1. apply ln_increasing; assumption. }
  lra.
Qed.

(** Whatever the source returns, the generator returns some number. *)
Lemma boxMullerTransform_returns w :
  run_ok boxMullerTransform w (fun _ w' => only_draws w w').
Proof.
  unfold boxMullerTransform.
  eapply run_ok_step; [apply Math_random_ok|]. intros u1 w1 [-> H1].
  eapply run_ok_step; [apply Math_random_ok|]. intros u2 w2 [-> H2].
  apply run_ok_ret. eapply only_draws_trans; eassumption.
Qed.

(* ================================================================= *)
(** ** Lists and arrays *)

Lemma replace_length {A} (l : list A) i x :
  (i < length l)%nat -> length (firstn i l ++ x :: skipn (S i) l) = length l.
Proof.
  intros H. rewrite length_app, length_firstn. cbn [length].
  rewrite length_skipn. lia.
Qed.

Lemma replace_nth_same {A} (l : list A) i x :
  (i < length l)%nat -> nth_error (firstn i l ++ x :: skipn (S i) l) i = Some x.
Proof.
  intros H. rewrite nth_error_app2; rewrite length_firstn; [|lia].
  replace (i - Nat.min i (length l))%nat with 0%nat by lia. reflexivity.
Qed.

Lemma replace_nth_other {A} (l : list A) i k x :
  (i < length l)%nat -> k <> i ->
  nth_error (firstn i l ++ x :: skipn (S i) l) k = nth_error l k.
Proof.
  intros H Hk. destruct (Nat.lt_ge_cases k i) as [L|L].
  - rewrite nth_error_app1 by (rewrite length_firstn; lia).
    rewrite nth_error_firstn. destruct (Nat.ltb_spec k i); [reflexivity|lia].
  - rewrite nth_error_app2 by (rewrite length_firstn; lia).
    rewrite length_firstn. replace (Nat.min i (length l)) with i by lia.
    destruct (k - i)%nat as [|d] eqn:E; [lia|]. cbn [nth_error].
    rewrite nth_error_skipn. f_equal. lia.
Qed.

Lemma Forall_take {A} (P : A -> Prop) (l : list A) n :
  Forall P l -> Forall P (firstn n l).
Proof.
  intros H. revert n. induction H as [|a l Ha Hl IH]; intros [|n]; simpl;
    try constructor; auto.
Qed.

Lemma Forall_drop {A} (P : A -> Prop) (l : list A) n :
  Forall P l -> Forall P (skipn n l).
Proof.
  intros H. revert n. induction H as [|a l Ha Hl IH]; intros [|n]; simpl;
    try constructor; auto.
Qed.

Lemma replace_Forall {A} (P : A -> Prop) (l : list A) i x :
  Forall P l -> P x -> Forall P (firstn i l ++ x :: skipn (S i) l).
Proof.
  intros Hl Hx. apply Forall_app. split.
  - now apply Forall_take.
  - constructor; [assumption|]. now apply Forall_drop.
Qed.

Lemma array_set_inside a j v :
  (j < length a)%nat -> array_set a j v = firstn j a ++ v :: skipn (S j) a.
Proof.
  intros H. unfold array_set.
  destruct (Nat.ltb_spec j (length a)); [reflexivity|lia].
Qed.

Lemma all_cells_row (P : number -> Prop) g i row :
  all_cells P g -> nth_error g i = Some row -> Forall P row.
Proof.
  intros H E. unfold all_cells in H. rewrite Forall_forall in H.
  apply H. eapply nth_error_In; eassumption.
Qed.

Lemma of_nat_minus n (k : Z) :
  (of_nat n - Fin (IZR k))%js = Fin (IZR (Z.of_nat n - k)).
Proof.
  rewrite of_nat_IZR. fin_arith. f_equal. rewrite minus_IZR. lra.
Qed.

(* ================================================================= *)
(** ** Access to a grid of known shape *)

Section GridAccess.

Variables (rows cols : nat) (g : grid).
Hypothesis Hshape : shape rows cols g.

Lemma row0_length_shape w :
  (1 <= rows)%nat -> row0_length g w = Returns cols w.
Proof.
  intros H1. destruct Hshape as [Hr Hc].
  destruct g as [|row g']; simpl in *; [lia|].
  inversion Hc; subst. reflexivity.
Qed.

Lemma row0_length_ok w :
  (1 <= rows)%nat ->
  run_ok (row0_length g) w (fun n w' => n = cols /\ w' = w).
Proof.
  intros H1. unfold run_ok. rewrite (row0_length_shape _ H1). now split.
Qed.

Lemma shape_row i :
  (i < rows)%nat ->
  exists row, nth_error g i = Some row /\ length row = cols.
Proof.
  intros Hi. destruct Hshape as [Hr Hc].
  destruct (nth_error g i) as [row|] eqn:E.
  - exists row. split; [reflexivity|].
    rewrite Forall_forall in Hc. apply Hc. eapply nth_error_In; eassumption.
  - apply nth_error_None in E. lia.
Qed.

Lemma cell_peek i j :
  (i < rows)%nat -> (j < cols)%nat -> cell g i j = Some (peek g i j).
Proof.
  intros Hi Hj. destruct (shape_row _ Hi) as (row & E & L).
  unfold cell, peek. rewrite E. rewrite (nth_error_nth _ _ _ E).
  unfold elem. apply nth_error_nth'. lia.
Qed.

Lemma cell_inside (P : number -> Prop) i j :
  all_cells P g -> (i < rows)%nat -> (j < cols)%nat ->
  exists v, cell g i j = Some v /\ P v.
Proof.
  intros HP Hi Hj. destruct (shape_row _ Hi) as (row & E & L).
  unfold cell. rewrite E.
  destruct (nth_error row j) as [v|] eqn:Ev.
  - exists v. split; [reflexivity|].
    assert (HF : Forall P row) by (eapply all_cells_row; eassumption).
    rewrite Forall_forall in HF. apply HF. eapply nth_error_In; eassumption.
  - apply nth_error_None in Ev. lia.
Qed.

Lemma peek_inside (P : number -> Prop) i j :
  all_cells P g -> (i < rows)%nat -> (j < cols)%nat -> P (peek g i j).
Proof.
  intros HP Hi Hj.
  destruct (cell_inside P _ _ HP Hi Hj) as (v & E & Hv).
  rewrite (cell_peek _ _ Hi Hj) in E. congruence.
Qed.

Lemma all_cells_of_cell (P : number -> Prop) :
  (forall i j v, (i < rows)%nat -> (j < cols)%nat ->
                 cell g i j = Some v -> P v) ->
  all_cells P g.
Proof.
  intros H. destruct Hshape as [Hr Hc].
  unfold all_cells. rewrite Forall_forall in *.
  intros row Hin. rewrite Forall_forall. intros v Hv.
  destruct (In_nth_error _ _ Hin) as [i Ei].
  destruct (In_nth_error _ _ Hv) as [j Ej].
  assert (Hi : (i < length g)%nat) by (apply nth_error_Some; congruence).
  assert (Hj : (j < length row)%nat) by (apply nth_error_Some; congruence).
  apply (H i j); [lia|rewrite <- (Hc row Hin); exact Hj|].
  unfold cell. now rewrite Ei.
Qed.

(** A read inside the grid returns the cell and changes nothing. *)
Lemma read2_peek i j w :
  (i < rows)%nat -> (j < cols)%nat ->
  run_ok (read2 g i j) w (fun v w' => v = peek g i j /\ w' = w).
Proof.
  intros Hi Hj. destruct (shape_row _ Hi) as (row & E & L).
  unfold run_ok, read2, peek. rewrite E, (nth_error_nth _ _ _ E). now split.
Qed.

Lemma read2_num_peek zi zj w :
  (0 <= zi < Z.of_nat rows)%Z -> (0 <= zj < Z.of_nat cols)%Z ->
  run_ok (read2_num g (Fin (IZR zi)) (Fin (IZR zj))) w
         (fun v w' => v = peek g (Z.to_nat zi) (Z.to_nat zj) /\ w' = w).
Proof.
  intros Hi Hj.
  assert (Hi' : (Z.to_nat zi < rows)%nat) by lia.
  destruct (shape_row _ Hi') as (row & E & L).
  unfold run_ok, read2_num. rewrite !index_of_IZR by lia. rewrite E. simpl.
  split; [|reflexivity].
  unfold peek. now rewrite (nth_error_nth _ _ _ E).
Qed.

Lemma read2_num_inside (P : number -> Prop) zi zj w :
  all_cells P g ->
  (0 <= zi < Z.of_nat rows)%Z -> (0 <= zj < Z.of_nat cols)%Z ->
  run_ok (read2_num g (Fin (IZR zi)) (Fin (IZR zj))) w
         (fun v w' => P v /\ w' = w).
Proof.
  intros HP Hi Hj.
  eapply run_ok_weaken; [apply read2_num_peek; eassumption|].
  intros v w' [-> ->]. split; [|reflexivity]. apply peek_inside; [assumption|lia|lia].
Qed.

(** An assignment inside the grid changes that cell and no other. *)
Lemma write2_inside i j v w :
  (i < rows)%nat -> (j < cols)%nat ->
  run_ok (write2 g i j v) w
    (fun g' w' =>
       w' = w /\ shape rows cols g' /\ cell g' i j = Some v /\
       (forall i' j', i' <> i \/ j' <> j -> cell g' i' j' = cell g i' j') /\
       (forall P : number -> Prop, all_cells P g -> P v -> all_cells P g')).
Proof.
  intros Hi Hj. destruct (shape_row _ Hi) as (row & E & L).
  destruct Hshape as [Hr Hc].
  unfold run_ok, write2. rewrite E. unfold ret. cbv beta iota.
  rewrite array_set_inside by lia.
  split; [reflexivity|]. split; [|split; [|split]].
  - split.
    + rewrite replace_length; lia.
    + apply replace_Forall; [assumption|]. rewrite replace_length; lia.
  - unfold cell. rewrite replace_nth_same by lia.
    apply replace_nth_same. lia.
  - intros i' j' Hne. unfold cell.
    destruct (Nat.eq_dec i' i) as [->|Hi'].
    + rewrite replace_nth_same by lia. rewrite E.
      apply replace_nth_other; [lia|]. destruct Hne; congruence.
    + rewrite replace_nth_other by lia. reflexivity.
  - intros P HP Hv. apply replace_Forall; [assumption|].
    apply replace_Forall; [|assumption].
    eapply all_cells_row; eassumption.
Qed.

End GridAccess.

(* ================================================================= *)
(** ** Loops over the cells of a grid *)

Lemma for_each_indexed {A S} (l : list A) (body : A -> S -> M S) :
  forall (I : nat -> S -> world -> Prop),
  (forall k a s w, nth_error l k = Some a -> I k s w ->
                   run_ok (body a s) w (I (Datatypes.S k))) ->
  forall s w, I O s w -> run_ok (for_each l body s) w (I (length l)).
Proof.
  induction l as [|a l IH]; intros I Hbody s w Hs; simpl.
  - exact Hs.
  - eapply run_ok_step.
    + apply (Hbody O a); [reflexivity|exact Hs].
    + intros s' w' Hs'.
      apply (IH (fun k => I (Datatypes.S k))); [|exact Hs'].
      intros k b s0 w0 Hk. now apply Hbody.
Qed.

Lemma nth_error_seq_inv a n k x :
  nth_error (seq a n) k = Some x -> x = (a + k)%nat /\ (k < n)%nat.
Proof.
  intros H. assert (Hk : (k < n)%nat).
  { rewrite <- (length_seq n a). apply nth_error_Some. congruence. }
  split; [|assumption].
  rewrite nth_error_seq in H.
  destruct (Nat.ltb_spec k n); [|lia]. congruence.
Qed.

(** The nested loop over rows [i0 .. i0+n) and columns [j0 .. j0+m):
    [J i j] holds of the state before the cell [(i0+i, j0+j)] is treated. *)
Lemma for_each_cells {S} (J : nat -> nat -> S -> world -> Prop)
      (i0 j0 n m : nat) (body : nat -> nat -> S -> M S) :
  (forall i s w, (i < n)%nat -> J i m s w -> J (Datatypes.S i) O s w) ->
  (forall i j s w, (i < n)%nat -> (j < m)%nat -> J i j s w ->
     run_ok (body (i0 + i)%nat (j0 + j)%nat s) w (J i (Datatypes.S j))) ->
  forall s w, J O O s w ->
  run_ok (for_each (seq i0 n)
            (fun i s => for_each (seq j0 m) (fun j s => body i j s) s) s)
         w (J n O).
Proof.
  intros Hrow Hcell s w Hs.
  assert (Hin : forall k s0 w0, (k < n)%nat -> J k O s0 w0 ->
            run_ok (for_each (seq j0 m)
                      (fun j s => body (i0 + k)%nat j s) s0) w0
                   (J (Datatypes.S k) O)).
  { intros k s0 w0 Hk Hs0.
    pose proof (for_each_indexed (seq j0 m)
                  (fun j s => body (i0 + k)%nat j s) (fun j => J k j)) as H.
    rewrite length_seq in H. eapply run_ok_weaken.
    - apply H; [|exact Hs0].
      intros j b s1 w1 Hj Hs1. apply nth_error_seq_inv in Hj.
      destruct Hj as [-> Hj]. now apply Hcell.
    - intros s1 w1 H1. now apply Hrow. }
  pose proof (for_each_indexed (seq i0 n)
                (fun i s => for_each (seq j0 m) (fun j s => body i j s) s)
                (fun i => J i O)) as H.
  rewrite length_seq in H. apply H; [|exact Hs].
  intros k a s0 w0 Hk Hs0. apply nth_error_seq_inv in Hk.
  destruct Hk as [-> Hk]. now apply Hin.
Qed.

(* ================================================================= *)
(** ** Reads of a grid, as equations *)

Lemma read2_num_eq rows cols g zi zj w :
  shape rows cols g ->
  (0 <= zi < Z.of_nat rows)%Z -> (0 <= zj < Z.of_nat cols)%Z ->
  read2_num g (Fin (IZR zi)) (Fin (IZR zj)) w
  = Returns (peek g (Z.to_nat zi) (Z.to_nat zj)) w.
Proof.
  intros Hs Hi Hj.
  destruct (run_ok_returns _ _ _ (read2_num_peek rows cols g Hs zi zj w Hi Hj))
    as (v & w' & E & -> & ->).
  exact E.
Qed.

(** A column index that is [NaN] reads [undefined]. *)
Lemma read2_num_no_column rows cols g zi w :
  shape rows cols g -> (0 <= zi < Z.of_nat rows)%Z ->
  run_ok (read2_num g (Fin (IZR zi)) NaN) w (fun v w' => v = NaN /\ w' = w).
Proof.
  intros Hs Hi.
  assert (Hi' : (Z.to_nat zi < rows)%nat) by lia.
  destruct (shape_row _ _ _ Hs _ Hi') as (row & E & _).
  unfold run_ok, read2_num. rewrite index_of_IZR by lia. rewrite E.
  now split.
Qed.

(* ================================================================= *)
(** ** Sample inputs *)

Lemma zero_free_half s : zero_free (half_world s).
Proof. intros n. simpl. lra. Qed.

Lemma Zfloor_ratio (x y : R) (z : Z) :
  0 < y -> IZR z * y <= x < (IZR z + 1) * y -> Zfloor (x / y) = z.
Proof.
  intros Hy [H1 H2]. apply Zfloor_eq. split.
  - apply Rmult_le_reg_r with y; [assumption|].
    unfold Rdiv. rewrite Rmult_assoc, Rinv_l by lra. lra.
  - apply Rmult_lt_reg_r with y; [assumption|].
    unfold Rdiv. rewrite Rmult_assoc, Rinv_l by lra. lra.
Qed.

Lemma flat_grid_shape rows cols c : shape rows cols (flat_grid rows cols c).
Proof.
  unfold flat_grid. split; [apply repeat_length|].
  rewrite Forall_forall. intros row H. apply repeat_spec in H. subst.
  apply repeat_length.
Qed.

Lemma flat_grid_cells (P : number -> Prop) rows cols c :
  P (Fin c) -> all_cells P (flat_grid rows cols c).
Proof.
  intros H. unfold all_cells, flat_grid. rewrite Forall_forall.
  intros row Hr. apply repeat_spec in Hr. subst. rewrite Forall_forall.
  intros v Hv. apply repeat_spec in Hv. now subst.
Qed.

Lemma peek_flat_grid rows cols c i j :
  (i < rows)%nat -> (j < cols)%nat -> peek (flat_grid rows cols c) i j = Fin c.
Proof.
  intros Hi Hj. unfold peek, flat_grid, elem.
  rewrite (nth_repeat_lt _ _ Hi). now apply nth_repeat_lt.
Qed.

Lemma one_le_three : (1 <= 3)%nat.
Proof. lia. Qed.

Lemma three_le_twenty : (3 <= 20)%nat.
Proof. lia. Qed.

Lemma Rlt_0_5 : 0 < 5.
Proof. lra. Qed.

Lemma spike_grid_shape : shape 3 4 spike_grid.
Proof. split; [reflexivity|]. repeat constructor. Qed.

Lemma spike_grid_finite : all_cells finite spike_grid.
Proof. repeat constructor. Qed.

Lemma scenario_flat_shape : shape 20 20 (flat_grid 20 20 0.5).
Proof. apply flat_grid_shape. Qed.

Lemma scenario_flat_finite : all_cells finite (flat_grid 20 20 0.5).
Proof. apply flat_grid_cells. exact I. Qed.

Lemma narrow_flat_shape : shape 3 2 (flat_grid 3 2 0.5).
Proof. apply flat_grid_shape. Qed.

(* ================================================================= *)
(** ** The standard-normal generator at a zero draw *)

(** C7.  [boxMullerTransform] draws [u1] from [Math.random()] without any
    guard: when the source returns [0], the logarithm is taken at [0] and
    the sample returned is [Infinity], not a real number. *)
Theorem boxMullerTransform_zero_draw :
  uniform_source zero_world /\
  boxMullerTransform zero_world = Returns PInf (mkWorld (fun _ => 0) 2 []).
Proof.
  split.
  - intros n. simpl. lra.
  - unfold boxMullerTransform, bind, Math_random, ret, zero_world. simpl.
    unfold Math_log. decide_reals.
    unfold scale_inf. decide_reals. simpl.
    replace (2.0 * PI * 0) with 0 by lra. rewrite cos_0.
    unfold scale_inf. decide_reals. reflexivity.
Qed.

(* ================================================================= *)
(** ** The advantage of the stronger adversary *)

Lemma strengthRatio_fin a d :
  d <> 0 -> strengthRatio (Fin a) (Fin d) = Fin (a / d).
Proof. intros H. unfold strengthRatio. now rewrite ndiv_fin. Qed.

Lemma strengthAdvantage_fin a d :
  d <> 0 ->
  strengthAdvantage (Fin a) (Fin d) = Fin (Rmax 0 (a / d - 1) * 0.15).
Proof.
  intros H. unfold strengthAdvantage. rewrite strengthRatio_fin by assumption.
  fin_arith. rewrite Math_max_fin. fin_arith. reflexivity.
Qed.

Lemma applyAdvantage_fin it a d Ld La :
  0 < d -> d < a ->
  applyAdvantage (Fin it) (strengthRatio (Fin a) (Fin d))
                 (strengthAdvantage (Fin a) (Fin d)) (Fin Ld) (Fin La)
  = (Fin (if Rlt_dec 50 it
          then Rmin (Rmin (Ld * (1 + Rmax 0 (a / d - 1) * 0.15)) 1
                     + Rmin 0.3 ((it - 50) / 500) * sin (it / 30)) 1
          else Rmin (Ld * (1 + Rmax 0 (a / d - 1) * 0.15)) 1),
     Fin (Rmax (La * (1 - Rmax 0 (a / d - 1) * 0.15)) 0)).
Proof.
  intros Hd Ha. unfold applyAdvantage.
  rewrite strengthRatio_fin, strengthAdvantage_fin by lra.
  assert (Hr : 1 < a / d).
  { apply Rmult_lt_reg_r with d; [assumption|].
    unfold Rdiv. rewrite Rmult_assoc, Rinv_l by lra. lra. }
  apply ngt_fin in Hr. rewrite Hr. fin_arith.
  rewrite !Math_min_fin, Math_max_fin.
  unfold ngt, nlt. rewrite (ndiv_fin _ 500), (ndiv_fin _ 30) by lra.
  destruct (Rlt_dec 50 it).
  - fin_arith. rewrite Math_min_fin. fin_arith. rewrite Math_min_fin.
    reflexivity.
  - reflexivity.
Qed.

Lemma Rmin_monotone a b c : a <= b -> Rmin a c <= Rmin b c.
Proof. intros H. unfold Rmin. decide_reals. Qed.

Lemma Rmax_monotone a b c : a <= b -> Rmax a c <= Rmax b c.
Proof. intros H. unfold Rmax. decide_reals. Qed.

Lemma Rmax_monotone_r a b c : a <= b -> Rmax c a <= Rmax c b.
Proof. intros H. unfold Rmax. decide_reals. Qed.

(** With the defender's strength fixed and the adversary the stronger
    side, a larger attack strength gives a larger (or equal) advantage
    factor.  When both losses before the adjustment are non-negative, the
    defender's loss, scaled by [1 + advantage], does not decrease and the
    adversary's loss, scaled by [1 - advantage], does not increase, for the
    same iteration.  The code does not ensure that sign: the oscillation
    and the noise can take either loss below [0]. *)
Lemma strengthAdvantage_monotone (d a1 a2 it Ld La : R) :
  0 < d -> d < a1 -> a1 <= a2 -> 0 <= Ld -> 0 <= La ->
  exists v1 v2 D1 A1 D2 A2,
    strengthAdvantage (Fin a1) (Fin d) = Fin v1 /\
    strengthAdvantage (Fin a2) (Fin d) = Fin v2 /\
    0 <= v1 <= v2 /\
    applyAdvantage (Fin it) (strengthRatio (Fin a1) (Fin d))
                   (strengthAdvantage (Fin a1) (Fin d)) (Fin Ld) (Fin La)
    = (Fin D1, Fin A1) /\
    applyAdvantage (Fin it) (strengthRatio (Fin a2) (Fin d))
                   (strengthAdvantage (Fin a2) (Fin d)) (Fin Ld) (Fin La)
    = (Fin D2, Fin A2) /\
    D1 <= D2 /\ A2 <= A1.
Proof.
  intros Hd Ha1 Ha2 HLd HLa.
  rewrite !applyAdvantage_fin, !strengthAdvantage_fin by lra.
  do 6 eexists. repeat split; try reflexivity.
  - assert (H := Rmax_l 0 (a1 / d - 1)). lra.
  - assert (H : a1 / d <= a2 / d).
    { unfold Rdiv. apply Rmult_le_compat_r; [|assumption].
      left. now apply Rinv_0_lt_compat. }
    assert (H' := Rmax_monotone_r (a1 / d - 1) (a2 / d - 1) 0). lra.
  - set (v1 := Rmax 0 (a1 / d - 1) * 0.15).
    set (v2 := Rmax 0 (a2 / d - 1) * 0.15).
    assert (Hv : v1 <= v2).
    { assert (H : a1 / d <= a2 / d).
      { unfold Rdiv. apply Rmult_le_compat_r; [|assumption].
        left. now apply Rinv_0_lt_compat. }
      assert (H' := Rmax_monotone_r (a1 / d - 1) (a2 / d - 1) 0).
      unfold v1, v2. lra. }
    assert (Hp : Ld * (1 + v1) <= Ld * (1 + v2)).
    { apply Rmult_le_compat_l; lra. }
    assert (Hm := Rmin_monotone _ _ 1 Hp).
    destruct (Rlt_dec 50 it); [|exact Hm].
    apply Rmin_monotone. lra.
  - set (v1 := Rmax 0 (a1 / d - 1) * 0.15).
    set (v2 := Rmax 0 (a2 / d - 1) * 0.15).
    assert (Hv : v1 <= v2).
    { assert (H : a1 / d <= a2 / d).
      { unfold Rdiv. apply Rmult_le_compat_r; [|assumption].
        left. now apply Rinv_0_lt_compat. }
      assert (H' := Rmax_monotone_r (a1 / d - 1) (a2 / d - 1) 0).
      unfold v1, v2. lra. }
    apply Rmax_monotone. apply Rmult_le_compat_l; lra.
Qed.

Lemma strengthAdvantage_monotone_witness :
  exists v1 v2 D1 A1 D2 A2,
    strengthAdvantage (Fin 2) (Fin 1) = Fin v1 /\
    strengthAdvantage (Fin 3) (Fin 1) = Fin v2 /\
    0 <= v1 <= v2 /\
    applyAdvantage (Fin 60) (strengthRatio (Fin 2) (Fin 1))
                   (strengthAdvantage (Fin 2) (Fin 1)) (Fin 0.5) (Fin 0.5)
    = (Fin D1, Fin A1) /\
    applyAdvantage (Fin 60) (strengthRatio (Fin 3) (Fin 1))
                   (strengthAdvantage (Fin 3) (Fin 1)) (Fin 0.5) (Fin 0.5)
    = (Fin D2, Fin A2) /\
    D1 <= D2 /\ A2 <= A1.
Proof. apply (strengthAdvantage_monotone 1 2 3 60 0.5 0.5); lra. Defined.

(* ================================================================= *)
(** ** The dynamic loss is a pair of reals of the unit interval *)

Lemma applyAdvantage_finite it r v Ld La :
  exists D A,
    applyAdvantage (Fin it) (Fin r) (Fin v) (Fin Ld) (Fin La) = (Fin D, Fin A).
Proof.
  unfold applyAdvantage.
  destruct (Fin r >? Fin 1)%js; [|now eexists; eexists].
  fin_arith. rewrite Math_min_fin, Math_max_fin.
  destruct (Fin it >? Fin 50)%js; [|now eexists; eexists].
  rewrite ndiv_fin by lra. rewrite Math_min_fin.
  rewrite ndiv_fin by lra. fin_arith. rewrite Math_min_fin.
  now eexists; eexists.
Qed.

Lemma hypot_fin a b :
  Math_sqrt (Fin a * Fin a + Fin b * Fin b)%js = Fin (sqrt (a * a + b * b)).
Proof. fin_arith. apply Math_sqrt_fin. nra. Qed.

Lemma clamp_unit r : in_unit (Math_min (Math_max (Fin r) (Fin 0)) (Fin 1)).
Proof. apply clamp_between; [discriminate|lra]. Qed.

Lemma INR_pos_nonzero n : (1 <= n)%nat -> INR n <> 0.
Proof. intros H. apply not_0_INR. lia. Qed.

(** C3, as the code has it.  On a non-empty rectangular grid of reals, for
    real positions, any real iteration and attack strength, a positive
    defense strength and a uniform source that never returns [0],
    [calculateDynamicLoss] returns and both losses are reals of [[0,1]]. *)
Theorem calculateDynamicLoss_in_unit
    (g : grid) (rows cols : nat) (defender adversary : position)
    (it d a : R) (w : world) :
  shape rows cols g -> (1 <= rows)%nat -> (1 <= cols)%nat ->
  all_cells finite g ->
  finite_pos defender -> finite_pos adversary ->
  0 < d -> zero_free w ->
  exists l w',
    calculateDynamicLoss g defender adversary (Fin it) (Fin d) (Fin a) w
    = Returns l w' /\
    in_unit (defenderLoss l) /\ in_unit (adversaryLoss l).
Proof.
  intros Hs Hr Hc Hfin [Hdx Hdy] [Hax Hay] Hd Hz.
  destruct defender as [dx dy], adversary as [ax ay]. simpl in *.
  apply finite_inv in Hdx, Hdy, Hax, Hay.
  destruct Hdx as [xd ->], Hdy as [yd ->], Hax as [xa ->], Hay as [ya ->].
  apply run_ok_returns. unfold calculateDynamicLoss.
  eapply run_ok_step; [eapply row0_length_ok; eassumption|].
  intros ncols w0 [-> ->]. cbv beta zeta. cbn [pos_x pos_y].
  replace (length g) with rows by (symmetry; apply Hs).
  rewrite !of_nat_minus.
  destruct (clamped_floor yd 0 (Z.of_nat rows - 1)) as (zr & Hzr & ->); [lia|].
  destruct (clamped_floor xd 0 (Z.of_nat cols - 1)) as (zc & Hzc & ->); [lia|].
  destruct (clamped_floor ya 0 (Z.of_nat rows - 1)) as (zr' & Hzr' & ->); [lia|].
  destruct (clamped_floor xa 0 (Z.of_nat cols - 1)) as (zc' & Hzc' & ->); [lia|].
  eapply run_ok_step.
  { eapply read2_num_inside with (P := finite); try eassumption; lia. }
  intros baseLoss w1 [Hb ->]. apply finite_inv in Hb. destruct Hb as [b ->].
  eapply run_ok_step; [apply boxMullerTransform_finite; assumption|].
  intros z1 w1 [Hz1 Hw1]. apply finite_inv in Hz1. destruct Hz1 as [n1 ->].
  eapply run_ok_step.
  { eapply read2_num_inside with (P := finite); try eassumption; lia. }
  intros advCell w2 [Hc2 ->]. apply finite_inv in Hc2. destruct Hc2 as [c ->].
  eapply run_ok_step.
  { apply boxMullerTransform_finite.
    eapply zero_free_only_draws; eassumption. }
  intros z2 w2 [Hz2 Hw2]. apply finite_inv in Hz2. destruct Hz2 as [n2 ->].
  unfold of_nat. fin_arith.
  rewrite !(ndiv_fin _ (INR _)) by now apply INR_pos_nonzero.
  rewrite hypot_fin.
  rewrite !ndiv_fin by lra. fin_arith. rewrite !Math_max_fin. fin_arith.
  rewrite strengthAdvantage_fin by lra.
  match goal with
  | |- context [applyAdvantage (Fin ?i) (Fin ?r) (Fin ?v) (Fin ?p) (Fin ?q)] =>
      destruct (applyAdvantage_finite i r v p q) as (D & A & ->)
  end.
  apply run_ok_ret. simpl defenderLoss. simpl adversaryLoss.
  split; apply clamp_unit.
Qed.

Lemma calculateDynamicLoss_in_unit_witness :
  exists l w',
    calculateDynamicLoss (flat_grid 20 20 0.5)
      (mkPos (Fin 5) (Fin 14)) (mkPos (Fin 14) (Fin 5))
      (Fin 0) (Fin 5) (Fin 5) scenario_world
    = Returns l w' /\
    in_unit (defenderLoss l) /\ in_unit (adversaryLoss l).
Proof.
  apply (calculateDynamicLoss_in_unit _ 20 20); try lia; try lra.
  - apply flat_grid_shape.
  - apply flat_grid_cells. exact I.
  - split; exact I.
  - split; exact I.
  - apply zero_free_half.
Defined.

(** C3, as stated, fails.  The function checks neither position.  With a
    defender whose [x] is [NaN] (what a step on a board of two columns
    returns) the column index is [NaN], the cell read there is
    [undefined], and both losses come back [NaN]: [Math.max] and
    [Math.min] keep it.  The uniform source of this run never returns
    [0]. *)
Lemma calculateDynamicLoss_nan_position :
  zero_free scenario_world /\
  exists w',
    calculateDynamicLoss (flat_grid 20 20 0.5)
      (mkPos NaN (Fin 14)) (mkPos (Fin 14) (Fin 5))
      (Fin 0) (Fin 5) (Fin 5) scenario_world
    = Returns (mkLosses NaN NaN) w' /\
    ~ in_unit NaN.
Proof.
  split; [apply zero_free_half|].
  assert (Hs := flat_grid_shape 20 20 0.5).
  assert (Hrun : run_ok
            (calculateDynamicLoss (flat_grid 20 20 0.5)
               (mkPos NaN (Fin 14)) (mkPos (Fin 14) (Fin 5))
               (Fin 0) (Fin 5) (Fin 5)) scenario_world
            (fun l _ => l = mkLosses NaN NaN)).
  { unfold calculateDynamicLoss.
    eapply run_ok_step; [eapply row0_length_ok; [exact Hs|lia]|].
    intros ncols w0 [-> ->]. cbv beta zeta. cbn [pos_x pos_y].
    replace (length (flat_grid 20 20 0.5)) with 20%nat by (symmetry; apply Hs).
    rewrite !of_nat_minus.
    destruct (clamped_floor 14 0 (Z.of_nat 20 - 1)) as (zr & Hzr & ->); [lia|].
    destruct (clamped_floor 5 0 (Z.of_nat 20 - 1)) as (zr' & Hzr' & ->); [lia|].
    replace (Math_min (Math_max (Math_floor NaN) (Fin 0))
                      (Fin (IZR (Z.of_nat 20 - 1)))) with NaN by reflexivity.
    eapply run_ok_step; [apply (read2_num_no_column 20 20); [exact Hs|lia]|].
    intros baseLoss w1 [-> ->].
    eapply run_ok_step; [apply boxMullerTransform_returns|].
    intros z1 w1 _.
    eapply run_ok_step.
    { eapply read2_num_inside with (P := finite);
        [exact Hs|apply flat_grid_cells; exact I|lia|lia]. }
    intros advCell w2 [_ ->].
    eapply run_ok_step; [apply boxMullerTransform_returns|].
    intros z2 w2 _.
    assert (Hratio : (strengthRatio (Fin 5) (Fin 5) >? Fin 1)%js = false).
    { rewrite strengthRatio_fin by lra. apply ngt_fin_false. lra. }
    unfold applyAdvantage. rewrite Hratio.
    cbn [nmul nadd]. rewrite nadd_NaN_r. cbn [nmul nadd].
    apply run_ok_ret. reflexivity. }
  destruct (run_ok_returns _ _ _ Hrun) as (l & w' & Hr & ->).
  exists w'. split; [exact Hr|]. intros H. exact H.
Qed.

(* ================================================================= *)
(** ** The advantage on a negative loss *)

Lemma sin_39_PI2 : sin (195 * PI / 10) = -1.
Proof.
  replace (195 * PI / 10) with (3 * (PI / 2) + 2 * INR 9 * PI)
    by (simpl; lra).
  rewrite sin_period. apply sin_3PI2.
Qed.

Lemma sin_13_PI2 : sin (195 * PI / 30) = 1.
Proof.
  replace (195 * PI / 30) with (PI / 2 + 2 * INR 3 * PI) by (simpl; lra).
  rewrite sin_period. apply sin_PI2.
Qed.

Lemma PI_gt_3 : 3 < PI.
Proof. assert (H := PI2_3_2). lra. Qed.

(** The sample drawn from [1/2] and [1/4] (or from any [u1] of [(0,1)]
    and [1/4]) is [0]. *)
Lemma boxMullerTransform_quarter w :
  entropy w (S (drawn w)) = 1 / 4 -> 0 < entropy w (drawn w) < 1 ->
  boxMullerTransform w
  = Returns (Fin 0) (mkWorld (entropy w) (S (S (drawn w))) (store w)).
Proof.
  intros H2 H1. unfold boxMullerTransform, bind, Math_random, ret.
  cbn [entropy drawn store]. rewrite H2.
  rewrite Math_log_fin by lra. unfold Math_PI. fin_arith.
  assert (Hln : ln (entropy w (drawn w)) < 0).
  { rewrite <- ln_1. apply ln_increasing; lra. }
  rewrite Math_sqrt_fin by lra. fin_arith.
  replace (2.0 * PI * (1 / 4)) with (PI / 2) by lra. rewrite cos_PI2.
  now rewrite Rmult_0_r.
Qed.

(** The agents of the scenario are further apart than the range of the
    adversarial influence. *)
Lemma far_apart : 0.3 <= sqrt ((5 - 14) / 20 * ((5 - 14) / 20)
                               + (14 - 5) / 20 * ((14 - 5) / 20)).
Proof.
  replace 0.3 with (sqrt (0.3 * 0.3)) at 1 by (apply sqrt_square; lra).
  apply sqrt_le_1_alt. lra.
Qed.

(** The losses of the scenario on a flat grid of [0], with noise samples
    [0] and [defenseStrength = 1 < attackStrength]: the base loss and the
    influence are [0], and both losses before the adjustment are the
    oscillation times the learning factor. *)
Lemma calculateDynamicLoss_far_apart it a :
  1 < a ->
  calculateDynamicLoss (flat_grid 20 20 0)
    (mkPos (Fin 5) (Fin 14)) (mkPos (Fin 14) (Fin 5))
    (Fin it) (Fin 1) (Fin a) quarter_world
  = Returns
      (let before := 0.1 * sin (it / 10) * Rmax 0.1 (1 - it / 500) in
       let advantage := (a - 1) * 0.15 in
       mkLosses
         (Fin (Rmin (Rmax
                 (if Rlt_dec 50 it
                  then Rmin (Rmin (before * (1 + advantage)) 1
                             + Rmin 0.3 ((it - 50) / 500) * sin (it / 30)) 1
                  else Rmin (before * (1 + advantage)) 1) 0) 1))
         (Fin (Rmin (Rmax (Rmax (before * (1 - advantage)) 0) 0) 1)))
      (mkWorld (entropy quarter_world) 4 []).
Proof.
  intros Ha. assert (Hs := flat_grid_shape 20 20 0).
  unfold calculateDynamicLoss. unfold bind at 1.
  rewrite (row0_length_shape 20 20 _ Hs) by lia. cbv beta zeta.
  cbn [pos_x pos_y].
  replace (length (flat_grid 20 20 0)) with 20%nat by (symmetry; apply Hs).
  rewrite !of_nat_minus.
  destruct (clamped_floor 14 0 (Z.of_nat 20 - 1)) as (zr & Hzr & ->); [lia|].
  destruct (clamped_floor 5 0 (Z.of_nat 20 - 1)) as (zc & Hzc & ->); [lia|].
  unfold bind at 1. rewrite (read2_num_eq 20 20) by (assumption || lia).
  rewrite peek_flat_grid by lia.
  unfold bind at 1. rewrite boxMullerTransform_quarter;
    [|reflexivity|simpl; lra].
  unfold bind at 1. rewrite (read2_num_eq 20 20) by (assumption || lia).
  rewrite peek_flat_grid by lia.
  unfold bind at 1. rewrite boxMullerTransform_quarter;
    [|reflexivity|simpl; lra].
  cbn [entropy drawn store quarter_world].
  unfold of_nat. fin_arith.
  rewrite !(ndiv_fin _ (INR _)) by (apply not_0_INR; lia).
  rewrite hypot_fin.
  rewrite !ndiv_fin by lra. fin_arith. rewrite !Math_max_fin. fin_arith.
  replace (INR 20) with 20 by (simpl; lra).
  replace (5 + - (14)) with (5 - 14) by lra.
  replace (14 + - (5)) with (14 - 5) by lra.
  rewrite (Rmax_left 0) by (assert (H := far_apart); lra).
  replace (1.0 + - (it / 500)) with (1 - it / 500) by lra.
  replace (0 * 0.7 + 0 * 0.2 + 0.1 * sin (it / 10) + 0 * 0.03)
    with (0.1 * sin (it / 10)) by lra.
  replace (0 * 0.3 + 0 * 0.4 + 0 * 0.2 + 0.1 * sin (it / 10) + 0 * 0.05)
    with (0.1 * sin (it / 10)) by lra.
  rewrite <- (strengthRatio_fin a 1) by lra.
  rewrite applyAdvantage_fin by lra.
  rewrite !Math_max_fin, !Math_min_fin. unfold ret. cbv zeta.
  rewrite (Rmax_right 0 (a / 1 - 1)) by lra.
  replace (a / 1 - 1) with (a - 1) by lra.
  destruct (Rlt_dec 50 it); reflexivity.
Qed.

Lemma sin_45_10 : sin (45 / 10) < 0.
Proof.
  assert (H3 := PI_gt_3). assert (H4 := PI_4).
  apply sin_lt_0; lra.
Qed.

(** C8.  [calculateDynamicLoss] multiplies the defender's loss by
    [1 + advantage] and the adversary's by [1 - advantage] whatever their
    sign (lines 405-407).  On a flat grid of [0] with the agents far apart,
    [defenseStrength = 1] and noise samples [0], both losses before the
    adjustment are the oscillation times the learning factor.  At
    iteration [195 * PI] that is [-0.01], and raising [attackStrength]
    from [2] to [10] lowers the defender's loss from [0.2885] to [0.2765]
    and raises the adversary's from [0] to [0.0035].  At iteration [45] it
    is negative too, and the same change raises the adversary's loss from
    [0] to a positive number. *)
Theorem calculateDynamicLoss_advantage_reversed :
  zero_free quarter_world /\
  (exists w',
      calculateDynamicLoss (flat_grid 20 20 0)
        (mkPos (Fin 5) (Fin 14)) (mkPos (Fin 14) (Fin 5))
        (Fin (195 * PI)) (Fin 1) (Fin 2) quarter_world
      = Returns (mkLosses (Fin 0.2885) (Fin 0)) w' /\
      calculateDynamicLoss (flat_grid 20 20 0)
        (mkPos (Fin 5) (Fin 14)) (mkPos (Fin 14) (Fin 5))
        (Fin (195 * PI)) (Fin 1) (Fin 10) quarter_world
      = Returns (mkLosses (Fin 0.2765) (Fin 0.0035)) w') /\
  (exists w' A,
      calculateDynamicLoss (flat_grid 20 20 0)
        (mkPos (Fin 5) (Fin 14)) (mkPos (Fin 14) (Fin 5))
        (Fin 45) (Fin 1) (Fin 2) quarter_world
      = Returns (mkLosses (Fin 0) (Fin 0)) w' /\
      calculateDynamicLoss (flat_grid 20 20 0)
        (mkPos (Fin 5) (Fin 14)) (mkPos (Fin 14) (Fin 5))
        (Fin 45) (Fin 1) (Fin 10) quarter_world
      = Returns (mkLosses (Fin 0) (Fin A)) w' /\
      0 < A).
Proof.
  assert (Hpi := PI_gt_3). assert (Hpi4 := PI_4).
  split; [|split].
  - intros n. simpl. destruct (Nat.even n); lra.
  - exists (mkWorld (entropy quarter_world) 4 []).
    rewrite !calculateDynamicLoss_far_apart by lra. cbv zeta.
    destruct (Rlt_dec 50 (195 * PI)) as [_|H]; [|lra].
    rewrite sin_39_PI2, sin_13_PI2.
    split; do 3 f_equal; minmax; lra.
  - exists (mkWorld (entropy quarter_world) 4 []),
      (0.1 * sin (45 / 10) * 0.91 * (1 - (10 - 1) * 0.15)).
    rewrite !calculateDynamicLoss_far_apart by lra. cbv zeta.
    destruct (Rlt_dec 50 45) as [H|_]; [lra|].
    assert (Hsin := sin_45_10). assert (Hlow := SIN_bound (45 / 10)).
    replace (Rmax 0.1 (1 - 45 / 500)) with 0.91
      by (rewrite Rmax_right; lra).
    split; [|split].
    + do 3 f_equal; minmax; lra.
    + do 3 f_equal; minmax; lra.
    + nra.
Qed.

(* ================================================================= *)
(** ** The smoothing pass *)

Lemma exp_nonpos_le_1 x : x <= 0 -> 0 < exp x <= 1.
Proof.
  intros H. split; [apply exp_pos|].
  destruct H as [H | ->]; [|rewrite exp_0; lra].
  left. rewrite <- exp_0. now apply exp_increasing.
Qed.

Lemma gibbsUpdate_fin u d l r c :
  gibbsUpdate (Fin u) (Fin d) (Fin l) (Fin r) (Fin c)
  = Fin (exp (- Rabs (c - (u + d + l + r) / 4) / 0.2) * ((u + d + l + r) / 4)
         + (1 - exp (- Rabs (c - (u + d + l + r) / 4) / 0.2)) * c).
Proof.
  unfold gibbsUpdate. fin_arith. rewrite ndiv_fin by lra. fin_arith.
  rewrite ndiv_fin by lra. fin_arith. f_equal.
  replace (c + - ((u + d + l + r) / 4.0)) with (c - (u + d + l + r) / 4) by lra.
  replace ((u + d + l + r) / 4.0) with ((u + d + l + r) / 4) by lra.
  lra.
Qed.

(** The update is a convex combination of the cell and the mean of its
    neighbours, with a weight in [(0,1]]. *)
Lemma gibbsUpdate_unit u d l r c :
  in_unit u -> in_unit d -> in_unit l -> in_unit r -> in_unit c ->
  in_unit (gibbsUpdate u d l r c).
Proof.
  intros Hu Hd Hl Hr Hc.
  apply between_inv in Hu, Hd, Hl, Hr, Hc.
  destruct Hu as (u' & -> & Hu), Hd as (d' & -> & Hd), Hl as (l' & -> & Hl),
           Hr as (r' & -> & Hr), Hc as (c' & -> & Hc).
  rewrite gibbsUpdate_fin. simpl.
  set (avg := (u' + d' + l' + r') / 4).
  assert (Havg : 0 <= avg <= 1) by (unfold avg; lra).
  assert (Hw := exp_nonpos_le_1 (- Rabs (c' - avg) / 0.2)).
  set (wt := exp (- Rabs (c' - avg) / 0.2)) in *.
  assert (Hw' : 0 < wt <= 1).
  { apply Hw. assert (H := Rabs_pos (c' - avg)). lra. }
  nra.
Qed.

Lemma json_copy_finite g : all_cells finite g -> json_copy g = g.
Proof.
  unfold all_cells, json_copy. intros H.
  induction H as [|row g Hrow Hg IH]; simpl; [reflexivity|]. f_equal; [|exact IH].
  induction Hrow as [|x row Hx Hrow IHrow]; simpl; [reflexivity|].
  f_equal; [|exact IHrow]. destruct x; simpl in Hx; try contradiction.
  reflexivity.
Qed.

(** One turn of the inner loop: the cell is replaced by its update, computed
    from the grid as it stands; no other cell changes. *)
Lemma smoothCell_ok rows cols sg i j w :
  shape rows cols sg -> interior rows cols i j ->
  run_ok (smoothCell i j sg) w
    (fun sg' w' =>
       w' = w /\ shape rows cols sg' /\
       peek sg' i j
       = gibbsUpdate (peek sg (i - 1) j) (peek sg (i + 1) j)
                     (peek sg i (j - 1)) (peek sg i (j + 1)) (peek sg i j) /\
       (forall i' j', (i' < rows)%nat -> (j' < cols)%nat ->
                      i' <> i \/ j' <> j -> peek sg' i' j' = peek sg i' j') /\
       (forall P : number -> Prop,
           all_cells P sg ->
           P (gibbsUpdate (peek sg (i - 1) j) (peek sg (i + 1) j)
                          (peek sg i (j - 1)) (peek sg i (j + 1))
                          (peek sg i j)) ->
           all_cells P sg')).
Proof.
  intros Hs (Hi1 & Hi2 & Hj1 & Hj2). unfold smoothCell.
  eapply run_ok_step; [apply (read2_peek rows cols); try assumption; lia|].
  intros up w1 [-> ->].
  eapply run_ok_step; [apply (read2_peek rows cols); try assumption; lia|].
  intros down w1 [-> ->].
  eapply run_ok_step; [apply (read2_peek rows cols); try assumption; lia|].
  intros left w1 [-> ->].
  eapply run_ok_step; [apply (read2_peek rows cols); try assumption; lia|].
  intros right w1 [-> ->].
  eapply run_ok_step; [apply (read2_peek rows cols); try assumption; lia|].
  intros c w1 [-> ->].
  eapply run_ok_weaken; [apply (write2_inside rows cols); try assumption; lia|].
  intros sg' w' (-> & Hs' & Hc & Ho & HP).
  split; [reflexivity|]. split; [assumption|]. split; [|split].
  - rewrite (cell_peek rows cols) in Hc by (try assumption; lia). congruence.
  - intros i' j' Hi' Hj' Hne. specialize (Ho i' j' Hne).
    rewrite (cell_peek rows cols sg'), (cell_peek rows cols sg) in Ho
      by assumption.
    congruence.
  - exact HP.
Qed.

Lemma json_copy_shape rows cols g :
  shape rows cols g -> shape rows cols (json_copy g).
Proof.
  intros [Hr Hc]. unfold json_copy. split; [now rewrite length_map|].
  rewrite Forall_map. eapply Forall_impl; [|exact Hc].
  intros row H. now rewrite length_map.
Qed.

Lemma json_copy_unit g :
  all_cells (fun v => in_unit (json_number v)) g ->
  all_cells in_unit (json_copy g).
Proof.
  unfold all_cells, json_copy. intros H. rewrite Forall_map.
  eapply Forall_impl; [|exact H]. intros row Hrow. rewrite Forall_map.
  exact Hrow.
Qed.

(** The pass returns a grid of reals of [[0,1]] when the cells of its
    argument are such reals (or are copied as such), whatever its size and
    the number of iterations. *)
Lemma gibbsUpdate_finite u d l r c :
  finite u -> finite d -> finite l -> finite r -> finite c ->
  finite (gibbsUpdate u d l r c).
Proof.
  destruct u, d, l, r, c; simpl; try contradiction. intros _ _ _ _ _.
  now rewrite gibbsUpdate_fin.
Qed.

(** Any number of passes keeps the shape of the grid and every property of
    its cells that the update of a cell keeps; the world is unchanged. *)
Lemma gibbsSmoothingPass_invariant (P : number -> Prop)
      rows cols g iterations w :
  (forall u d l r c,
      P u -> P d -> P l -> P r -> P c -> P (gibbsUpdate u d l r c)) ->
  shape rows cols g -> (1 <= rows)%nat ->
  all_cells P (json_copy g) ->
  run_ok (gibbsSmoothingPass g iterations) w
         (fun g' w' => w' = w /\ shape rows cols g' /\ all_cells P g').
Proof.
  intros HP Hs Hr Hu. unfold gibbsSmoothingPass.
  eapply run_ok_step; [eapply row0_length_ok; eassumption|].
  intros ncols w0 [-> ->]. cbv beta zeta.
  replace (length g) with rows by (symmetry; apply Hs).
  apply (for_each_invariant
           (fun sg w' => w' = w /\ shape rows cols sg /\ all_cells P sg));
    [|split; [reflexivity|split; [now apply json_copy_shape|assumption]]].
  intros _ sg0 w0 _ H0.
  apply (for_each_invariant
           (fun sg w' => w' = w /\ shape rows cols sg /\ all_cells P sg));
    [|exact H0].
  intros i sg1 w1 Hi H1.
  apply (for_each_invariant
           (fun sg w' => w' = w /\ shape rows cols sg /\ all_cells P sg));
    [|exact H1].
  intros j sg2 w2 Hj (-> & Hs2 & Hu2).
  apply in_seq in Hi, Hj.
  assert (Hint : interior rows cols i j) by (unfold interior; lia).
  eapply run_ok_weaken; [apply (smoothCell_ok rows cols); assumption|].
  intros sg' w' (-> & Hs' & _ & _ & HP').
  split; [reflexivity|]. split; [assumption|].
  apply HP'; [assumption|].
  destruct Hint as (? & ? & ? & ?).
  apply HP; apply (peek_inside rows cols) with (P := P);
    try assumption; lia.
Qed.

Lemma gibbsSmoothingPass_unit rows cols g iterations w :
  shape rows cols g -> (1 <= rows)%nat ->
  all_cells (fun v => in_unit (json_number v)) g ->
  run_ok (gibbsSmoothingPass g iterations) w
         (fun g' w' => w' = w /\ shape rows cols g' /\ all_cells in_unit g').
Proof.
  intros Hs Hr Hu.
  apply gibbsSmoothingPass_invariant;
    [apply gibbsUpdate_unit|assumption|assumption|now apply json_copy_unit].
Qed.

(* ================================================================= *)
(** ** Landscape synthesis *)

Ltac nonzero := first [assumption | lra].

Ltac to_fin := repeat (fin_arith; try rewrite ndiv_fin by nonzero).

Lemma gaussianValue_finite c r i j :
  c * c + r * r <> 0 -> finite (gaussianValue (Fin c) (Fin r) i j).
Proof.
  intros H. unfold gaussianValue, peaks, of_nat.
  cbn [fold_left peak_x peak_y peak_height peak_spread].
  to_fin. exact I.
Qed.

Lemma saddleValue_finite c r i j :
  c <> 0 -> r <> 0 -> finite (saddleValue (Fin c) (Fin r) i j).
Proof.
  intros Hc Hr. unfold saddleValue, saddlePoints, of_nat.
  cbn [fold_left saddle_x saddle_y saddle_strength saddle_spreadX
       saddle_spreadY].
  to_fin. exact I.
Qed.

Lemma new_Array_ok z w :
  (0 <= z < 4294967296)%Z ->
  new_Array (Fin (IZR z)) w = Returns (repeat NaN (Z.to_nat z)) w.
Proof.
  intros [H0 H1]. unfold new_Array, array_length.
  rewrite index_of_IZR by assumption.
  destruct (Rlt_dec (IZR z) 4294967296) as [L|L]; [reflexivity|].
  exfalso. apply L. now apply IZR_lt.
Qed.

Lemma trip_count_IZR z : trip_count (Fin (IZR z)) = Z.to_nat z.
Proof. unfold trip_count. now rewrite ZfloorNZ, Z.opp_involutive. Qed.

(** The rows of the grid are allocated one after the other. *)
Lemma allocate_rows zc n w :
  (0 <= zc < 4294967296)%Z ->
  run_ok (for_each (seq 0 n)
            (fun _ g => row <- new_Array (Fin (IZR zc)) ;; ret (g ++ [row])) [])
         w (fun g w' => w' = w /\ shape n (Z.to_nat zc) g).
Proof.
  intros Hc.
  pose proof (for_each_indexed (seq 0 n)
    (fun (_ : nat) (g : grid) =>
       row <- new_Array (Fin (IZR zc)) ;; ret (g ++ [row]))
    (fun k g w' => w' = w /\ shape k (Z.to_nat zc) g)) as H.
  rewrite length_seq in H. apply H.
  - intros k a g w0 _ (-> & Hl & Hf). unfold run_ok, bind.
    rewrite new_Array_ok by assumption. simpl. split; [reflexivity|]. split.
    + rewrite length_app. simpl. lia.
    + apply Forall_app. split; [assumption|].
      constructor; [apply repeat_length|constructor].
  - split; [reflexivity|]. split; [reflexivity|constructor].
Qed.

(** Whatever a cell value is, its clamp is a real of [[0,1]] or [NaN], and
    [NaN] is copied as [0]. *)
Lemma clamp_json_unit x :
  in_unit (json_number (Math_min (Math_max x (Fin 0)) (Fin 1))).
Proof.
  destruct x as [r| | |].
  - rewrite Math_max_fin, Math_min_fin. simpl.
    unfold Rmin, Rmax. decide_reals.
  - unfold Math_max, Math_min, nlt. decide_reals; simpl; lra.
  - unfold Math_max, Math_min, nlt. decide_reals; simpl; lra.
  - simpl. lra.
Qed.

(** One cell is filled, lines 38-72, and no other cell changes: the value is
    a real of [[0,1]], or [NaN] when the noise is not a number. *)
Lemma fill_cell rows cols (zc zr : Z) g i j w :
  (1 <= zc)%Z -> (1 <= zr)%Z ->
  shape rows cols g -> (i < rows)%nat -> (j < cols)%nat ->
  run_ok (fillCell (Fin (IZR zc)) (Fin (IZR zr)) i j g)
    w
    (fun g' w' =>
       only_draws w w' /\ shape rows cols g' /\
       (forall i' j', i' <> i \/ j' <> j -> cell g' i' j' = cell g i' j') /\
       exists v, cell g' i j = Some v /\ in_unit (json_number v)).
Proof.
  intros Hzc Hzr Hs Hi Hj.
  assert (Hc1 : 1 <= IZR zc) by now apply IZR_le.
  assert (Hr1 : 1 <= IZR zr) by now apply IZR_le.
  assert (Hg : finite (gaussianValue (Fin (IZR zc)) (Fin (IZR zr)) i j)).
  { apply gaussianValue_finite. nra. }
  assert (Hsd : finite (saddleValue (Fin (IZR zc)) (Fin (IZR zr)) i j)).
  { apply saddleValue_finite; lra. }
  unfold fillCell. cbv zeta.
  apply finite_inv in Hg, Hsd. destruct Hg as [gv ->], Hsd as [sv ->].
  unfold run_ok, bind.
  destruct (boxMullerTransform w) as [z w1|e] eqn:Ez.
  2:{ pose proof (boxMullerTransform_returns w) as H. unfold run_ok in H.
      now rewrite Ez in H. }
  assert (Hw1 : only_draws w w1).
  { pose proof (boxMullerTransform_returns w) as H. unfold run_ok in H.
    now rewrite Ez in H. }
  cbn [Math_random].
  pose proof (write2_inside rows cols g Hs i j
    (Math_min
       (Math_max
          (Fin gv + Fin sv * Fin 0.2 + z * Fin 0.08
           + Fin (entropy w1 (drawn w1)) * Fin 0.02)%js (Fin 0)) (Fin 1))
    (mkWorld (entropy w1) (S (drawn w1)) (store w1)) Hi Hj) as Hw.
  unfold run_ok in Hw.
  destruct (write2 g i j _ _) as [g' w'|e]; [|contradiction].
  destruct Hw as (-> & Hs' & Hc & Ho & _).
  split; [|split; [assumption|split; [assumption|]]].
  - destruct Hw1 as [He Hst]. split; simpl; assumption.
  - eexists. split; [exact Hc|]. apply clamp_json_unit.
Qed.

(** The two filling loops, lines 36-74. *)
Lemma fill_cells (zc zr : Z) n c g w :
  (1 <= zr)%Z -> c = Z.to_nat zc -> shape n c g ->
  run_ok (for_each (seq 0 n) (fun i g =>
            for_each (seq 0 c) (fun j g =>
              fillCell (Fin (IZR zc)) (Fin (IZR zr)) i j g) g) g)
         w
         (fun g' w' =>
            only_draws w w' /\ shape n c g' /\
            all_cells (fun v => in_unit (json_number v)) g').
Proof.
  intros Hzr Hc Hs.
  eapply run_ok_weaken.
  - apply (for_each_cells
      (fun i j g' w' =>
         only_draws w w' /\ shape n c g' /\
         forall i' j', (i' < n)%nat -> (j' < c)%nat -> before i j i' j' ->
           exists v, cell g' i' j' = Some v /\ in_unit (json_number v))
      0 0 n c (fun i j g => fillCell (Fin (IZR zc)) (Fin (IZR zr)) i j g)).
    + intros i g0 w0 Hi (Hw & Hs0 & Hd). split; [assumption|].
      split; [assumption|]. intros i' j' Hi' Hj' Hb. apply Hd; try assumption.
      unfold before in *. lia.
    + intros i j g0 w0 Hi Hj (Hw & Hs0 & Hd). simpl Nat.add.
      eapply run_ok_weaken.
      * apply (fill_cell n c); try assumption. lia.
      * intros g1 w1 (Hw1 & Hs1 & Ho & v & Hv & Hu).
        split; [eapply only_draws_trans; eassumption|].
        split; [assumption|]. intros i' j' Hi' Hj' Hb.
        destruct (Nat.eq_dec i' i) as [->|Hne];
          [destruct (Nat.eq_dec j' j) as [->|Hne]|].
        -- exists v. now split.
        -- rewrite Ho by now right. apply Hd; try assumption.
           unfold before in *. lia.
        -- rewrite Ho by now left. apply Hd; try assumption.
           unfold before in *. lia.
    + split; [apply only_draws_refl|]. split; [assumption|].
      intros i' j' _ _ Hb. unfold before in Hb. lia.
  - intros g' w' (Hw & Hs' & Hd). split; [assumption|]. split; [assumption|].
    apply (all_cells_of_cell n c); [assumption|].
    intros i j v Hi Hj Hv.
    destruct (Hd i j Hi Hj) as (v' & Hv' & Hu); [unfold before; lia|].
    assert (v = v') by congruence. subst v'. exact Hu.
Qed.

(** Up to the smoothing pass, [generateLossLandscape] builds a grid of
    [rows] by [cols] cells. *)
Lemma generateLossLandscape_via_smoothing
      (width height resolution : R) (zc zr : Z) w
      (Q : grid -> world -> Prop) :
  resolution <> 0 ->
  Zfloor (width / resolution) = zc -> Zfloor (height / resolution) = zr ->
  (0 <= zc < 4294967296)%Z -> (1 <= zr < 4294967296)%Z ->
  (forall g w',
      only_draws w w' -> shape (Z.to_nat zr) (Z.to_nat zc) g ->
      all_cells (fun v => in_unit (json_number v)) g ->
      run_ok (gibbsSmoothingPass g 1) w' Q) ->
  run_ok (generateLossLandscape (Fin width) (Fin height) (Fin resolution)) w Q.
Proof.
  intros Hres Hzc Hzr Hc Hr Hk. unfold generateLossLandscape.
  rewrite !ndiv_fin by assumption. cbn [Math_floor]. rewrite Hzc, Hzr.
  cbv zeta. unfold run_ok at 1, bind at 1.
  rewrite new_Array_ok by lia. rewrite repeat_length.
  eapply run_ok_step; [apply allocate_rows; assumption|].
  intros g0 w0 [-> Hs0]. rewrite !trip_count_IZR.
  eapply run_ok_step; [apply (fill_cells zc zr); try eassumption; lia|].
  intros g1 w1 (Hw1 & Hs1 & Hu). now apply Hk.
Qed.

(** C1.  For valid dimensions ([cols >= 3] and [rows >= 3], both array
    lengths) and whatever the uniform source returns,
    [generateLossLandscape] returns a grid of [rows] by [cols] cells, every
    one of them a real of [[0,1]]: each cell is clamped when it is filled,
    and the smoothing pass keeps the cells in [[0,1]]. *)
Theorem generateLossLandscape_in_unit
    (width height resolution : R) (w : world) :
  0 < resolution ->
  (3 <= Zfloor (width / resolution) < 4294967296)%Z ->
  (3 <= Zfloor (height / resolution) < 4294967296)%Z ->
  exists g w',
    generateLossLandscape (Fin width) (Fin height) (Fin resolution) w
    = Returns g w' /\
    shape (Z.to_nat (Zfloor (height / resolution)))
          (Z.to_nat (Zfloor (width / resolution))) g /\
    all_cells in_unit g.
Proof.
  intros Hres Hc Hr. apply run_ok_returns.
  eapply generateLossLandscape_via_smoothing;
    try reflexivity; try lia; try lra.
  intros g w' Hw' Hs Hu.
  eapply run_ok_weaken.
  - apply (gibbsSmoothingPass_unit _ _ g 1 w' Hs); [lia|exact Hu].
  - intros g' w'' (_ & Hs' & Hu'). now split.
Qed.

Lemma generateLossLandscape_in_unit_witness :
  exists g w',
    generateLossLandscape (Fin 15) (Fin 15) (Fin 5) (half_world [])
    = Returns g w' /\
    shape (Z.to_nat (Zfloor (15 / 5))) (Z.to_nat (Zfloor (15 / 5))) g /\
    all_cells in_unit g.
Proof.
  assert (E : Zfloor (15 / 5) = 3%Z) by (apply Zfloor_ratio; lra).
  apply generateLossLandscape_in_unit; [lra | rewrite E; lia | rewrite E; lia].
Defined.

(* ================================================================= *)
(** ** Dimensions below three *)

Lemma for_each_skip {A S} (l : list A) (body : A -> S -> M S) s w :
  (forall a s w, In a l -> body a s w = Returns s w) ->
  for_each l body s w = Returns s w.
Proof.
  revert s w. induction l as [|a l IH]; intros s w H; simpl; [reflexivity|].
  unfold bind. rewrite H by now left. apply IH. intros b s0 w0 Hb.
  apply H. now right.
Qed.


(** With fewer than three rows or columns there is no interior cell: the
    pass returns the copy of its argument. *)
Lemma gibbsSmoothingPass_small rows cols g w :
  shape rows cols g -> (1 <= rows)%nat -> (rows < 3 \/ cols < 3)%nat ->
  gibbsSmoothingPass g 1 w = Returns (json_copy g) w.
Proof.
  intros Hs Hr Hsmall. unfold gibbsSmoothingPass, bind.
  rewrite (row0_length_shape _ _ _ Hs _ Hr).
  replace (length g) with rows by (symmetry; apply Hs).
  cbn [seq for_each]. unfold bind.
  rewrite for_each_skip; [reflexivity|].
  intros i s w0 Hi. apply in_seq in Hi.
  assert (Hc : (cols - 2 = 0)%nat) by lia. rewrite Hc. reflexivity.
Qed.

(** Without a row, [grid[0].length] throws. *)
Lemma generateLossLandscape_no_row (width height resolution : R) w :
  resolution <> 0 -> Zfloor (height / resolution) = 0%Z ->
  generateLossLandscape (Fin width) (Fin height) (Fin resolution) w
  = Throws TypeError.
Proof.
  intros Hres Hzr. unfold generateLossLandscape.
  rewrite !ndiv_fin by assumption. cbn [Math_floor]. rewrite Hzr.
  cbv zeta. unfold bind at 1. rewrite new_Array_ok by lia.
  rewrite trip_count_IZR. reflexivity.
Qed.

(** With at least one row, a grid is returned whatever its size. *)
Lemma generateLossLandscape_returns (width height resolution : R) w :
  resolution <> 0 ->
  (0 <= Zfloor (width / resolution) < 4294967296)%Z ->
  (1 <= Zfloor (height / resolution) < 4294967296)%Z ->
  (Zfloor (width / resolution) < 3 \/ Zfloor (height / resolution) < 3)%Z ->
  exists g w',
    generateLossLandscape (Fin width) (Fin height) (Fin resolution) w
    = Returns g w' /\
    shape (Z.to_nat (Zfloor (height / resolution)))
          (Z.to_nat (Zfloor (width / resolution))) g.
Proof.
  intros Hres Hc Hr Hsmall. apply run_ok_returns.
  eapply generateLossLandscape_via_smoothing; try reflexivity; try assumption.
  intros g w' _ Hs _. unfold run_ok.
  rewrite (gibbsSmoothingPass_small _ _ _ _ Hs) by lia.
  now apply json_copy_shape.
Qed.

(** C5, as the code has it.  [generateLossLandscape] validates nothing and
    knows no [InvalidDimension] error: with [cols < 3] or [rows < 3] it
    returns a grid of [rows] by [cols] cells as soon as there is one row,
    and throws a [TypeError] when there is none. *)
Theorem generateLossLandscape_small_dimensions
    (width height resolution : R) (w : world) :
  0 < resolution ->
  (0 <= Zfloor (width / resolution) < 4294967296)%Z ->
  (0 <= Zfloor (height / resolution) < 4294967296)%Z ->
  (Zfloor (width / resolution) < 3 \/ Zfloor (height / resolution) < 3)%Z ->
  (Zfloor (height / resolution) = 0%Z ->
   generateLossLandscape (Fin width) (Fin height) (Fin resolution) w
   = Throws TypeError) /\
  ((1 <= Zfloor (height / resolution))%Z ->
   exists g w',
     generateLossLandscape (Fin width) (Fin height) (Fin resolution) w
     = Returns g w' /\
     shape (Z.to_nat (Zfloor (height / resolution)))
           (Z.to_nat (Zfloor (width / resolution))) g).
Proof.
  intros Hres Hc Hr Hsmall. split.
  - intros H0. apply generateLossLandscape_no_row; [lra|assumption].
  - intros H1. apply generateLossLandscape_returns; try assumption; lra || lia.
Qed.

Lemma generateLossLandscape_small_dimensions_witness :
  (Zfloor (10 / 5) = 0%Z ->
   generateLossLandscape (Fin 10) (Fin 10) (Fin 5) (half_world [])
   = Throws TypeError) /\
  ((1 <= Zfloor (10 / 5))%Z ->
   exists g w',
     generateLossLandscape (Fin 10) (Fin 10) (Fin 5) (half_world [])
     = Returns g w' /\
     shape (Z.to_nat (Zfloor (10 / 5))) (Z.to_nat (Zfloor (10 / 5))) g).
Proof.
  assert (E : Zfloor (10 / 5) = 2%Z) by (apply Zfloor_ratio; lra).
  apply generateLossLandscape_small_dimensions;
    [lra | rewrite E; lia | rewrite E; lia | rewrite E; lia].
Defined.

(** C5, as stated, fails: a canvas of 10 by 10 at resolution 5 has two rows
    and two columns, and a grid of two by two cells is returned. *)
Lemma generateLossLandscape_two_by_two :
  Zfloor (10 / 5) = 2%Z /\
  exists g w',
    generateLossLandscape (Fin 10) (Fin 10) (Fin 5) (half_world [])
    = Returns g w' /\ shape 2 2 g.
Proof.
  assert (E : Zfloor (10 / 5) = 2%Z) by (apply Zfloor_ratio; lra).
  split; [exact E|].
  destruct (generateLossLandscape_returns 10 10 5 (half_world []))
    as (g & w' & Hrun & Hs); [lra | rewrite E; lia | rewrite E; lia
                             | rewrite E; lia |].
  rewrite E in Hs. now exists g, w'.
Qed.

(* ================================================================= *)
(** ** What one smoothing pass computes *)

Lemma pass_state_start rows cols g : pass_state rows cols g g 1 1.
Proof.
  intros i' j' _ _. split; [|reflexivity].
  unfold interior, before. lia.
Qed.

Lemma pass_state_next_row rows cols g sg i :
  pass_state rows cols g sg i (1 + (cols - 2)) ->
  pass_state rows cols g sg (S i) 1.
Proof.
  intros H i' j' Hi' Hj'. destruct (H i' j' Hi' Hj') as [H1 H2]. split.
  - intros [Hint Hb]. apply H1. split; [assumption|].
    unfold interior, before in *. lia.
  - intros Hn. apply H2. intros [Hint Hb]. apply Hn. split; [assumption|].
    unfold interior, before in *. lia.
Qed.

Lemma pass_state_step rows cols g sg sg' i j :
  interior rows cols i j ->
  pass_state rows cols g sg i j ->
  peek sg' i j
  = gibbsUpdate (peek sg (i - 1) j) (peek sg (i + 1) j)
                (peek sg i (j - 1)) (peek sg i (j + 1)) (peek sg i j) ->
  (forall i' j', (i' < rows)%nat -> (j' < cols)%nat ->
                 i' <> i \/ j' <> j -> peek sg' i' j' = peek sg i' j') ->
  pass_state rows cols g sg' i (S j).
Proof.
  intros Hint H Hnew Hother i' j' Hi' Hj'.
  assert (Hin := Hint). destruct Hin as (Hi1 & Hi2 & Hj1 & Hj2).
  destruct (Nat.eq_dec i' i) as [Ei|Ei];
    [destruct (Nat.eq_dec j' j) as [Ej|Ej]|].
  - subst i' j'. split.
    + intros _. rewrite Hnew.
      rewrite (Hother (i - 1)%nat j) by lia.
      rewrite (Hother i (j - 1)%nat) by lia.
      destruct (H (i + 1)%nat j) as [_ ->]; [lia|lia| |].
      2:{ unfold before. lia. }
      destruct (H i (j + 1)%nat) as [_ ->]; [lia|lia| |].
      2:{ unfold before. lia. }
      destruct (H i j) as [_ ->]; [lia|lia| |].
      2:{ unfold before. lia. }
      reflexivity.
    + intros Hn. exfalso. apply Hn. split; [assumption|]. unfold before. lia.
  - subst i'. destruct (H i j' Hi' Hj') as [H1 H2].
    rewrite (Hother i j') by (try assumption; now right). split.
    + intros [Hint' Hb].
      assert (Hb' : before i j i j') by (unfold before in *; lia).
      rewrite H1 by now split.
      destruct Hint' as (? & ? & ? & ?).
      rewrite (Hother (i - 1)%nat j') by lia.
      rewrite (Hother i (j' - 1)%nat) by (unfold before in Hb'; lia).
      reflexivity.
    + intros Hn. apply H2. intros [Hint' Hb]. apply Hn.
      split; [assumption|]. unfold before in *. lia.
  - destruct (H i' j' Hi' Hj') as [H1 H2].
    rewrite (Hother i' j') by (try assumption; now left). split.
    + intros [Hint' Hb].
      assert (Hb' : before i j i' j') by (unfold before in *; lia).
      rewrite H1 by now split.
      destruct Hint' as (? & ? & ? & ?).
      rewrite (Hother (i' - 1)%nat j') by (unfold before in Hb'; lia).
      rewrite (Hother i' (j' - 1)%nat) by lia.
      reflexivity.
    + intros Hn. apply H2. intros [Hint' Hb]. apply Hn.
      split; [assumption|]. unfold before in *. lia.
Qed.

Lemma for_each_app {A S} (l1 l2 : list A) (body : A -> S -> M S) s w :
  for_each (l1 ++ l2) body s w
  = (s' <- for_each l1 body s ;; for_each l2 body s') w.
Proof.
  revert s w. induction l1 as [|a l1 IH]; intros s w; simpl.
  - reflexivity.
  - unfold bind. destruct (body a s w) as [s' w'|e]; [|reflexivity].
    rewrite IH. reflexivity.
Qed.

(** One more pass: [n + 1] passes over [g] are one pass over the result of
    [n] passes, which is again a grid of reals of the same shape. *)
Lemma gibbsSmoothingPass_next rows cols g n gn w :
  shape rows cols g -> (1 <= rows)%nat -> all_cells finite g ->
  gibbsSmoothingPass g n w = Returns gn w ->
  shape rows cols gn /\ all_cells finite gn /\
  gibbsSmoothingPass g (S n) w = gibbsSmoothingPass gn 1 w.
Proof.
  intros Hs Hr Hfin Hrun.
  assert (Hn : shape rows cols gn /\ all_cells finite gn).
  { destruct (run_ok_returns _ _ _
                (gibbsSmoothingPass_invariant finite rows cols g n w
                   gibbsUpdate_finite Hs Hr
                   (eq_ind_r (all_cells finite) Hfin (json_copy_finite g Hfin))))
      as (g' & w' & Hrun' & _ & Hs' & Hf').
    rewrite Hrun in Hrun'. injection Hrun' as <- _. now split. }
  destruct Hn as [Hsn Hfn]. split; [assumption|]. split; [assumption|].
  unfold gibbsSmoothingPass in *. unfold bind at 1 in Hrun.
  unfold bind at 1. unfold bind at 1.
  rewrite (row0_length_shape rows cols g Hs w Hr) in *.
  rewrite (row0_length_shape rows cols gn Hsn w Hr).
  cbv beta zeta in *.
  rewrite seq_S, for_each_app. unfold bind at 1. rewrite Hrun.
  rewrite (json_copy_finite gn Hfn).
  replace (length gn) with (length g)
    by (destruct Hs as [-> _], Hsn as [-> _]; reflexivity).
  reflexivity.
Qed.

(** One pass over a grid of reals: the result, cell by cell. *)
Lemma gibbsSmoothingPass_cells rows cols g w :
  shape rows cols g -> (1 <= rows)%nat -> all_cells finite g ->
  run_ok (gibbsSmoothingPass g 1) w
    (fun g' w' =>
       w' = w /\ shape rows cols g' /\
       pass_state rows cols g g' (1 + (rows - 2)) 1).
Proof.
  intros Hs Hr Hfin. unfold gibbsSmoothingPass.
  eapply run_ok_step; [eapply row0_length_ok; eassumption|].
  intros ncols w0 [-> ->]. cbv beta zeta.
  rewrite json_copy_finite by assumption.
  replace (length g) with rows by (symmetry; apply Hs).
  cbn [seq for_each].
  eapply run_ok_step; [|intros g' w' H; apply run_ok_ret; exact H].
  apply (for_each_cells
    (fun i j sg w' =>
       w' = w /\ shape rows cols sg /\
       pass_state rows cols g sg (1 + i) (1 + j))
    1 1 (rows - 2) (cols - 2) (fun i j sg => smoothCell i j sg)).
  - intros i sg w0 Hi (-> & Hs0 & Hp). split; [reflexivity|].
    split; [assumption|]. now apply pass_state_next_row.
  - intros i j sg w0 Hi Hj (-> & Hs0 & Hp).
    assert (Hint : interior rows cols (1 + i) (1 + j))
      by (unfold interior; lia).
    eapply run_ok_weaken; [apply (smoothCell_ok rows cols); assumption|].
    intros sg' w' (-> & Hs' & Hnew & Hother & _).
    split; [reflexivity|]. split; [assumption|].
    now apply (pass_state_step rows cols g sg sg').
  - split; [reflexivity|]. split; [assumption|]. apply pass_state_start.
Qed.

(** C6, as the code has it.  Every pass of [gibbsSmoothingPass] over a grid
    of reals updates the one working copy in place, row by row: with [gn]
    the grid after [n] passes ([g] itself before the first), pass [n + 1]
    computes the new value of an interior cell from the already updated
    cells above and to its left and from the cells of [gn] below and to
    its right; the outermost ring is left as it is, and the world is
    unchanged. *)
Theorem gibbsSmoothingPass_in_place
    (rows cols : nat) (g : grid) (w : world) :
  shape rows cols g -> (1 <= rows)%nat -> all_cells finite g ->
  gibbsSmoothingPass g 0 w = Returns g w /\
  forall n, exists gn g',
    gibbsSmoothingPass g n w = Returns gn w /\
    gibbsSmoothingPass g (S n) w = Returns g' w /\
    shape rows cols g' /\
    forall i j, (i < rows)%nat -> (j < cols)%nat ->
      (interior rows cols i j ->
       peek g' i j
       = gibbsUpdate (peek g' (i - 1) j) (peek gn (i + 1) j)
                     (peek g' i (j - 1)) (peek gn i (j + 1)) (peek gn i j))
      /\
      (~ interior rows cols i j -> peek g' i j = peek gn i j).
Proof.
  intros Hs Hr Hfin. split.
  { unfold gibbsSmoothingPass, bind.
    rewrite (row0_length_shape rows cols g Hs w Hr).
    now rewrite (json_copy_finite g Hfin). }
  intros n.
  destruct (run_ok_returns _ _ _
              (gibbsSmoothingPass_invariant finite rows cols g n w
                 gibbsUpdate_finite Hs Hr
                 (eq_ind_r (all_cells finite) Hfin (json_copy_finite g Hfin))))
    as (gn & w0 & Hn & -> & _ & _).
  destruct (gibbsSmoothingPass_next rows cols g n gn w Hs Hr Hfin Hn)
    as (Hsn & Hfn & Hnext).
  destruct (run_ok_returns _ _ _ (gibbsSmoothingPass_cells _ _ _ w Hsn Hr Hfn))
    as (g' & w' & Hrun & -> & Hs' & Hp).
  exists gn, g'. split; [assumption|]. split; [congruence|].
  split; [assumption|].
  intros i j Hi Hj. destruct (Hp i j Hi Hj) as [H1 H2]. split.
  - intros Hint. apply H1. split; [assumption|].
    unfold interior, before in *. lia.
  - intros Hn'. apply H2. tauto.
Qed.

Lemma gibbsSmoothingPass_in_place_witness :
  gibbsSmoothingPass spike_grid 0 (half_world [])
  = Returns spike_grid (half_world []) /\
  forall n, exists gn g',
    gibbsSmoothingPass spike_grid n (half_world []) = Returns gn (half_world [])
    /\ gibbsSmoothingPass spike_grid (S n) (half_world [])
       = Returns g' (half_world [])
    /\ shape 3 4 g' /\
    forall i j, (i < 3)%nat -> (j < 4)%nat ->
      (interior 3 4 i j ->
       peek g' i j
       = gibbsUpdate (peek g' (i - 1) j) (peek gn (i + 1) j)
                     (peek g' i (j - 1)) (peek gn i (j + 1)) (peek gn i j))
      /\
      (~ interior 3 4 i j -> peek g' i j = peek gn i j).
Proof.
  apply gibbsSmoothingPass_in_place;
    [apply spike_grid_shape | lia | apply spike_grid_finite].
Defined.

(** C6, as stated, fails.  On [spike_grid] the cell [(1,2)] and all its
    neighbours are [0] before the pass, so its value computed from a
    snapshot is [0]; the pass has already raised its left neighbour [(1,1)]
    when it reaches the cell, and returns a positive value there. *)
Lemma gibbsSmoothingPass_reads_updated_cells :
  snapshotValue spike_grid 1 2 = Fin 0 /\
  exists g' v,
    gibbsSmoothingPass spike_grid 1 (half_world []) = Returns g' (half_world [])
    /\ peek g' 1 2 = Fin v /\ 0 < v.
Proof.
  split.
  - unfold snapshotValue. cbn [peek spike_grid nth elem Nat.sub Nat.add].
    rewrite gibbsUpdate_fin. f_equal. lra.
  - destruct (run_ok_returns _ _ _
                (gibbsSmoothingPass_cells 3 4 spike_grid (half_world [])
                   spike_grid_shape one_le_three
                   spike_grid_finite))
      as (g' & w' & Hrun & -> & Hs' & Hp).
    assert (H01 : peek g' 0 1 = Fin 0).
    { destruct (Hp 0%nat 1%nat) as [_ H]; [lia|lia|]. rewrite H; [reflexivity|].
      unfold interior. lia. }
    assert (H02 : peek g' 0 2 = Fin 0).
    { destruct (Hp 0%nat 2%nat) as [_ H]; [lia|lia|]. rewrite H; [reflexivity|].
      unfold interior. lia. }
    assert (H10 : peek g' 1 0 = Fin 1).
    { destruct (Hp 1%nat 0%nat) as [_ H]; [lia|lia|]. rewrite H; [reflexivity|].
      unfold interior. lia. }
    assert (H11 : exists a, peek g' 1 1 = Fin a /\ 0 < a).
    { destruct (Hp 1%nat 1%nat) as [H _]; [lia|lia|]. rewrite H.
      2:{ unfold interior, before. lia. }
      cbn [Nat.sub Nat.add]. rewrite H01, H10.
      cbn [peek spike_grid nth elem]. rewrite gibbsUpdate_fin.
      eexists. split; [reflexivity|].
      assert (He := exp_pos (- Rabs (0 - (0 + 0 + 1 + 0) / 4) / 0.2)). lra. }
    destruct H11 as (a & H11 & Ha).
    exists g'. eexists. split; [exact Hrun|].
    destruct (Hp 1%nat 2%nat) as [H _]; [lia|lia|]. rewrite H.
    2:{ unfold interior, before. lia. }
    cbn [Nat.sub Nat.add]. rewrite H02, H11.
    cbn [peek spike_grid nth elem]. rewrite gibbsUpdate_fin.
    split; [reflexivity|].
    assert (He := exp_pos (- Rabs (0 - (0 + 0 + a + 0) / 4) / 0.2)).
    set (e := exp (- Rabs (0 - (0 + 0 + a + 0) / 4) / 0.2)) in *. nra.
Qed.

(* ================================================================= *)
(** ** The gradient estimator *)

Lemma fin_plus_IZR z k : (Fin (IZR z) + Fin (IZR k))%js = Fin (IZR (z + k)).
Proof. fin_arith. now rewrite plus_IZR. Qed.

Lemma fin_minus_IZR z k : (Fin (IZR z) - Fin (IZR k))%js = Fin (IZR (z - k)).
Proof. fin_arith. rewrite minus_IZR. f_equal. Qed.

(** On a grid of reals with at least three rows and three columns the
    estimator returns; with a uniform source that never returns [0] both
    components are reals. *)
Lemma calculateGradient_ok rows cols g x y nl w :
  shape rows cols g -> (3 <= rows)%nat -> (3 <= cols)%nat ->
  all_cells finite g -> zero_free w ->
  run_ok (calculateGradient g (Fin x) (Fin y) (Fin nl)) w
         (fun gr w' => only_draws w w' /\ gradient_at rows cols g gr /\
                       (nl <= 0 -> w' = w)).
Proof.
  intros Hs Hr Hc Hfin Hz. unfold calculateGradient.
  eapply run_ok_step; [eapply row0_length_ok; try eassumption; lia|].
  intros ncols w0 [-> ->]. cbv beta zeta.
  replace (length g) with rows by (symmetry; apply Hs).
  rewrite !of_nat_minus.
  destruct (clamped_floor y 1 (Z.of_nat rows - 2)) as (zr & Hzr & ->); [lia|].
  destruct (clamped_floor x 1 (Z.of_nat cols - 2)) as (zc & Hzc & ->); [lia|].
  rewrite !fin_plus_IZR, !fin_minus_IZR.
  eapply run_ok_step; [apply (read2_num_peek rows cols); try assumption; lia|].
  intros e w1 [-> ->].
  eapply run_ok_step; [apply (read2_num_peek rows cols); try assumption; lia|].
  intros wv w1 [-> ->].
  eapply run_ok_step; [apply (read2_num_peek rows cols); try assumption; lia|].
  intros s w1 [-> ->].
  eapply run_ok_step; [apply (read2_num_peek rows cols); try assumption; lia|].
  intros n w1 [-> ->].
  set (i := Z.to_nat zr). set (j := Z.to_nat zc).
  replace (Z.to_nat (zc + 1)) with (j + 1)%nat by lia.
  replace (Z.to_nat (zc - 1)) with (j - 1)%nat by lia.
  replace (Z.to_nat (zr + 1)) with (i + 1)%nat by lia.
  replace (Z.to_nat (zr - 1)) with (i - 1)%nat by lia.
  assert (Hint : interior rows cols i j) by (unfold interior; lia).
  destruct Hint as (Hi1 & Hi2 & Hj1 & Hj2).
  assert (He : finite (peek g i (j + 1)))
    by (apply (peek_inside rows cols) with (P := finite); try assumption; lia).
  assert (Hw : finite (peek g i (j - 1)))
    by (apply (peek_inside rows cols) with (P := finite); try assumption; lia).
  assert (Hso : finite (peek g (i + 1) j))
    by (apply (peek_inside rows cols) with (P := finite); try assumption; lia).
  assert (Hn : finite (peek g (i - 1) j))
    by (apply (peek_inside rows cols) with (P := finite); try assumption; lia).
  apply finite_inv in He, Hw, Hso, Hn.
  destruct He as [e Ee], Hw as [wv Ew], Hso as [s Es], Hn as [n En].
  rewrite Ee, Ew, Es, En. fin_arith. rewrite !ndiv_fin by lra.
  unfold ngt, nlt. destruct (Rlt_dec 0 nl) as [Hnl|Hnl].
  - eapply run_ok_step; [apply boxMullerTransform_finite; assumption|].
    intros z1 w1 [Hz1 Hw1]. apply finite_inv in Hz1. destruct Hz1 as [n1 ->].
    eapply run_ok_step.
    { apply boxMullerTransform_finite.
      eapply zero_free_only_draws; eassumption. }
    intros z2 w2 [Hz2 Hw2]. apply finite_inv in Hz2. destruct Hz2 as [n2 ->].
    apply run_ok_ret. split; [eapply only_draws_trans; eassumption|].
    split; [|lra].
    exists i, j, e, wv, s, n, (n1 * nl), (n2 * nl).
    unfold interior. repeat split; assumption.
  - apply run_ok_ret. split; [apply only_draws_refl|].
    split; [|reflexivity].
    exists i, j, e, wv, s, n, 0, 0.
    unfold interior. repeat split; try assumption.
    f_equal; f_equal; lra.
Qed.

(* ================================================================= *)
(** ** The object store *)

Lemma load_grid_ok l g w :
  nth_error (store w) l = Some (OGrid g) ->
  run_ok (load_grid l) w (fun g' w' => g' = g /\ w' = w).
Proof. intros H. unfold run_ok, load_grid. rewrite H. now split. Qed.

Lemma get_x_ok l p w :
  nth_error (store w) l = Some (OPos p) ->
  run_ok (get_x l) w (fun v w' => v = pos_x p /\ w' = w).
Proof.
  intros H. unfold run_ok, get_x, bind, load_pos. rewrite H. now split.
Qed.

Lemma get_y_ok l p w :
  nth_error (store w) l = Some (OPos p) ->
  run_ok (get_y l) w (fun v w' => v = pos_y p /\ w' = w).
Proof.
  intros H. unfold run_ok, get_y, bind, load_pos. rewrite H. now split.
Qed.

Lemma only_draws_lookup w w' l :
  only_draws w w' -> nth_error (store w') l = nth_error (store w) l.
Proof. intros [_ ->]. reflexivity. Qed.

(* ================================================================= *)
(** ** The proposed displacements *)

Lemma hypot_nonneg a b : 0 <= sqrt (a * a + b * b).
Proof. apply sqrt_pos. Qed.

Lemma gradient_at_fin rows cols g gr :
  gradient_at rows cols g gr ->
  exists gdx gdy, gr = mkGrad (Fin gdx) (Fin gdy).
Proof.
  intros (i & j & e & wv & s & n & t1 & t2 & _ & _ & _ & _ & _ & ->).
  now eexists; eexists.
Qed.

Lemma proposeMoves_ok
      (defender adversary gridloc : loc) (g : grid) (rows cols : nat)
      (pd pa : position) (d a : R) (w : world) :
  nth_error (store w) defender = Some (OPos pd) ->
  nth_error (store w) adversary = Some (OPos pa) ->
  nth_error (store w) gridloc = Some (OGrid g) ->
  shape rows cols g -> (3 <= rows)%nat -> (3 <= cols)%nat ->
  all_cells finite g -> finite_pos pd -> finite_pos pa ->
  0 < d -> zero_free w ->
  run_ok (proposeMoves defender adversary gridloc (Fin d) (Fin a)) w
    (fun p w' =>
       only_draws w w' /\
       exists gdx gdy gax gay,
         gradient_at rows cols g (mkGrad (Fin gdx) (Fin gdy)) /\
         gradient_at rows cols g (mkGrad (Fin gax) (Fin gay)) /\
         proposal_from d a gdx gdy gax gay p).
Proof.
  intros Hd Ha Hg Hs Hr Hc Hfin [Hdx Hdy] [Hax Hay] Hdpos Hz.
  destruct pd as [xd yd], pa as [xa ya]. simpl in Hdx, Hdy, Hax, Hay.
  apply finite_inv in Hdx, Hdy, Hax, Hay.
  destruct Hdx as [rxd ->], Hdy as [ryd ->], Hax as [rxa ->], Hay as [rya ->].
  unfold proposeMoves. rewrite strengthRatio_fin by lra. cbv zeta.
  eapply run_ok_step; [apply load_grid_ok; eassumption|].
  intros g0 w0 [-> ->].
  eapply run_ok_step; [eapply get_x_ok; eassumption|]. intros x w0 [-> ->].
  eapply run_ok_step; [eapply get_y_ok; eassumption|]. intros y w0 [-> ->].
  cbn [pos_x pos_y].
  eapply run_ok_step.
  { assert (Hnl : exists nl,
              (if (Fin (a / d) >? Fin 1)%js then Fin 0.08 else Fin 0.05) = Fin nl)
      by (destruct (Fin (a / d) >? Fin 1)%js; eexists; reflexivity).
    destruct Hnl as [nl ->].
    eapply run_ok_weaken;
      [apply (calculateGradient_ok rows cols g rxd ryd nl); assumption|].
    intros gr w' (H1 & H2 & _). exact (conj H1 H2). }
  intros gd w1 (Hw1 & Hgd).
  eapply run_ok_step.
  { apply load_grid_ok. rewrite (only_draws_lookup _ _ _ Hw1). eassumption. }
  intros g0 w0 [-> ->].
  eapply run_ok_step.
  { eapply get_x_ok. rewrite (only_draws_lookup _ _ _ Hw1). eassumption. }
  intros x w0 [-> ->].
  eapply run_ok_step.
  { eapply get_y_ok. rewrite (only_draws_lookup _ _ _ Hw1). eassumption. }
  intros y w0 [-> ->]. cbn [pos_x pos_y].
  eapply run_ok_step.
  { assert (Hnl : exists nl,
              (if (Fin (a / d) >? Fin 1)%js then Fin 0.04 else Fin 0.08) = Fin nl)
      by (destruct (Fin (a / d) >? Fin 1)%js; eexists; reflexivity).
    destruct Hnl as [nl ->].
    eapply run_ok_weaken;
      [apply (calculateGradient_ok rows cols g rxa rya nl); try assumption;
       eapply zero_free_only_draws; eassumption|].
    intros gr w' (H1 & H2 & _). exact (conj H1 H2). }
  intros ga w2 (Hw2 & Hga).
  apply run_ok_ret. split; [eapply only_draws_trans; eassumption|].
  destruct (gradient_at_fin _ _ _ _ Hgd) as (gdx & gdy & ->).
  destruct (gradient_at_fin _ _ _ _ Hga) as (gax & gay & ->).
  exists gdx, gdy, gax, gay. split; [exact Hgd|]. split; [exact Hga|].
  cbn [grad_dx grad_dy].
  unfold proposal_from. cbn [defDx defDy advDx advDy].
  rewrite !hypot_fin.
  assert (H1 := hypot_nonneg gdx gdy). assert (H2 := hypot_nonneg gax gay).
  destruct (Fin (a / d) >? Fin 1)%js; to_fin;
    (split; [reflexivity|]); (split; [reflexivity|]);
    eexists; split; reflexivity.
Qed.

(* ================================================================= *)
(** ** The two new objects of a step *)

Lemma nth_error_old {A} (st ext : list A) l o :
  nth_error st l = Some o -> nth_error (st ++ ext) l = Some o.
Proof.
  intros H. rewrite nth_error_app1; [assumption|].
  apply nth_error_Some. congruence.
Qed.

Lemma nth_error_first {A} (st : list A) o1 o2 :
  nth_error (st ++ [o1; o2]) (length st) = Some o1.
Proof. rewrite nth_error_app2 by lia. now rewrite Nat.sub_diag. Qed.

Lemma nth_error_second {A} (st : list A) o1 o2 :
  nth_error (st ++ [o1; o2]) (S (length st)) = Some o2.
Proof.
  rewrite nth_error_app2 by lia.
  replace (S (length st) - length st)%nat with 1%nat by lia. reflexivity.
Qed.

Lemma replace_first {A} (st : list A) o1 o2 x :
  firstn (length st) (st ++ [o1; o2])
  ++ x :: skipn (S (length st)) (st ++ [o1; o2]) = st ++ [x; o2].
Proof.
  rewrite firstn_app, firstn_all, Nat.sub_diag. cbn [firstn].
  rewrite app_nil_r. f_equal. f_equal.
  rewrite skipn_app, skipn_all2 by lia.
  replace (S (length st) - length st)%nat with 1%nat by lia. reflexivity.
Qed.

Lemma replace_second {A} (st : list A) o1 o2 x :
  firstn (S (length st)) (st ++ [o1; o2])
  ++ x :: skipn (S (S (length st))) (st ++ [o1; o2]) = st ++ [o1; x].
Proof.
  rewrite firstn_app, firstn_all2 by lia.
  replace (S (length st) - length st)%nat with 1%nat by lia. cbn [firstn].
  rewrite <- app_assoc. f_equal. cbn [app]. f_equal. f_equal.
  rewrite skipn_app, skipn_all2 by lia.
  replace (S (S (length st)) - length st)%nat with 2%nat by lia. reflexivity.
Qed.

Lemma get_x_second st o1 p2 w :
  store w = st ++ [o1; OPos p2] ->
  run_ok (get_x (S (length st))) w (fun v w' => v = pos_x p2 /\ w' = w).
Proof. intros H. apply get_x_ok. rewrite H. apply nth_error_second. Qed.

Lemma get_y_second st o1 p2 w :
  store w = st ++ [o1; OPos p2] ->
  run_ok (get_y (S (length st))) w (fun v w' => v = pos_y p2 /\ w' = w).
Proof. intros H. apply get_y_ok. rewrite H. apply nth_error_second. Qed.

Lemma get_x_first st p1 o2 w :
  store w = st ++ [OPos p1; o2] ->
  run_ok (get_x (length st)) w (fun v w' => v = pos_x p1 /\ w' = w).
Proof. intros H. apply get_x_ok. rewrite H. apply nth_error_first. Qed.

Lemma get_y_first st p1 o2 w :
  store w = st ++ [OPos p1; o2] ->
  run_ok (get_y (length st)) w (fun v w' => v = pos_y p1 /\ w' = w).
Proof. intros H. apply get_y_ok. rewrite H. apply nth_error_first. Qed.

Lemma set_x_second st o1 p2 v w :
  store w = st ++ [o1; OPos p2] ->
  run_ok (set_x (S (length st)) v) w
    (fun _ w' => entropy w' = entropy w /\
                 store w' = st ++ [o1; OPos (mkPos v (pos_y p2))]).
Proof.
  intros H. unfold run_ok, set_x, bind, load_pos, store_pos.
  rewrite H, nth_error_second. cbn [entropy store set_store].
  rewrite ?H, replace_second, ?nth_error_second. now split.
Qed.

Lemma set_y_second st o1 p2 v w :
  store w = st ++ [o1; OPos p2] ->
  run_ok (set_y (S (length st)) v) w
    (fun _ w' => entropy w' = entropy w /\
                 store w' = st ++ [o1; OPos (mkPos (pos_x p2) v)]).
Proof.
  intros H. unfold run_ok, set_y, bind, load_pos, store_pos.
  rewrite H, nth_error_second. cbn [entropy store set_store].
  rewrite ?H, replace_second, ?nth_error_second. now split.
Qed.

Lemma set_x_first st p1 o2 v w :
  store w = st ++ [OPos p1; o2] ->
  run_ok (set_x (length st) v) w
    (fun _ w' => entropy w' = entropy w /\
                 store w' = st ++ [OPos (mkPos v (pos_y p1)); o2]).
Proof.
  intros H. unfold run_ok, set_x, bind, load_pos, store_pos.
  rewrite H, nth_error_first. cbn [entropy store set_store].
  rewrite ?H, replace_first, ?nth_error_first. now split.
Qed.

Lemma set_y_first st p1 o2 v w :
  store w = st ++ [OPos p1; o2] ->
  run_ok (set_y (length st) v) w
    (fun _ w' => entropy w' = entropy w /\
                 store w' = st ++ [OPos (mkPos (pos_x p1) v); o2]).
Proof.
  intros H. unfold run_ok, set_y, bind, load_pos, store_pos.
  rewrite H, nth_error_first. cbn [entropy store set_store].
  rewrite ?H, replace_first, ?nth_error_first. now split.
Qed.

Lemma get_x_old st ext l p w :
  store w = st ++ ext -> nth_error st l = Some (OPos p) ->
  run_ok (get_x l) w (fun v w' => v = pos_x p /\ w' = w).
Proof. intros H Hl. apply get_x_ok. rewrite H. now apply nth_error_old. Qed.

Lemma get_y_old st ext l p w :
  store w = st ++ ext -> nth_error st l = Some (OPos p) ->
  run_ok (get_y l) w (fun v w' => v = pos_y p /\ w' = w).
Proof. intros H Hl. apply get_y_ok. rewrite H. now apply nth_error_old. Qed.

(* ================================================================= *)
(** ** The perturbation budget and the targeted jump *)

Lemma sum_squares_nonneg a b : 0 <= a * a + b * b.
Proof. nra. Qed.

Lemma norm_scale x y k :
  0 <= k -> norm (x * k) (y * k) = k * norm x y.
Proof.
  intros Hk. unfold norm.
  replace (x * k * (x * k) + y * k * (y * k))
    with (k * k * (x * x + y * y)) by ring.
  rewrite sqrt_mult; [|nra|nra].
  now rewrite sqrt_square.
Qed.

Lemma norm_0 : norm 0 0 = 0.
Proof. unfold norm. replace (0 * 0 + 0 * 0) with 0 by ring. apply sqrt_0. Qed.

Lemma maxPerturbation_fin d a :
  d <> 0 ->
  maxPerturbation (Fin d) (Fin a)
  = Fin (0.2 * a * (if Rlt_dec 1 (a / d) then 1.2 else 1.0)).
Proof.
  intros H. unfold maxPerturbation. rewrite strengthRatio_fin by assumption.
  unfold ngt, nlt. destruct (Rlt_dec 1 (a / d)); reflexivity.
Qed.

(** The budget: the displacement kept is the proposal when it is within the
    budget, and the proposal scaled to the budget otherwise. *)
Lemma perturbationBudget_ok st o1 adversary xa ya adx ady mx p w :
  store w = st ++ [o1; OPos (mkPos (Fin (xa + adx)) (Fin (ya + ady)))] ->
  nth_error st adversary = Some (OPos (mkPos (Fin xa) (Fin ya))) ->
  advDx p = Fin adx -> advDy p = Fin ady -> 0 <= mx ->
  run_ok (perturbationBudget adversary (S (length st)) p (Fin mx)) w
    (fun _ w' =>
       entropy w' = entropy w /\
       exists bx by',
         store w' = st ++ [o1; OPos (mkPos (Fin (xa + bx)) (Fin (ya + by')))] /\
         norm bx by' <= mx /\
         (norm adx ady <= mx -> bx = adx /\ by' = ady) /\
         (mx < norm adx ady ->
          norm bx by' = mx /\
          bx = adx * (mx / norm adx ady) /\ by' = ady * (mx / norm adx ady))).
Proof.
  intros Hst Hadv Hx Hy Hmx. unfold perturbationBudget.
  rewrite Hx, Hy. cbv zeta. rewrite hypot_fin. fold (norm adx ady).
  unfold ngt, nlt. destruct (Rlt_dec mx (norm adx ady)) as [Hgt|Hle].
  - assert (Hn : norm adx ady <> 0) by lra.
    rewrite ndiv_fin by assumption. fin_arith.
    eapply run_ok_step; [eapply get_x_old; eassumption|].
    intros x w0 [-> ->]. cbn [pos_x].
    eapply run_ok_step; [apply set_x_second; eassumption|].
    intros _ w1 [He1 Hs1]. cbn [pos_y] in Hs1.
    eapply run_ok_step; [eapply get_y_old; eassumption|].
    intros y w2 [-> ->]. cbn [pos_y].
    eapply run_ok_weaken; [apply set_y_second; eassumption|].
    intros _ w3 [He3 Hs3]. cbn [pos_x] in Hs3.
    split; [congruence|].
    exists (adx * (mx / norm adx ady)), (ady * (mx / norm adx ady)).
    split; [exact Hs3|].
    assert (Hk : 0 <= mx / norm adx ady).
    { apply Rmult_le_pos; [assumption|]. left. apply Rinv_0_lt_compat. lra. }
    assert (Hnorm : norm (adx * (mx / norm adx ady)) (ady * (mx / norm adx ady))
                    = mx).
    { rewrite norm_scale by assumption. field. assumption. }
    split; [lra|]. split; [lra|]. intros _. now repeat split.
  - apply run_ok_ret. split; [reflexivity|].
    exists adx, ady. split; [assumption|]. split; [lra|].
    split; [now split|lra].
Qed.

(** The jump: nothing, or a displacement of norm [0.15 * maxPerturbation]
    toward the defender. *)
Lemma targetedJump_ok st o1 defender adversary xd yd xa ya x1 y1 r mx w :
  store w = st ++ [o1; OPos (mkPos (Fin x1) (Fin y1))] ->
  nth_error st defender = Some (OPos (mkPos (Fin xd) (Fin yd))) ->
  nth_error st adversary = Some (OPos (mkPos (Fin xa) (Fin ya))) ->
  0 <= mx ->
  run_ok (targetedJump defender adversary (S (length st)) (Fin r) (Fin mx)) w
    (fun _ w' =>
       entropy w' = entropy w /\
       exists jx jy,
         store w' = st ++ [o1; OPos (mkPos (Fin (x1 + jx)) (Fin (y1 + jy)))] /\
         norm jx jy <= 0.15 * mx).
Proof.
  intros Hst Hdef Hadv Hmx.
  assert (Hstay : forall w', entropy w' = entropy w -> store w' = store w ->
            entropy w' = entropy w /\
            exists jx jy,
              store w' = st ++ [o1; OPos (mkPos (Fin (x1 + jx)) (Fin (y1 + jy)))]
              /\ norm jx jy <= 0.15 * mx).
  { intros w' He Hs. split; [assumption|]. exists 0, 0.
    rewrite !Rplus_0_r, norm_0. split; [congruence|lra]. }
  unfold targetedJump. destruct (Fin r >? Fin 1)%js.
  2:{ apply run_ok_ret. now apply Hstay. }
  eapply run_ok_step; [apply Math_random_ok|]. intros u w1 [-> [He1 Hs1]].
  destruct (Fin (entropy w (drawn w)) <? Fin 0.08)%js.
  2:{ apply run_ok_ret. now apply Hstay. }
  assert (Hst1 : store w1 = st ++ [o1; OPos (mkPos (Fin x1) (Fin y1))])
    by congruence.
  cbv zeta.
  eapply run_ok_step; [eapply get_x_old; eassumption|]. intros dx w0 [-> ->].
  eapply run_ok_step; [eapply get_x_old; eassumption|]. intros ax w0 [-> ->].
  eapply run_ok_step; [eapply get_y_old; eassumption|]. intros dy w0 [-> ->].
  eapply run_ok_step; [eapply get_y_old; eassumption|]. intros ay w0 [-> ->].
  cbn [pos_x pos_y]. fin_arith.
  rewrite Math_sqrt_fin by apply sum_squares_nonneg.
  change (sqrt ((xd + - xa) * (xd + - xa) + (yd + - ya) * (yd + - ya)))
    with (norm (xd + - xa) (yd + - ya)).
  set (mag := norm (xd + - xa) (yd + - ya)).
  unfold ngt, nlt. destruct (Rlt_dec 0 mag) as [Hmag|Hmag].
  2:{ apply run_ok_ret. now apply Hstay. }
  rewrite !ndiv_fin by lra. fin_arith.
  eapply run_ok_step; [eapply get_x_second; eassumption|].
  intros x w0 [-> ->]. cbn [pos_x]. fin_arith.
  eapply run_ok_step; [apply set_x_second; eassumption|].
  intros _ w2 [He2 Hs2]. cbn [pos_y] in Hs2.
  eapply run_ok_step; [eapply get_y_second; eassumption|].
  intros y w0 [-> ->]. cbn [pos_y]. fin_arith.
  eapply run_ok_weaken; [apply set_y_second; eassumption|].
  intros _ w3 [He3 Hs3]. cbn [pos_x] in Hs3.
  split; [congruence|].
  exists ((xd + - xa) / mag * 0.15 * mx), ((yd + - ya) / mag * 0.15 * mx).
  split; [exact Hs3|].
  assert (Hk : 0 <= 0.15 * mx / mag).
  { apply Rmult_le_pos; [lra|]. left. now apply Rinv_0_lt_compat. }
  replace ((xd + - xa) / mag * 0.15 * mx)
    with ((xd + - xa) * (0.15 * mx / mag)) by (field; lra).
  replace ((yd + - ya) / mag * 0.15 * mx)
    with ((yd + - ya) * (0.15 * mx / mag)) by (field; lra).
  rewrite norm_scale by assumption. fold mag.
  right. field. lra.
Qed.

(** The two new objects, the budget and the jump together. *)
Lemma applyMoves_ok
      (defender adversary : loc) (p : proposal)
      (xd yd xa ya ddx ddy adx ady d a : R) (w : world) :
  nth_error (store w) defender = Some (OPos (mkPos (Fin xd) (Fin yd))) ->
  nth_error (store w) adversary = Some (OPos (mkPos (Fin xa) (Fin ya))) ->
  p = mkProposal (Fin ddx) (Fin ddy) (Fin adx) (Fin ady) ->
  0 < d -> 0 <= a ->
  run_ok (applyMoves defender adversary p (Fin d) (Fin a)) w
    (fun r w' =>
       r = (length (store w), S (length (store w))) /\
       entropy w' = entropy w /\
       exists mx bx by' jx jy,
         maxPerturbation (Fin d) (Fin a) = Fin mx /\ 0 <= mx /\
         store w'
         = store w ++ [OPos (mkPos (Fin (xd + ddx)) (Fin (yd + ddy)));
                       OPos (mkPos (Fin (xa + bx + jx)) (Fin (ya + by' + jy)))]
         /\ norm bx by' <= mx /\
         (norm adx ady <= mx -> bx = adx /\ by' = ady) /\
         (mx < norm adx ady ->
          norm bx by' = mx /\
          bx = adx * (mx / norm adx ady) /\ by' = ady * (mx / norm adx ady)) /\
         norm jx jy <= 0.15 * mx).
Proof.
  intros Hdef Hadv -> Hd Ha. unfold applyMoves.
  rewrite maxPerturbation_fin, strengthRatio_fin by lra. cbv zeta.
  set (mx := 0.2 * a * (if Rlt_dec 1 (a / d) then 1.2 else 1.0)).
  assert (Hmx : 0 <= mx).
  { unfold mx. destruct (Rlt_dec 1 (a / d)); nra. }
  eapply run_ok_step; [eapply get_x_ok; eassumption|]. intros x w0 [-> ->].
  eapply run_ok_step; [eapply get_y_ok; eassumption|]. intros y w0 [-> ->].
  cbn [pos_x pos_y defDx defDy advDx advDy]. fin_arith.
  unfold bind at 1, alloc at 1, run_ok at 1.
  eapply run_ok_step.
  { eapply (get_x_old (store w) [_]); [reflexivity|eassumption]. }
  intros x w0 [-> ->].
  eapply run_ok_step.
  { eapply (get_y_old (store w) [_]); [reflexivity|eassumption]. }
  intros y w0 [-> ->]. cbn [pos_x pos_y]. fin_arith.
  unfold bind at 1, alloc at 1, run_ok at 1. cbn [store set_store].
  rewrite length_app. cbn [length]. rewrite Nat.add_1_r.
  rewrite <- app_assoc. cbn [app].
  eapply run_ok_step.
  { eapply (perturbationBudget_ok (store w)); try reflexivity; eassumption. }
  intros _ w1 (He1 & bx & by' & Hs1 & Hb1 & Hb2 & Hb3).
  eapply run_ok_step.
  { eapply (targetedJump_ok (store w)); eassumption. }
  intros _ w2 (He2 & jx & jy & Hs2 & Hj).
  cbn [entropy set_store] in He1.
  apply run_ok_ret. split; [reflexivity|]. split; [congruence|].
  exists mx, bx, by', jx, jy. split; [reflexivity|]. split; [assumption|].
  split; [exact Hs2|]. repeat split; try assumption; now apply Hb2 || apply Hb3.
Qed.

(* ================================================================= *)
(** ** Back onto the board *)

Lemma keepWithinBounds_ok st gridloc g rows cols p1 p2 w :
  store w = st ++ [OPos p1; OPos p2] ->
  nth_error st gridloc = Some (OGrid g) ->
  shape rows cols g -> (1 <= rows)%nat ->
  run_ok (keepWithinBounds gridloc (length st) (S (length st))) w
    (fun r w' =>
       r = (length st, S (length st)) /\
       entropy w' = entropy w /\
       store w' = st ++ [OPos (clampToBoard rows cols p1);
                         OPos (clampToBoard rows cols p2)]).
Proof.
  intros Hst Hg Hs Hr. unfold keepWithinBounds.
  eapply run_ok_step.
  { apply load_grid_ok. rewrite Hst. eapply nth_error_old. eassumption. }
  intros g0 w0 [-> ->].
  eapply run_ok_step; [eapply row0_length_ok; eassumption|].
  intros ncols w0 [-> ->]. cbv zeta.
  replace (length g) with rows by (symmetry; apply Hs).
  eapply run_ok_step; [eapply get_x_first; eassumption|]. intros x w0 [-> ->].
  eapply run_ok_step; [apply set_x_first; eassumption|].
  intros _ w1 [He1 Hs1].
  eapply run_ok_step; [eapply get_y_first; eassumption|]. intros y w0 [-> ->].
  eapply run_ok_step; [apply set_y_first; eassumption|].
  intros _ w2 [He2 Hs2].
  eapply run_ok_step; [eapply get_x_second; eassumption|]. intros x w0 [-> ->].
  eapply run_ok_step; [apply set_x_second; eassumption|].
  intros _ w3 [He3 Hs3].
  eapply run_ok_step; [eapply get_y_second; eassumption|]. intros y w0 [-> ->].
  eapply run_ok_step; [apply set_y_second; eassumption|].
  intros _ w4 [He4 Hs4].
  apply run_ok_ret. split; [reflexivity|]. split; [congruence|].
  exact Hs4.
Qed.

Lemma clampToBoard_on_board rows cols x y :
  (1 <= rows)%nat -> (1 <= cols)%nat ->
  on_board rows cols (clampToBoard rows cols (mkPos (Fin x) (Fin y))).
Proof.
  intros Hr Hc. unfold on_board, clampToBoard, of_nat. cbn [pos_x pos_y].
  fin_arith.
  assert (H1 : 1 <= INR rows) by (change 1 with (INR 1); apply le_INR; lia).
  assert (H2 : 1 <= INR cols) by (change 1 with (INR 1); apply le_INR; lia).
  split; apply clamp_between; try discriminate; lra.
Qed.

Lemma clampToBoard_fixes rows cols x y :
  0 <= x <= INR cols - 1 -> 0 <= y <= INR rows - 1 ->
  clampToBoard rows cols (mkPos (Fin x) (Fin y)) = mkPos (Fin x) (Fin y).
Proof.
  intros Hx Hy. unfold clampToBoard, of_nat. cbn [pos_x pos_y]. fin_arith.
  rewrite !Math_max_fin, !Math_min_fin.
  rewrite (Rmax_left x 0), (Rmax_left y 0) by lra.
  rewrite !Rmin_left by lra. reflexivity.
Qed.

(* ================================================================= *)
(** ** One step of the game *)

(** The step as a whole, for a store that holds the two positions and a
    grid of reals with at least three rows and three columns. *)
Lemma simulateStep_ok
      (defender adversary gridloc : loc) (g : grid) (rows cols : nat)
      (xd yd xa ya d a : R) (w : world) :
  nth_error (store w) defender = Some (OPos (mkPos (Fin xd) (Fin yd))) ->
  nth_error (store w) adversary = Some (OPos (mkPos (Fin xa) (Fin ya))) ->
  nth_error (store w) gridloc = Some (OGrid g) ->
  shape rows cols g -> (3 <= rows)%nat -> (3 <= cols)%nat ->
  all_cells finite g -> 0 < d -> 0 <= a -> zero_free w ->
  run_ok (simulateStep defender adversary gridloc (Fin d) (Fin a)) w
    (fun r w' =>
       r = (length (store w), S (length (store w))) /\
       entropy w' = entropy w /\
       exists gdx gdy ax' ay',
         gradient_at rows cols g (mkGrad (Fin gdx) (Fin gdy)) /\
         store w'
         = store w
           ++ [OPos (clampToBoard rows cols
                 (mkPos
                    (Fin (xd + - gdx * (0.02 * d / (0.1 + norm gdx gdy))))
                    (Fin (yd + - gdy * (0.02 * d / (0.1 + norm gdx gdy))))));
               OPos (clampToBoard rows cols (mkPos (Fin ax') (Fin ay')))]).
Proof.
  intros Hdef Hadv Hg Hs Hr Hc Hfin Hd Ha Hz. unfold simulateStep.
  eapply run_ok_step.
  { eapply (proposeMoves_ok defender adversary gridloc g rows cols);
      try eassumption; split; exact I. }
  intros p w1 (Hw1 & gdx & gdy & gax & gay & Hgd & Hga & Hp).
  destruct Hp as (Hp1 & Hp2 & sc & Hp3 & Hp4).
  destruct p as [p1 p2 p3 p4]. cbn [defDx defDy advDx advDy] in *. subst.
  eapply run_ok_step.
  { eapply applyMoves_ok; try reflexivity; try assumption.
    - rewrite (only_draws_lookup _ _ _ Hw1). eassumption.
    - rewrite (only_draws_lookup _ _ _ Hw1). eassumption. }
  intros [nd na] w2 (Er & He2 & mx & bx & by' & jx & jy & _ & _ & Hs2 & _).
  inversion Er; subst nd na. clear Er.
  destruct Hw1 as [He1 Hst1]. rewrite Hst1 in *.
  eapply run_ok_weaken.
  { eapply (keepWithinBounds_ok (store w)); try eassumption. lia. }
  intros r w3 (-> & He3 & Hs3).
  split; [reflexivity|]. split; [congruence|].
  exists gdx, gdy, (xa + bx + jx), (ya + by' + jy).
  split; [assumption|]. exact Hs3.
Qed.

(** C2, as the code has it.  On a grid of reals with at least three rows
    and three columns, for real positions, positive strengths and a uniform
    source that never returns [0], [simulateStep] returns two positions
    that lie on the board [[0, cols-1] x [0, rows-1]]. *)
Theorem simulateStep_on_board
    (defender adversary gridloc : loc) (g : grid) (rows cols : nat)
    (pd pa : position) (d a : R) (w : world) :
  nth_error (store w) defender = Some (OPos pd) ->
  nth_error (store w) adversary = Some (OPos pa) ->
  nth_error (store w) gridloc = Some (OGrid g) ->
  shape rows cols g -> (3 <= rows)%nat -> (3 <= cols)%nat ->
  all_cells finite g -> finite_pos pd -> finite_pos pa ->
  0 < d -> 0 < a -> zero_free w ->
  exists nd na w' pd' pa',
    simulateStep defender adversary gridloc (Fin d) (Fin a) w
    = Returns (nd, na) w' /\
    nth_error (store w') nd = Some (OPos pd') /\
    nth_error (store w') na = Some (OPos pa') /\
    on_board rows cols pd' /\ on_board rows cols pa'.
Proof.
  intros Hdef Hadv Hg Hs Hr Hc Hfin [Hdx Hdy] [Hax Hay] Hd Ha Hz.
  destruct pd as [xd yd], pa as [xa ya]. simpl in Hdx, Hdy, Hax, Hay.
  apply finite_inv in Hdx, Hdy, Hax, Hay.
  destruct Hdx as [rxd ->], Hdy as [ryd ->], Hax as [rxa ->], Hay as [rya ->].
  destruct (run_ok_returns _ _ _
              (simulateStep_ok defender adversary gridloc g rows cols
                 rxd ryd rxa rya d a w Hdef Hadv Hg Hs Hr Hc Hfin Hd
                 (Rlt_le _ _ Ha) Hz))
    as (r & w' & Hrun & -> & _ & gdx & gdy & ax' & ay' & _ & Hst).
  do 5 eexists. split; [exact Hrun|]. rewrite Hst.
  split; [apply nth_error_first|]. split; [apply nth_error_second|].
  split; apply clampToBoard_on_board; lia.
Qed.

Lemma simulateStep_on_board_witness :
  exists nd na w' pd' pa',
    simulateStep 0%nat 1%nat 2%nat (Fin 5) (Fin 5) scenario_world
    = Returns (nd, na) w' /\
    nth_error (store w') nd = Some (OPos pd') /\
    nth_error (store w') na = Some (OPos pa') /\
    on_board 20 20 pd' /\ on_board 20 20 pa'.
Proof.
  apply (simulateStep_on_board 0%nat 1%nat 2%nat (flat_grid 20 20 0.5) 20 20
           (mkPos (Fin 5) (Fin 14)) (mkPos (Fin 14) (Fin 5)));
    try reflexivity; try lia; try lra.
  - apply flat_grid_shape.
  - apply flat_grid_cells. exact I.
  - split; exact I.
  - split; exact I.
  - apply zero_free_half.
Defined.

(* ================================================================= *)
(** ** A board of two columns *)

(** With two columns the clamped column is [0]: the cell to its left is
    [undefined], and the first component of the gradient is [NaN]. *)
Lemma calculateGradient_two_columns rows g x y nl w :
  shape rows 2 g -> (3 <= rows)%nat -> 0 < nl ->
  run_ok (calculateGradient g (Fin x) (Fin y) (Fin nl)) w
         (fun gr w' => only_draws w w' /\ grad_dx gr = NaN).
Proof.
  intros Hs Hr Hnl. unfold calculateGradient.
  eapply run_ok_step; [eapply row0_length_ok; try eassumption; lia|].
  intros ncols w0 [-> ->]. cbv beta zeta.
  replace (length g) with rows by (symmetry; apply Hs).
  rewrite !of_nat_minus.
  destruct (clamped_floor y 1 (Z.of_nat rows - 2)) as (zr & Hzr & ->); [lia|].
  assert (Ecol : Math_min (Math_max (Math_floor (Fin x)) (Fin 1))
                          (Fin (IZR (Z.of_nat 2 - 2))) = Fin (IZR 0)).
  { unfold Math_floor. rewrite Math_max_fin, Rmax_IZR, Math_min_fin, Rmin_IZR.
    do 2 f_equal. lia. }
  rewrite Ecol. rewrite !fin_plus_IZR, !fin_minus_IZR.
  eapply run_ok_step; [apply (read2_num_peek rows 2); try assumption; lia|].
  intros e w1 [-> ->].
  assert (Hleft : run_ok (read2_num g (Fin (IZR zr)) (Fin (IZR (0 - 1)))) w
                         (fun v w' => v = NaN /\ w' = w)).
  { assert (Hi : (Z.to_nat zr < rows)%nat) by lia.
    destruct (shape_row _ _ _ Hs _ Hi) as (row & E & _).
    unfold run_ok, read2_num. rewrite index_of_IZR by lia. rewrite E.
    rewrite index_of_negative by lia. now split. }
  eapply run_ok_step; [exact Hleft|]. intros wv w1 [-> ->].
  rewrite nsub_NaN_r. cbn [ndiv].
  eapply run_ok_step; [apply (read2_num_peek rows 2); try assumption; lia|].
  intros s w1 [-> ->].
  eapply run_ok_step; [apply (read2_num_peek rows 2); try assumption; lia|].
  intros n w1 [-> ->].
  unfold ngt, nlt. destruct (Rlt_dec 0 nl) as [_|]; [|lra].
  eapply run_ok_step; [apply boxMullerTransform_returns|]. intros z1 w1 Hw1.
  eapply run_ok_step; [apply boxMullerTransform_returns|]. intros z2 w2 Hw2.
  cbv beta in Hw1, Hw2.
  apply run_ok_ret. split; [eapply only_draws_trans; eassumption|].
  reflexivity.
Qed.

(** C2, as stated, fails.  A grid of three rows and two columns has at
    least one row and one column; [simulateStep] returns on it, and both
    positions returned have [NaN] coordinates, which lie on no board. *)
Lemma simulateStep_two_columns :
  shape 3 2 (flat_grid 3 2 0.5) /\
  exists w',
    simulateStep 0%nat 1%nat 2%nat (Fin 5) (Fin 5) narrow_world
    = Returns (3%nat, 4%nat) w' /\
    nth_error (store w') 3 = Some (OPos (mkPos NaN NaN)) /\
    nth_error (store w') 4 = Some (OPos (mkPos NaN NaN)) /\
    ~ on_board 3 2 (mkPos NaN NaN).
Proof.
  split; [apply narrow_flat_shape|].
  assert (Hratio : (strengthRatio (Fin 5) (Fin 5) >? Fin 1)%js = false).
  { rewrite strengthRatio_fin by lra. apply ngt_fin_false. lra. }
  assert (Hrun : run_ok
            (simulateStep 0%nat 1%nat 2%nat (Fin 5) (Fin 5)) narrow_world
            (fun r w' =>
               r = (3%nat, 4%nat) /\
               store w' = store narrow_world
                          ++ [OPos (clampToBoard 3 2 (mkPos NaN NaN));
                              OPos (clampToBoard 3 2 (mkPos NaN NaN))])).
  { unfold simulateStep.
    eapply (run_ok_step _ _ _
              (fun p w' => only_draws narrow_world w' /\
                           p = mkProposal NaN NaN NaN NaN)).
    { (* the proposal *)
      unfold proposeMoves. rewrite Hratio. cbv zeta.
      eapply run_ok_step; [apply (load_grid_ok 2%nat); reflexivity|].
      intros g0 w0 [-> ->].
      eapply run_ok_step; [apply (get_x_ok 0%nat); reflexivity|].
      intros x w0 [-> ->].
      eapply run_ok_step; [apply (get_y_ok 0%nat); reflexivity|].
      intros y w0 [-> ->]. cbn [pos_x pos_y].
      eapply run_ok_step.
      { apply (calculateGradient_two_columns 3);
          [apply narrow_flat_shape|lia|lra]. }
      intros [gdx gdy] w1 [Hw1 Hdx]. cbn [grad_dx grad_dy] in *. subst gdx.
      eapply run_ok_step.
      { apply (load_grid_ok 2%nat). rewrite (only_draws_lookup _ _ _ Hw1).
        reflexivity. }
      intros g0 w0 [-> ->].
      eapply run_ok_step.
      { apply (get_x_ok 1%nat). rewrite (only_draws_lookup _ _ _ Hw1).
        reflexivity. }
      intros x w0 [-> ->].
      eapply run_ok_step.
      { apply (get_y_ok 1%nat). rewrite (only_draws_lookup _ _ _ Hw1).
        reflexivity. }
      intros y w0 [-> ->]. cbn [pos_x pos_y].
      eapply run_ok_step.
      { apply (calculateGradient_two_columns 3);
          [apply narrow_flat_shape|lia|lra]. }
      intros [gax gay] w2 [Hw2 Hax]. cbn [grad_dx grad_dy] in *. subst gax.
      apply run_ok_ret.
      cbn [nmul nadd nneg Math_sqrt ndiv]. rewrite !nmul_NaN_r.
      split; [exact (only_draws_trans _ _ _ Hw1 Hw2)|reflexivity]. }
    intros p w1 [Hw1 ->].
    assert (Hst1 : store w1 = store narrow_world) by apply Hw1.
    eapply (run_ok_step _ _ _
              (fun r w' =>
                 r = (3%nat, 4%nat) /\
                 store w' = store narrow_world
                            ++ [OPos (mkPos NaN NaN); OPos (mkPos NaN NaN)])).
    { (* the two new objects *)
      unfold applyMoves. cbv zeta.
      eapply run_ok_step.
      { apply (get_x_ok 0%nat). rewrite Hst1. reflexivity. }
      intros x w0 [-> ->].
      eapply run_ok_step.
      { apply (get_y_ok 0%nat). rewrite Hst1. reflexivity. }
      intros y w0 [-> ->].
      cbn [pos_x pos_y defDx defDy advDx advDy nadd].
      unfold bind at 1, alloc at 1, run_ok at 1.
      eapply run_ok_step.
      { apply (get_x_ok 1%nat). cbn [store set_store]. rewrite Hst1.
        reflexivity. }
      intros x w0 [-> ->].
      eapply run_ok_step.
      { apply (get_y_ok 1%nat). cbn [store set_store]. rewrite Hst1.
        reflexivity. }
      intros y w0 [-> ->]. cbn [pos_x pos_y nadd].
      unfold bind at 1, alloc at 1, run_ok at 1. cbn [store set_store].
      rewrite Hst1.
      unfold perturbationBudget, targetedJump.
      cbn [advDx advDy nmul nadd Math_sqrt]. rewrite Hratio.
      rewrite maxPerturbation_fin by lra.
      unfold ngt at 1. cbn [nlt].
      apply run_ok_ret. cbn [store set_store].
      split; reflexivity. }
    intros [nd na] w2 [Er Hst2]. inversion Er; subst nd na. clear Er.
    cbn [length store narrow_world half_world] in Hst2 |- *.
    eapply run_ok_weaken.
    { apply (keepWithinBounds_ok
               [OPos (mkPos (Fin 0) (Fin 0)); OPos (mkPos (Fin 1) (Fin 1));
                OGrid (flat_grid 3 2 0.5)] 2%nat (flat_grid 3 2 0.5) 3 2
               (mkPos NaN NaN) (mkPos NaN NaN) w2);
        [exact Hst2|reflexivity|apply narrow_flat_shape|lia]. }
    intros r w3 (-> & _ & Hs3). split; [reflexivity|exact Hs3]. }
  destruct (run_ok_returns _ _ _ Hrun) as (r & w' & Hr & -> & Hst).
  exists w'. split; [exact Hr|]. rewrite Hst.
  split; [reflexivity|]. split; [reflexivity|].
  intros [H _]. exact H.
Qed.

(* ================================================================= *)
(** ** The perturbation budget of a step *)




(* ================================================================= *)
(** ** A proposal that is not a number *)

(** A proposal of four [NaN]s gives two new positions of [NaN]s: the
    comparison with the budget is false, and no jump is made unless the
    adversary is the stronger side. *)
Lemma applyMoves_nan defender adversary pd pa d a w :
  nth_error (store w) defender = Some (OPos pd) ->
  nth_error (store w) adversary = Some (OPos pa) ->
  0 < d -> a <= d ->
  run_ok (applyMoves defender adversary (mkProposal NaN NaN NaN NaN)
                     (Fin d) (Fin a)) w
    (fun r w' =>
       r = (length (store w), S (length (store w))) /\
       entropy w' = entropy w /\
       store w' = store w ++ [OPos (mkPos NaN NaN); OPos (mkPos NaN NaN)]).
Proof.
  intros Hdef Hadv Hd Ha.
  assert (Hratio : (strengthRatio (Fin a) (Fin d) >? Fin 1)%js = false).
  { rewrite strengthRatio_fin by lra. apply ngt_fin_false.
    apply (Rmult_le_reg_r d); [assumption|]. unfold Rdiv.
    rewrite Rmult_assoc, Rinv_l by lra. lra. }
  unfold applyMoves. cbv zeta.
  eapply run_ok_step; [eapply get_x_ok; eassumption|]. intros x w0 [-> ->].
  eapply run_ok_step; [eapply get_y_ok; eassumption|]. intros y w0 [-> ->].
  cbn [defDx defDy advDx advDy]. rewrite !nadd_NaN_r.
  unfold bind at 1, alloc at 1, run_ok at 1.
  eapply run_ok_step.
  { eapply (get_x_old (store w) [_]); [reflexivity|eassumption]. }
  intros x w0 [-> ->].
  eapply run_ok_step.
  { eapply (get_y_old (store w) [_]); [reflexivity|eassumption]. }
  intros y w0 [-> ->]. rewrite !nadd_NaN_r.
  unfold bind at 1, alloc at 1, run_ok at 1. cbn [store set_store].
  unfold perturbationBudget, targetedJump.
  cbn [advDx advDy nmul nadd Math_sqrt]. rewrite Hratio.
  rewrite maxPerturbation_fin by lra.
  unfold ngt at 1. cbn [nlt].
  apply run_ok_ret. cbn [store set_store entropy].
  rewrite length_app. cbn [length]. rewrite Nat.add_1_r.
  rewrite <- app_assoc. repeat split; reflexivity.
Qed.

(** A step whose proposal is four [NaN]s returns two positions of
    [NaN]s: [Math.max] and [Math.min] keep [NaN]. *)
Lemma simulateStep_nan defender adversary gridloc g rows cols pd pa d a w :
  nth_error (store w) defender = Some (OPos pd) ->
  nth_error (store w) adversary = Some (OPos pa) ->
  nth_error (store w) gridloc = Some (OGrid g) ->
  shape rows cols g -> (1 <= rows)%nat -> 0 < d -> a <= d ->
  run_ok (proposeMoves defender adversary gridloc (Fin d) (Fin a)) w
         (fun p w' => only_draws w w' /\ p = mkProposal NaN NaN NaN NaN) ->
  run_ok (simulateStep defender adversary gridloc (Fin d) (Fin a)) w
    (fun r w' =>
       r = (length (store w), S (length (store w))) /\
       store w' = store w ++ [OPos (mkPos NaN NaN); OPos (mkPos NaN NaN)]).
Proof.
  intros Hdef Hadv Hg Hs Hr Hd Ha Hp. unfold simulateStep.
  eapply run_ok_step; [exact Hp|]. intros p w1 [Hw1 ->].
  assert (Hst1 : store w1 = store w) by apply Hw1.
  eapply run_ok_step.
  { apply (applyMoves_nan defender adversary pd pa); try assumption;
      rewrite Hst1; assumption. }
  intros [nd na] w2 (Er & _ & Hst2). inversion Er; subst nd na. clear Er.
  rewrite Hst1 in *.
  eapply run_ok_weaken.
  { apply (keepWithinBounds_ok (store w) gridloc g rows cols
             (mkPos NaN NaN) (mkPos NaN NaN) w2); eassumption. }
  intros r w3 (-> & _ & Hs3). split; [reflexivity|exact Hs3].
Qed.



(* ================================================================= *)
(** ** The step leaves its arguments alone *)

Lemma run_if_step {A B} (m : M A) (k : A -> M B) w
      (P : A -> world -> Prop) (Q : B -> world -> Prop) :
  run_if m w P ->
  (forall a w', P a w' -> run_if (k a) w' Q) ->
  run_if (bind m k) w Q.
Proof.
  unfold run_if, bind. intros Hm Hk b w2 H.
  destruct (m w) as [a w1|e] eqn:E; [|discriminate].
  eapply Hk; [apply Hm; reflexivity|exact H].
Qed.

Lemma run_if_ret {A} (a : A) w (Q : A -> world -> Prop) :
  Q a w -> run_if (ret a) w Q.
Proof. unfold run_if, ret. intros H b w' E. now inversion E; subst. Qed.

Lemma run_if_of_ok {A} (m : M A) w (Q : A -> world -> Prop) :
  run_ok m w Q -> run_if m w Q.
Proof. unfold run_ok, run_if. intros H a w' E. now rewrite E in H. Qed.

Lemma run_if_quiet {A} (m : M A) w :
  quiet m -> run_if m w (fun _ w' => store w' = store w).
Proof. intros H a w' E. eapply H. exact E. Qed.

Lemma quiet_ret {A} (a : A) : quiet (ret a).
Proof. intros w b w' E. now inversion E. Qed.

Lemma quiet_throw {A} e : quiet (@throw A e).
Proof. intros w b w' E. discriminate. Qed.

Lemma quiet_bind {A B} (m : M A) (k : A -> M B) :
  quiet m -> (forall a, quiet (k a)) -> quiet (bind m k).
Proof.
  unfold quiet, bind. intros Hm Hk w b w2 E.
  destruct (m w) as [a w1|e] eqn:E1; [|discriminate].
  rewrite (Hk _ _ _ _ E). eapply Hm. exact E1.
Qed.

Lemma quiet_Math_random : quiet Math_random.
Proof. intros w a w' E. inversion E. reflexivity. Qed.

Lemma quiet_load_pos l : quiet (load_pos l).
Proof.
  intros w a w' E. unfold load_pos in E.
  destruct (nth_error (store w) l) as [[p|g]|]; inversion E. reflexivity.
Qed.

Lemma quiet_load_grid l : quiet (load_grid l).
Proof.
  intros w a w' E. unfold load_grid in E.
  destruct (nth_error (store w) l) as [[p|g]|]; inversion E. reflexivity.
Qed.

Create HintDb quiet.

#[local] Hint Resolve quiet_ret quiet_throw quiet_Math_random
  quiet_load_pos quiet_load_grid : quiet.

(** A sequence of binds is quiet when each of its steps is. *)
Ltac quiet_binds :=
  repeat (apply quiet_bind; [auto with quiet|intros ?]); auto with quiet.

Lemma quiet_get_x l : quiet (get_x l).
Proof. unfold get_x. quiet_binds. Qed.

Lemma quiet_get_y l : quiet (get_y l).
Proof. unfold get_y. quiet_binds. Qed.

Lemma quiet_row0_length g : quiet (row0_length g).
Proof. destruct g; simpl; auto with quiet. Qed.

Lemma quiet_read2_num g i j : quiet (read2_num g i j).
Proof.
  unfold read2_num. destruct (index_of i); [|auto with quiet].
  destruct (nth_error g n); auto with quiet.
Qed.

Lemma quiet_boxMullerTransform : quiet boxMullerTransform.
Proof. unfold boxMullerTransform. quiet_binds. Qed.

#[local] Hint Resolve quiet_get_x quiet_get_y quiet_row0_length
  quiet_read2_num quiet_boxMullerTransform : quiet.

Lemma quiet_calculateGradient g x y nl : quiet (calculateGradient g x y nl).
Proof.
  unfold calculateGradient. quiet_binds.
  destruct (nl >? Fin 0)%js; quiet_binds.
Qed.

#[local] Hint Resolve quiet_calculateGradient : quiet.

Lemma quiet_proposeMoves defender adversary gridloc dS aS :
  quiet (proposeMoves defender adversary gridloc dS aS).
Proof. unfold proposeMoves. quiet_binds. Qed.

Lemma set_x_two_more st v w :
  two_more st w -> run_if (set_x (S (length st)) v) w (fun _ => two_more st).
Proof.
  intros (p1 & p2 & H). apply run_if_of_ok.
  eapply run_ok_weaken; [apply set_x_second; exact H|].
  intros _ w' [_ H']. do 2 eexists. exact H'.
Qed.

Lemma set_y_two_more st v w :
  two_more st w -> run_if (set_y (S (length st)) v) w (fun _ => two_more st).
Proof.
  intros (p1 & p2 & H). apply run_if_of_ok.
  eapply run_ok_weaken; [apply set_y_second; exact H|].
  intros _ w' [_ H']. do 2 eexists. exact H'.
Qed.

Lemma set_x_first_two_more st v w :
  two_more st w -> run_if (set_x (length st) v) w (fun _ => two_more st).
Proof.
  intros (p1 & p2 & H). apply run_if_of_ok.
  eapply run_ok_weaken; [apply set_x_first; exact H|].
  intros _ w' [_ H']. do 2 eexists. exact H'.
Qed.

Lemma set_y_first_two_more st v w :
  two_more st w -> run_if (set_y (length st) v) w (fun _ => two_more st).
Proof.
  intros (p1 & p2 & H). apply run_if_of_ok.
  eapply run_ok_weaken; [apply set_y_first; exact H|].
  intros _ w' [_ H']. do 2 eexists. exact H'.
Qed.

Lemma quiet_two_more {A} (m : M A) st w :
  quiet m -> two_more st w -> run_if m w (fun _ => two_more st).
Proof.
  intros Hq (p1 & p2 & H) a w' E. exists p1, p2.
  rewrite (Hq _ _ _ E). exact H.
Qed.

Ltac quiet_step H :=
  eapply run_if_step; [apply quiet_two_more; [|exact H]|];
  [|let a := fresh "a" in let w := fresh "w" in
    clear H; intros a w H; cbv beta in H].

Lemma perturbationBudget_frame st adversary p mx w :
  two_more st w ->
  run_if (perturbationBudget adversary (S (length st)) p mx) w
         (fun _ => two_more st).
Proof.
  intros H. unfold perturbationBudget. cbv zeta.
  destruct (_ >? mx)%js; [|now apply run_if_ret].
  quiet_step H; [apply quiet_get_x|].
  eapply run_if_step; [apply set_x_two_more; exact H|].
  clear H. intros ? ? H. cbv beta in H.
  quiet_step H; [apply quiet_get_y|].
  apply set_y_two_more; exact H.
Qed.

Lemma targetedJump_frame st defender adversary r mx w :
  two_more st w ->
  run_if (targetedJump defender adversary (S (length st)) r mx) w
         (fun _ => two_more st).
Proof.
  intros H. unfold targetedJump.
  destruct (r >? Fin 1)%js; [|now apply run_if_ret].
  quiet_step H; [apply quiet_Math_random|].
  destruct (_ <? Fin 0.08)%js; [|now apply run_if_ret].
  cbv zeta.
  quiet_step H; [apply quiet_get_x|].
  quiet_step H; [apply quiet_get_x|].
  quiet_step H; [apply quiet_get_y|].
  quiet_step H; [apply quiet_get_y|].
  destruct (_ >? Fin 0)%js; [|now apply run_if_ret].
  quiet_step H; [apply quiet_get_x|].
  eapply run_if_step; [apply set_x_two_more; exact H|].
  clear H. intros ? ? H. cbv beta in H.
  quiet_step H; [apply quiet_get_y|].
  apply set_y_two_more; exact H.
Qed.

Lemma applyMoves_frame defender adversary p dS aS w :
  run_if (applyMoves defender adversary p dS aS) w
    (fun r w' => r = (length (store w), S (length (store w))) /\
                 two_more (store w) w').
Proof.
  unfold applyMoves. cbv zeta.
  eapply run_if_step; [apply run_if_quiet, quiet_get_x|]. intros x w1 H1.
  eapply run_if_step; [apply run_if_quiet, quiet_get_y|]. intros y w2 H2.
  rewrite H1 in H2. clear H1.
  unfold run_if, bind at 1, alloc at 1.
  revert H2. generalize w2. clear w2. intros w2 H2.
  eapply run_if_step; [apply run_if_quiet, quiet_get_x|]. intros x' w3 H3.
  eapply run_if_step; [apply run_if_quiet, quiet_get_y|]. intros y' w4 H4.
  rewrite H3 in H4. clear H3. cbn [store set_store] in H4.
  unfold run_if, bind at 1, alloc at 1. rewrite H4, H2.
  rewrite length_app. cbn [length]. rewrite Nat.add_1_r.
  assert (H : two_more (store w)
                (set_store w4 ((store w ++ [OPos (mkPos (x + defDx p)
                                                        (y + defDy p))%js])
                               ++ [OPos (mkPos (x' + advDx p)
                                               (y' + advDy p))%js]))).
  { do 2 eexists. cbn [store set_store]. rewrite <- app_assoc. reflexivity. }
  revert H. generalize (set_store w4
     ((store w ++ [OPos (mkPos (x + defDx p) (y + defDy p))%js])
      ++ [OPos (mkPos (x' + advDx p) (y' + advDy p))%js])).
  intros w5 H.
  eapply run_if_step; [apply perturbationBudget_frame; exact H|].
  clear H. intros ? ? H. cbv beta in H.
  eapply run_if_step; [apply targetedJump_frame; exact H|].
  clear H. intros ? ? H. cbv beta in H.
  apply run_if_ret. now split.
Qed.

Lemma keepWithinBounds_frame st gridloc w :
  two_more st w ->
  run_if (keepWithinBounds gridloc (length st) (S (length st))) w
         (fun r w' => r = (length st, S (length st)) /\ two_more st w').
Proof.
  intros H. unfold keepWithinBounds.
  quiet_step H; [apply quiet_load_grid|].
  quiet_step H; [apply quiet_row0_length|]. cbv zeta.
  quiet_step H; [apply quiet_get_x|].
  eapply run_if_step; [apply set_x_first_two_more; exact H|].
  clear H. intros ? ? H. cbv beta in H.
  quiet_step H; [apply quiet_get_y|].
  eapply run_if_step; [apply set_y_first_two_more; exact H|].
  clear H. intros ? ? H. cbv beta in H.
  quiet_step H; [apply quiet_get_x|].
  eapply run_if_step; [apply set_x_two_more; exact H|].
  clear H. intros ? ? H. cbv beta in H.
  quiet_step H; [apply quiet_get_y|].
  eapply run_if_step; [apply set_y_two_more; exact H|].
  clear H. intros ? ? H. cbv beta in H.
  apply run_if_ret. now split.
Qed.

(** C10.  [simulateStep] assigns to the two position objects it creates
    only: whenever a call returns, whatever its arguments, every object that
    was in the store is unchanged (in particular both input positions and
    the grid), and the two positions returned are new objects, created by
    the call and distinct from one another. *)
Theorem simulateStep_frame
    (defender adversary gridloc : loc) (defenseStrength attackStrength : number)
    (w w' : world) (nd na : loc) :
  simulateStep defender adversary gridloc defenseStrength attackStrength w
  = Returns (nd, na) w' ->
  (forall l, (l < length (store w))%nat ->
             nth_error (store w') l = nth_error (store w) l) /\
  nd = length (store w) /\ na = S (length (store w)) /\
  exists pd' pa',
    nth_error (store w') nd = Some (OPos pd') /\
    nth_error (store w') na = Some (OPos pa').
Proof.
  intros Hrun.
  assert (H : run_if
            (simulateStep defender adversary gridloc
                          defenseStrength attackStrength) w
            (fun r w' => r = (length (store w), S (length (store w))) /\
                         two_more (store w) w')).
  { unfold simulateStep.
    eapply run_if_step; [apply run_if_quiet, quiet_proposeMoves|].
    intros p w1 H1.
    eapply run_if_step; [apply applyMoves_frame|].
    intros [nd' na'] w2 [Er H2]. inversion Er; subst nd' na'. clear Er.
    rewrite H1 in *. now apply keepWithinBounds_frame. }
  destruct (H _ _ Hrun) as [Er (pd' & pa' & Hst)].
  inversion Er; subst nd na. clear Er.
  split; [|split; [reflexivity|split; [reflexivity|]]].
  - intros l Hl. rewrite Hst. now apply nth_error_app1.
  - exists pd', pa'. rewrite Hst.
    split; [apply nth_error_first|apply nth_error_second].
Qed.

Lemma simulateStep_frame_witness :
  exists nd na w',
    simulateStep 0%nat 1%nat 2%nat (Fin 5) (Fin 5) scenario_world
    = Returns (nd, na) w' /\
    (forall l, (l < length (store scenario_world))%nat ->
               nth_error (store w') l = nth_error (store scenario_world) l) /\
    nd = length (store scenario_world) /\
    na = S (length (store scenario_world)) /\
    exists pd' pa',
      nth_error (store w') nd = Some (OPos pd') /\
      nth_error (store w') na = Some (OPos pa').
Proof.
  destruct (run_ok_returns _ _ _
              (simulateStep_ok 0%nat 1%nat 2%nat (flat_grid 20 20 0.5) 20 20
                 5 14 14 5 5 5 scenario_world eq_refl eq_refl eq_refl
                 scenario_flat_shape
                 three_le_twenty
                 three_le_twenty
                 scenario_flat_finite Rlt_0_5 (Rlt_le _ _ Rlt_0_5)
                 (zero_free_half _)))
    as ([nd na] & w' & Hrun & _).
  exists nd, na, w'. split; [exact Hrun|].
  exact (simulateStep_frame 0%nat 1%nat 2%nat (Fin 5) (Fin 5)
           scenario_world w' nd na Hrun).
Defined.

(* ================================================================= *)
(** ** A flat landscape *)

Lemma gradient_at_flat rows cols c gdx gdy :
  gradient_at rows cols (flat_grid rows cols c) (mkGrad (Fin gdx) (Fin gdy)) ->
  gdx = 0 /\ gdy = 0.
Proof.
  intros (i & j & e & wv & s & n & t1 & t2 & Hint & He & Hw & Hso & Hn & E).
  destruct Hint as (Hi1 & Hi2 & Hj1 & Hj2).
  rewrite peek_flat_grid in He, Hw, Hso, Hn by lia.
  assert (Ee : e = c) by congruence. assert (Ew : wv = c) by congruence.
  assert (Es : s = c) by congruence. assert (En : n = c) by congruence.
  subst e wv s n. inversion E as [[Ex Ey]].
  replace ((c - c) / 2) with 0 by lra.
  rewrite Rabs_R0. split; lra.
Qed.

(** On a grid whose cells are all equal, the noise-free gradient at a
    point of the board is [(0, 0)]; when the uniform source never returns
    [0], the displacement proposed for the defender in a step is [(0, 0)]
    whatever the noise samples are, and the defender returned is where the
    defender was. *)
Lemma flat_grid_defender_stays
    (defender adversary gridloc : loc) (rows cols : nat)
    (c xd yd xa ya d a : R) (w : world) :
  nth_error (store w) defender = Some (OPos (mkPos (Fin xd) (Fin yd))) ->
  nth_error (store w) adversary = Some (OPos (mkPos (Fin xa) (Fin ya))) ->
  nth_error (store w) gridloc = Some (OGrid (flat_grid rows cols c)) ->
  (3 <= rows)%nat -> (3 <= cols)%nat ->
  0 <= xd <= INR cols - 1 -> 0 <= yd <= INR rows - 1 ->
  0 < d -> 0 < a -> zero_free w ->
  calculateGradient (flat_grid rows cols c) (Fin xd) (Fin yd) (Fin 0) w
  = Returns (mkGrad (Fin 0) (Fin 0)) w /\
  (exists p w1,
      proposeMoves defender adversary gridloc (Fin d) (Fin a) w
      = Returns p w1 /\
      defDx p = Fin 0 /\ defDy p = Fin 0) /\
  (exists nd na w',
      simulateStep defender adversary gridloc (Fin d) (Fin a) w
      = Returns (nd, na) w' /\
      nth_error (store w') nd = Some (OPos (mkPos (Fin xd) (Fin yd)))).
Proof.
  intros Hdef Hadv Hg Hr Hc Hx Hy Hd Ha Hz.
  assert (Hs := flat_grid_shape rows cols c).
  assert (Hfin : all_cells finite (flat_grid rows cols c))
    by (apply flat_grid_cells; exact I).
  split; [|split].
  - destruct (run_ok_returns _ _ _
                (calculateGradient_ok rows cols _ xd yd 0 w Hs Hr Hc Hfin Hz))
      as (gr & w' & Hrun & _ & Hgr & Hw').
    rewrite Hrun. rewrite (Hw' (Rle_refl 0)).
    destruct (gradient_at_fin _ _ _ _ Hgr) as (gdx & gdy & ->).
    destruct (gradient_at_flat _ _ _ _ _ Hgr) as [-> ->]. reflexivity.
  - destruct (run_ok_returns _ _ _
                (proposeMoves_ok defender adversary gridloc _ rows cols
                   _ _ d a w Hdef Hadv Hg Hs Hr Hc Hfin
                   (conj I I) (conj I I) Hd Hz))
      as (p & w1 & Hrun1 & _ & gdx & gdy & gax & gay & Hgd & _ & Hp).
    destruct Hp as (Hp1 & Hp2 & _).
    destruct (gradient_at_flat _ _ _ _ _ Hgd) as [-> ->].
    exists p, w1. split; [exact Hrun1|].
    rewrite Hp1, Hp2. split; f_equal; lra.
  - destruct (run_ok_returns _ _ _
                (simulateStep_ok defender adversary gridloc _ rows cols
                   xd yd xa ya d a w Hdef Hadv Hg Hs Hr Hc Hfin Hd
                   (Rlt_le _ _ Ha) Hz))
      as (r & w' & Hrun & -> & _ & gdx & gdy & ax' & ay' & Hgd & Hst).
    destruct (gradient_at_flat _ _ _ _ _ Hgd) as [-> ->].
    do 3 eexists. split; [exact Hrun|]. rewrite Hst, nth_error_first.
    replace (xd + - 0 * (0.02 * d / (0.1 + norm 0 0))) with xd by lra.
    replace (yd + - 0 * (0.02 * d / (0.1 + norm 0 0))) with yd by lra.
    now rewrite clampToBoard_fixes.
Qed.

Lemma flat_grid_defender_stays_witness :
  calculateGradient (flat_grid 20 20 0.5) (Fin 5) (Fin 14) (Fin 0)
                    scenario_world
  = Returns (mkGrad (Fin 0) (Fin 0)) scenario_world /\
  (exists p w1,
      proposeMoves 0%nat 1%nat 2%nat (Fin 5) (Fin 5) scenario_world
      = Returns p w1 /\
      defDx p = Fin 0 /\ defDy p = Fin 0) /\
  (exists nd na w',
      simulateStep 0%nat 1%nat 2%nat (Fin 5) (Fin 5) scenario_world
      = Returns (nd, na) w' /\
      nth_error (store w') nd = Some (OPos (mkPos (Fin 5) (Fin 14)))).
Proof.
  apply (flat_grid_defender_stays 0%nat 1%nat 2%nat 20 20 0.5 5 14 14 5 5 5
           scenario_world);
    try reflexivity; try lia; try (simpl; lra).
  apply zero_free_half.
Defined.

(* ================================================================= *)
(** ** A flat landscape at a zero draw *)

Lemma all_zero_only_draws w w' : only_draws w w' -> all_zero w -> all_zero w'.
Proof. unfold all_zero. intros [-> _] H. exact H. Qed.

(** With a source that returns [0] the sample is [Infinity]. *)
Lemma boxMullerTransform_all_zero w :
  all_zero w ->
  run_ok boxMullerTransform w (fun z w' => z = PInf /\ only_draws w w').
Proof.
  intros Hz. unfold boxMullerTransform.
  eapply run_ok_step; [apply Math_random_ok|]. intros u1 w1 [-> H1].
  eapply run_ok_step; [apply Math_random_ok|]. intros u2 w2 [-> H2].
  apply run_ok_ret. split; [|eapply only_draws_trans; eassumption].
  rewrite Hz, (all_zero_only_draws _ _ H1 Hz).
  unfold Math_log. decide_reals. cbn [nmul Math_sqrt].
  unfold scale_inf. decide_reals. cbn [nneg Math_sqrt Math_PI nmul Math_cos].
  replace (2.0 * PI * 0) with 0 by lra. rewrite cos_0.
  unfold scale_inf. decide_reals. reflexivity.
Qed.

(** On a grid whose cells are all equal both central differences are [0]:
    what the estimator returns is decided by the noise alone. *)
Lemma calculateGradient_flat rows cols c x y nl w :
  (3 <= rows)%nat -> (3 <= cols)%nat ->
  calculateGradient (flat_grid rows cols c) (Fin x) (Fin y) (Fin nl) w
  = (if (Fin nl >? Fin 0)%js then
       z1 <- boxMullerTransform ;;
       z2 <- boxMullerTransform ;;
       ret (mkGrad (Fin 0 + z1 * Fin nl * Fin 0)%js
                   (Fin 0 + z2 * Fin nl * Fin 0)%js)
     else ret (mkGrad (Fin 0) (Fin 0))) w.
Proof.
  intros Hr Hc. assert (Hs := flat_grid_shape rows cols c).
  unfold calculateGradient. unfold bind at 1.
  rewrite (row0_length_shape rows cols _ Hs) by lia. cbv beta zeta.
  replace (length (flat_grid rows cols c)) with rows by (symmetry; apply Hs).
  rewrite !of_nat_minus.
  destruct (clamped_floor y 1 (Z.of_nat rows - 2)) as (zr & Hzr & ->); [lia|].
  destruct (clamped_floor x 1 (Z.of_nat cols - 2)) as (zc & Hzc & ->); [lia|].
  rewrite !fin_plus_IZR, !fin_minus_IZR.
  unfold bind at 1. rewrite (read2_num_eq rows cols) by (assumption || lia).
  unfold bind at 1. rewrite (read2_num_eq rows cols) by (assumption || lia).
  unfold bind at 1. rewrite (read2_num_eq rows cols) by (assumption || lia).
  unfold bind at 1. rewrite (read2_num_eq rows cols) by (assumption || lia).
  rewrite !peek_flat_grid by lia. fin_arith. rewrite !ndiv_fin by lra.
  fin_arith. replace ((c + - c) / 2) with 0 by lra. rewrite Rabs_R0.
  reflexivity.
Qed.

(** [Infinity * noiseLevel * |0|] is [NaN]: at a zero draw both components
    of the noisy gradient of a flat grid are [NaN]. *)
Lemma calculateGradient_flat_all_zero rows cols c x y nl w :
  (3 <= rows)%nat -> (3 <= cols)%nat -> 0 < nl -> all_zero w ->
  run_ok (calculateGradient (flat_grid rows cols c) (Fin x) (Fin y) (Fin nl)) w
         (fun gr w' => only_draws w w' /\ gr = mkGrad NaN NaN).
Proof.
  intros Hr Hc Hnl Hz. unfold run_ok at 1.
  rewrite calculateGradient_flat by assumption.
  rewrite (proj2 (ngt_fin nl 0) Hnl).
  change (run_ok (z1 <- boxMullerTransform ;;
                  z2 <- boxMullerTransform ;;
                  ret (mkGrad (Fin 0 + z1 * Fin nl * Fin 0)%js
                              (Fin 0 + z2 * Fin nl * Fin 0)%js)) w
                 (fun gr w' => only_draws w w' /\ gr = mkGrad NaN NaN)).
  eapply run_ok_step; [apply boxMullerTransform_all_zero; assumption|].
  intros z1 w1 [-> Hw1].
  eapply run_ok_step.
  { apply boxMullerTransform_all_zero.
    eapply all_zero_only_draws; eassumption. }
  intros z2 w2 [-> Hw2].
  apply run_ok_ret. split; [eapply only_draws_trans; eassumption|].
  cbn [nmul]. unfold scale_inf. decide_reals. cbn [nmul].
  unfold scale_inf. decide_reals. reflexivity.
Qed.

Lemma proposeMoves_flat_all_zero
      defender adversary gridloc rows cols c xd yd xa ya d a w :
  nth_error (store w) defender = Some (OPos (mkPos (Fin xd) (Fin yd))) ->
  nth_error (store w) adversary = Some (OPos (mkPos (Fin xa) (Fin ya))) ->
  nth_error (store w) gridloc = Some (OGrid (flat_grid rows cols c)) ->
  (3 <= rows)%nat -> (3 <= cols)%nat -> 0 < d -> all_zero w ->
  run_ok (proposeMoves defender adversary gridloc (Fin d) (Fin a)) w
         (fun p w' => only_draws w w' /\ p = mkProposal NaN NaN NaN NaN).
Proof.
  intros Hdef Hadv Hg Hr Hc Hd Hz.
  unfold proposeMoves. rewrite strengthRatio_fin by lra. cbv zeta.
  eapply run_ok_step; [apply load_grid_ok; eassumption|].
  intros g0 w0 [-> ->].
  eapply run_ok_step; [eapply get_x_ok; eassumption|]. intros x w0 [-> ->].
  eapply run_ok_step; [eapply get_y_ok; eassumption|]. intros y w0 [-> ->].
  cbn [pos_x pos_y].
  eapply run_ok_step.
  { assert (Hnl : exists nl, 0 < nl /\
              (if (Fin (a / d) >? Fin 1)%js then Fin 0.08 else Fin 0.05) = Fin nl)
      by (destruct (Fin (a / d) >? Fin 1)%js; eexists; (split; [|reflexivity]);
          lra).
    destruct Hnl as (nl & Hnl & ->).
    apply calculateGradient_flat_all_zero; assumption. }
  intros gd w1 (Hw1 & ->).
  eapply run_ok_step.
  { apply load_grid_ok. rewrite (only_draws_lookup _ _ _ Hw1). eassumption. }
  intros g0 w0 [-> ->].
  eapply run_ok_step.
  { eapply get_x_ok. rewrite (only_draws_lookup _ _ _ Hw1). eassumption. }
  intros x w0 [-> ->].
  eapply run_ok_step.
  { eapply get_y_ok. rewrite (only_draws_lookup _ _ _ Hw1). eassumption. }
  intros y w0 [-> ->]. cbn [pos_x pos_y].
  eapply run_ok_step.
  { assert (Hnl : exists nl, 0 < nl /\
              (if (Fin (a / d) >? Fin 1)%js then Fin 0.04 else Fin 0.08) = Fin nl)
      by (destruct (Fin (a / d) >? Fin 1)%js; eexists; (split; [|reflexivity]);
          lra).
    destruct Hnl as (nl & Hnl & ->).
    apply calculateGradient_flat_all_zero; try assumption.
    eapply all_zero_only_draws; eassumption. }
  intros ga w2 (Hw2 & ->).
  apply run_ok_ret. split; [eapply only_draws_trans; eassumption|].
  cbn [grad_dx grad_dy nmul nadd nneg Math_sqrt ndiv].
  destruct (Fin (a / d) >? Fin 1)%js; reflexivity.
Qed.

(** C9.  On the flat grid of the scenario the noise-free gradient at
    [(5,14)] is [(0, 0)].  In a step the gradient noise is the sample times
    [noiseLevel * |0|]: when the uniform source returns [0] the sample is
    [Infinity] (nothing keeps [u1] away from [0]), the product is [NaN],
    the displacement proposed for the defender is [(NaN, NaN)] and the
    defender returned is at [(NaN, NaN)], not where the defender was. *)
Theorem flat_grid_zero_draw :
  uniform_source zero_draw_scenario /\
  calculateGradient (flat_grid 20 20 0.5) (Fin 5) (Fin 14) (Fin 0)
                    zero_draw_scenario
  = Returns (mkGrad (Fin 0) (Fin 0)) zero_draw_scenario /\
  (exists p w1,
      proposeMoves 0%nat 1%nat 2%nat (Fin 5) (Fin 5) zero_draw_scenario
      = Returns p w1 /\
      defDx p = NaN /\ defDy p = NaN) /\
  (exists nd na w',
      simulateStep 0%nat 1%nat 2%nat (Fin 5) (Fin 5) zero_draw_scenario
      = Returns (nd, na) w' /\
      nth_error (store w') nd = Some (OPos (mkPos NaN NaN))).
Proof.
  assert (Hz : all_zero zero_draw_scenario) by (intros n; reflexivity).
  assert (Hp := proposeMoves_flat_all_zero 0%nat 1%nat 2%nat 20 20 0.5
                  5 14 14 5 5 5 zero_draw_scenario eq_refl eq_refl eq_refl
                  ltac:(lia) ltac:(lia) ltac:(lra) Hz).
  split; [|split; [|split]].
  - intros n. simpl. lra.
  - rewrite calculateGradient_flat by lia.
    rewrite (proj2 (ngt_fin_false 0 0)) by lra. reflexivity.
  - destruct (run_ok_returns _ _ _ Hp) as (p & w1 & Hrun & _ & ->).
    exists (mkProposal NaN NaN NaN NaN), w1. now repeat split.
  - destruct (run_ok_returns _ _ _
                (simulateStep_nan 0%nat 1%nat 2%nat _ 20 20 _ _ 5 5
                   zero_draw_scenario eq_refl eq_refl eq_refl
                   (flat_grid_shape 20 20 0.5) ltac:(lia) ltac:(lra)
                   ltac:(lra) Hp))
      as (r & w' & Hrun & -> & Hst).
    do 3 eexists. split; [exact Hrun|]. rewrite Hst. reflexivity.
Qed.


(* ================================================================= *)
(** * Further properties of the engine *)

(* ================================================================= *)
(** ** The smoothing pass: range, fixed points, small grids *)

Lemma gibbsUpdate_between lo hi u d l r c :
  between lo hi u -> between lo hi d -> between lo hi l ->
  between lo hi r -> between lo hi c ->
  between lo hi (gibbsUpdate u d l r c).
Proof.
  intros Hu Hd Hl Hr Hc.
  apply between_inv in Hu, Hd, Hl, Hr, Hc.
  destruct Hu as (u' & -> & Hu), Hd as (d' & -> & Hd), Hl as (l' & -> & Hl),
           Hr as (r' & -> & Hr), Hc as (c' & -> & Hc).
  rewrite gibbsUpdate_fin. simpl.
  set (avg := (u' + d' + l' + r') / 4).
  assert (Havg : lo <= avg <= hi) by (unfold avg; lra).
  assert (Hw := exp_nonpos_le_1 (- Rabs (c' - avg) / 0.2)).
  set (wt := exp (- Rabs (c' - avg) / 0.2)) in *.
  assert (Hw' : 0 < wt <= 1).
  { apply Hw. assert (H := Rabs_pos (c' - avg)). lra. }
  nra.
Qed.

Lemma between_finite lo hi g : all_cells (between lo hi) g -> all_cells finite g.
Proof.
  unfold all_cells. intros H. eapply Forall_impl; [|exact H].
  intros row Hrow. eapply Forall_impl; [|exact Hrow].
  intros x Hx. destruct x; simpl in *; tauto.
Qed.

Lemma gibbsSmoothingPass_range rows cols g iterations lo hi w :
  shape rows cols g -> (1 <= rows)%nat -> all_cells (between lo hi) g ->
  run_ok (gibbsSmoothingPass g iterations) w
    (fun g' w' =>
       w' = w /\ shape rows cols g' /\ all_cells (between lo hi) g').
Proof.
  intros Hs Hr Hb.
  apply gibbsSmoothingPass_invariant;
    [apply gibbsUpdate_between|assumption|assumption|].
  now rewrite (json_copy_finite g (between_finite lo hi g Hb)).
Qed.

(** A grid of the given shape whose cells all equal [c] is the flat grid. *)
Lemma flat_grid_unique rows cols c g :
  shape rows cols g -> all_cells (between c c) g -> g = flat_grid rows cols c.
Proof.
  intros [Hr Hc] Hb. unfold flat_grid. subst rows.
  induction g as [|row g IH]; [reflexivity|].
  inversion Hc as [|? ? Hrow Hc']; subst. inversion Hb as [|? ? Brow Hb']; subst.
  cbn [length repeat]. f_equal; [|now apply IH].
  clear - Brow. induction row as [|x row IH]; [reflexivity|].
  inversion Brow as [|? ? Hx Brow']; subst. cbn [length repeat].
  f_equal; [|now apply IH].
  destruct x; simpl in Hx; try contradiction. f_equal. lra.
Qed.

(** X1.  Smoothing creates no new extreme value: when every cell of a grid
    with at least one row lies in [[lo, hi]], so does every cell of the
    result, after any number of passes; the shape is kept and no random
    number is drawn. *)
Theorem gibbsSmoothingPass_keeps_range
    (rows cols : nat) (g : grid) (iterations : nat) (lo hi : R) (w : world) :
  shape rows cols g -> (1 <= rows)%nat -> all_cells (between lo hi) g ->
  exists g',
    gibbsSmoothingPass g iterations w = Returns g' w /\
    shape rows cols g' /\ all_cells (between lo hi) g'.
Proof.
  intros Hs Hr Hb.
  destruct (run_ok_returns _ _ _
              (gibbsSmoothingPass_range rows cols g iterations lo hi w Hs Hr Hb))
    as (g' & w' & Hrun & -> & Hs' & Hb').
  now exists g'.
Qed.

Lemma gibbsSmoothingPass_keeps_range_witness :
  exists g',
    gibbsSmoothingPass spike_grid 2 (half_world []) = Returns g' (half_world [])
    /\ shape 3 4 g' /\ all_cells (between 0 1) g'.
Proof.
  apply gibbsSmoothingPass_keeps_range; [apply spike_grid_shape|lia|].
  unfold all_cells, spike_grid.
  repeat (constructor; try (simpl; lra)).
Defined.

(** X2.  A constant grid is a fixed point of the smoothing pass, for any
    number of passes. *)
Theorem gibbsSmoothingPass_flat
    (rows cols : nat) (c : R) (iterations : nat) (w : world) :
  (1 <= rows)%nat ->
  gibbsSmoothingPass (flat_grid rows cols c) iterations w
  = Returns (flat_grid rows cols c) w.
Proof.
  intros Hr.
  destruct (run_ok_returns _ _ _
              (gibbsSmoothingPass_range rows cols (flat_grid rows cols c)
                 iterations c c w (flat_grid_shape rows cols c) Hr
                 (flat_grid_cells (between c c) rows cols c
                    (conj (Rle_refl c) (Rle_refl c)))))
    as (g' & w' & Hrun & -> & Hs' & Hb').
  rewrite Hrun. f_equal. now apply flat_grid_unique.
Qed.

Lemma gibbsSmoothingPass_flat_witness :
  gibbsSmoothingPass (flat_grid 20 20 0.5) 3 (half_world [])
  = Returns (flat_grid 20 20 0.5) (half_world []).
Proof. apply gibbsSmoothingPass_flat. lia. Defined.

(** X3.  A grid with fewer than three rows or fewer than three columns has
    no interior cell: whatever the number of passes, the result is the JSON
    copy of the argument, in which a cell that is not a real reads as 0. *)
Theorem gibbsSmoothingPass_no_interior
    (rows cols : nat) (g : grid) (iterations : nat) (w : world) :
  shape rows cols g -> (1 <= rows)%nat -> (rows < 3 \/ cols < 3)%nat ->
  gibbsSmoothingPass g iterations w = Returns (json_copy g) w.
Proof.
  intros Hs Hr Hsmall. unfold gibbsSmoothingPass, bind.
  rewrite (row0_length_shape rows cols g Hs w Hr).
  replace (length g) with rows by (symmetry; apply Hs).
  apply for_each_skip. intros _ sg w0 _.
  destruct Hsmall as [H | H].
  - replace (rows - 2)%nat with O by lia. reflexivity.
  - apply for_each_skip. intros i sg1 w1 _.
    replace (cols - 2)%nat with O by lia. reflexivity.
Qed.

Lemma gibbsSmoothingPass_no_interior_witness :
  gibbsSmoothingPass [[Fin 1; NaN]; [PInf; Fin 0]] 4 (half_world [])
  = Returns [[Fin 1; Fin 0]; [Fin 0; Fin 0]] (half_world []).
Proof.
  apply (gibbsSmoothingPass_no_interior 2 2); [|lia|lia].
  split; [reflexivity|]. repeat constructor.
Defined.

(* ================================================================= *)
(** ** The standard-normal generator away from the zero draw *)

(** X4.  [boxMullerTransform] makes exactly two draws. When the first is
    positive the sample is the real [sqrt (-2 ln u1) * cos (2 PI u2)], of
    absolute value at most [sqrt (-2 ln u1)]. *)
Theorem boxMullerTransform_two_draws (w : world) :
  0 < entropy w (drawn w) < 1 ->
  exists z,
    boxMullerTransform w
    = Returns (Fin z) (mkWorld (entropy w) (S (S (drawn w))) (store w)) /\
    z = sqrt (-2 * ln (entropy w (drawn w)))
        * cos (2 * PI * entropy w (S (drawn w))) /\
    Rabs z <= sqrt (-2 * ln (entropy w (drawn w))).
Proof.
  intros [H0 H1].
  set (u1 := entropy w (drawn w)) in *.
  assert (Hln : ln u1 < 0).
  { rewrite <- ln_1. apply ln_increasing; lra. }
  exists (sqrt (-2 * ln u1) * cos (2 * PI * entropy w (S (drawn w)))).
  split; [|split; [reflexivity|]].
  - unfold boxMullerTransform, bind, Math_random, ret. cbn [entropy drawn store].
    fold u1. unfold Math_log. destruct (Rlt_dec 0 u1) as [_|Hn]; [|lra].
    unfold Math_PI. fin_arith. unfold Math_sqrt.
    destruct (Rlt_dec (-2.0 * ln u1) 0) as [Hneg|_]; [lra|].
    fin_arith. do 2 f_equal.
    replace (-2.0) with (-2) by lra. replace 2.0 with 2 by lra. reflexivity.
  - rewrite Rabs_mult.
    assert (Hs : 0 <= sqrt (-2 * ln u1)) by apply sqrt_pos.
    rewrite (Rabs_pos_eq _ Hs).
    assert (Hc := COS_bound (2 * PI * entropy w (S (drawn w)))).
    assert (Hc' : Rabs (cos (2 * PI * entropy w (S (drawn w)))) <= 1)
      by (apply Rabs_le; lra).
    nra.
Qed.

Lemma boxMullerTransform_two_draws_witness :
  exists z,
    boxMullerTransform (half_world [])
    = Returns (Fin z) (mkWorld (fun _ => 1 / 2) 2 []) /\
    z = sqrt (-2 * ln (1 / 2)) * cos (2 * PI * (1 / 2)) /\
    Rabs z <= sqrt (-2 * ln (1 / 2)).
Proof.
  apply (boxMullerTransform_two_draws (half_world [])). simpl. lra.
Defined.

(* ================================================================= *)
(** ** The gradient estimator on grids that are too small *)

Lemma index_of_below r : r < 0 -> index_of (Fin r) = None.
Proof. intros H. unfold index_of. destruct (Rle_dec 0 r); [lra|reflexivity]. Qed.

Lemma read2_num_no_row g i j w :
  index_of i = None -> read2_num g i j w = Throws TypeError.
Proof. intros H. unfold read2_num. now rewrite H. Qed.

Lemma read2_num_row g z row j w :
  (0 <= z)%Z -> nth_error g (Z.to_nat z) = Some row ->
  exists v, read2_num g (Fin (IZR z)) j w = Returns v w.
Proof.
  intros Hz Hrow. unfold read2_num. rewrite (index_of_IZR z Hz), Hrow.
  eexists. reflexivity.
Qed.

(** The row index of [calculateGradient] on a grid whose upper bound
    [rows - 2] is below [1]. *)
Lemma clamp_below (a : number) (k : R) :
  k < 1 ->
  Math_min (Math_max a (Fin 1)) (Fin k) = Fin k \/
  Math_min (Math_max a (Fin 1)) (Fin k) = NaN.
Proof.
  intros Hk. destruct a as [r| | |]; cbn [Math_max Math_min nlt].
  - destruct (Rlt_dec r 1); cbn [Math_min nlt]; decide_reals; auto.
  - auto.
  - destruct (Rlt_dec k 1); [auto|lra].
  - auto.
Qed.

Lemma calculateGradient_one_row r0 x y noiseLevel w :
  calculateGradient [r0] x y noiseLevel w = Throws TypeError.
Proof.
  (* the row index is -1 or NaN *)
  unfold calculateGradient, bind at 1. cbn [row0_length ret length].
  cbv beta zeta.
  replace (of_nat 1 - Fin 2)%js with (Fin (-1))
    by (unfold of_nat; simpl; f_equal; lra).
  destruct (clamp_below (Math_floor y) (-1)) as [-> | ->]; [lra| |];
    unfold bind at 1; rewrite read2_num_no_row; try reflexivity.
  apply index_of_below. lra.
Qed.

Lemma calculateGradient_two_rows r0 r1 x y noiseLevel w :
  calculateGradient [r0; r1] x y noiseLevel w = Throws TypeError.
Proof.
  (* the row index is 0 or NaN, the row above is missing *)
  unfold calculateGradient, bind at 1. cbn [row0_length ret length].
  cbv beta zeta.
  replace (of_nat 2 - Fin 2)%js with (Fin (IZR 0))
    by (unfold of_nat; simpl; f_equal; lra).
  set (col := Math_min _ (of_nat (length r0) - Fin 2)%js).
  destruct (clamp_below (Math_floor y) (IZR 0)) as [-> | ->]; [lra| |].
  - destruct (read2_num_row [r0; r1] 0 r0 (col + Fin 1)%js w)
      as [e He]; [lia|reflexivity|].
    destruct (read2_num_row [r0; r1] 0 r0 (col - Fin 1)%js w)
      as [wv Hw]; [lia|reflexivity|].
    unfold bind at 1. rewrite He. unfold bind at 1. rewrite Hw.
    replace (Fin (IZR 0) + Fin 1)%js with (Fin (IZR 1))
      by (simpl; f_equal; lra).
    destruct (read2_num_row [r0; r1] 1 r1 col w) as [s Hs];
      [lia|reflexivity|].
    unfold bind at 1. rewrite Hs. unfold bind at 1.
    rewrite read2_num_no_row; [reflexivity|].
    apply index_of_below. lra.
  - unfold bind at 1. rewrite read2_num_no_row; reflexivity.
Qed.

(** X5.  [calculateGradient] needs a row above and a row below the cell it
    reads: on a grid with fewer than three rows it throws a TypeError at
    every position and every noise level, before any random number is drawn. *)
Theorem calculateGradient_few_rows
    (g : grid) (x y noiseLevel : number) (w : world) :
  (length g < 3)%nat ->
  calculateGradient g x y noiseLevel w = Throws TypeError.
Proof.
  intros Hlen.
  destruct g as [|r0 [|r1 [|r2 g]]].
  - reflexivity.
  - apply calculateGradient_one_row.
  - apply calculateGradient_two_rows.
  - simpl in Hlen. lia.
Qed.

Lemma calculateGradient_few_rows_witness :
  calculateGradient (flat_grid 2 5 0.5) (Fin 2) (Fin 1) (Fin 0.1)
                    (half_world [])
  = Throws TypeError.
Proof. apply calculateGradient_few_rows. simpl. lia. Defined.

Lemma proposeMoves_throws defender adversary gridloc pd g d a w :
  nth_error (store w) defender = Some (OPos pd) ->
  nth_error (store w) gridloc = Some (OGrid g) ->
  (length g < 3)%nat ->
  proposeMoves defender adversary gridloc d a w = Throws TypeError.
Proof.
  intros Hd Hg Hlen.
  unfold proposeMoves, bind, load_grid, get_x, get_y, load_pos, bind, ret.
  rewrite Hg. cbv beta iota. rewrite Hd. cbv beta iota. rewrite Hd.
  cbv beta iota.
  destruct g as [|r0 [|r1 [|r2 g]]]; [reflexivity| | |simpl in Hlen; lia].
  - now rewrite calculateGradient_one_row.
  - now rewrite calculateGradient_two_rows.
Qed.

(** X6.  [simulateStep] on a board with fewer than three rows: the first
    gradient cannot be computed and the step throws a TypeError, whatever
    the positions and the strengths. *)
Theorem simulateStep_few_rows
    (defender adversary gridloc : loc) (pd : position) (g : grid)
    (defenseStrength attackStrength : number) (w : world) :
  nth_error (store w) defender = Some (OPos pd) ->
  nth_error (store w) gridloc = Some (OGrid g) ->
  (length g < 3)%nat ->
  simulateStep defender adversary gridloc defenseStrength attackStrength w
  = Throws TypeError.
Proof.
  intros Hd Hg Hlen. unfold simulateStep, bind at 1.
  now rewrite (proposeMoves_throws defender adversary gridloc pd g).
Qed.

Lemma simulateStep_few_rows_witness :
  simulateStep 0%nat 1%nat 2%nat (Fin 5) (Fin 5)
    (half_world [ OPos (mkPos (Fin 1) (Fin 1));
                  OPos (mkPos (Fin 2) (Fin 0));
                  OGrid (flat_grid 2 6 0.5) ])
  = Throws TypeError.
Proof.
  apply (simulateStep_few_rows 0%nat 1%nat 2%nat (mkPos (Fin 1) (Fin 1))
           (flat_grid 2 6 0.5));
    [reflexivity|reflexivity|simpl; lia].
Defined.

Lemma read2_num_left g zr row c w :
  (0 <= zr)%Z -> nth_error g (Z.to_nat zr) = Some row -> c < 0 ->
  read2_num g (Fin (IZR zr)) (Fin c) w = Returns NaN w.
Proof.
  intros Hz Hrow Hc. unfold read2_num.
  now rewrite (index_of_IZR zr Hz), Hrow, (index_of_below c Hc).
Qed.

(** X7.  On a grid with at least three rows and fewer than three columns
    [calculateGradient] does not throw: the column to the left of the
    clamped cell does not exist, it reads as [undefined], and the first
    component of the gradient is [NaN], with or without noise. *)
Theorem calculateGradient_few_columns
    (rows cols : nat) (g : grid) (x y nl : R) (w : world) :
  shape rows cols g -> (3 <= rows)%nat -> (cols < 3)%nat ->
  exists dy w',
    calculateGradient g (Fin x) (Fin y) (Fin nl) w
    = Returns (mkGrad NaN dy) w' /\
    entropy w' = entropy w /\ store w' = store w.
Proof.
  intros Hs Hr Hc. unfold calculateGradient, bind at 1.
  rewrite (row0_length_shape rows cols g Hs w) by lia. cbv beta zeta.
  replace (length g) with rows by (symmetry; apply Hs).
  rewrite !of_nat_minus.
  destruct (clamped_floor y 1 (Z.of_nat rows - 2)) as (zr & Hzr & ->); [lia|].
  assert (Ecol : Math_min (Math_max (Math_floor (Fin x)) (Fin 1))
                          (Fin (IZR (Z.of_nat cols - 2)))
                 = Fin (IZR (Z.of_nat cols - 2))).
  { unfold Math_floor. rewrite Math_max_fin, Rmax_IZR, Math_min_fin, Rmin_IZR.
    do 2 f_equal. lia. }
  rewrite Ecol. set (zc := (Z.of_nat cols - 2)%Z) in *.
  assert (Hrow : forall z, (0 <= z < Z.of_nat rows)%Z ->
                           exists row, nth_error g (Z.to_nat z) = Some row).
  { intros z Hz.
    destruct (shape_row rows cols g Hs (Z.to_nat z)) as (row & E & _);
      [lia|]. now exists row. }
  destruct (Hrow zr) as [r0 E0]; [lia|].
  destruct (Hrow (zr + 1)%Z) as [r1 E1]; [lia|].
  destruct (Hrow (zr - 1)%Z) as [r2 E2]; [lia|].
  destruct (read2_num_row g zr r0 (Fin (IZR zc) + Fin 1)%js w) as [e He];
    [lia|assumption|].
  unfold bind at 1. rewrite He. unfold bind at 1.
  rewrite fin_minus_IZR.
  rewrite (read2_num_left g zr r0 (IZR (zc - 1)) w); [|lia|assumption|].
  2:{ apply IZR_lt. lia. }
  rewrite nsub_NaN_r. cbn [ndiv].
  rewrite !fin_plus_IZR, !fin_minus_IZR.
  destruct (read2_num_row g (zr + 1) r1 (Fin (IZR zc)) w) as [s Hs1];
    [lia|assumption|].
  destruct (read2_num_row g (zr - 1) r2 (Fin (IZR zc)) w) as [n Hn];
    [lia|assumption|].
  unfold bind at 1. rewrite Hs1. unfold bind at 1. rewrite Hn.
  destruct (Fin nl >? Fin 0)%js; [|eexists _, w; now split].
  pose proof (boxMullerTransform_returns w) as H1. unfold run_ok in H1.
  unfold bind at 1. destruct (boxMullerTransform w) as [z1 w1|]; [|easy].
  pose proof (boxMullerTransform_returns w1) as H2. unfold run_ok in H2.
  unfold bind at 1. destruct (boxMullerTransform w1) as [z2 w2|]; [|easy].
  destruct H1 as [He1 Hst1], H2 as [He2 Hst2].
  eexists _, w2. split; [reflexivity|]. split; congruence.
Qed.

Lemma calculateGradient_few_columns_witness :
  exists dy w',
    calculateGradient (flat_grid 3 2 0.5) (Fin 1) (Fin 1) (Fin 0.05)
                      (half_world [])
    = Returns (mkGrad NaN dy) w' /\
    entropy w' = entropy (half_world []) /\
    store w' = store (half_world []).
Proof.
  apply (calculateGradient_few_columns 3 2); [apply flat_grid_shape|lia|lia].
Defined.

(* ================================================================= *)
(** ** The gradient estimator without noise *)

Lemma clamped_floor_index v n :
  (3 <= n)%nat ->
  Math_min (Math_max (Math_floor (Fin v)) (Fin (IZR 1)))
           (Fin (IZR (Z.of_nat n - 2)))
  = Fin (IZR (Z.of_nat (clampIndex v n))) /\
  (1 <= clampIndex v n)%nat /\ (clampIndex v n + 1 < n)%nat.
Proof.
  intros Hn. unfold clampIndex, Math_floor.
  rewrite Math_max_fin, Rmax_IZR, Math_min_fin, Rmin_IZR.
  split; [|lia]. do 2 f_equal. lia.
Qed.

(** Without noise the estimator draws nothing and returns the central
    differences at the cell its arguments are clamped to. *)
Lemma calculateGradient_central rows cols g x y nl w :
  shape rows cols g -> (3 <= rows)%nat -> (3 <= cols)%nat ->
  all_cells finite g -> nl <= 0 ->
  exists e wv s n,
    peek g (clampIndex y rows) (clampIndex x cols + 1) = Fin e /\
    peek g (clampIndex y rows) (clampIndex x cols - 1) = Fin wv /\
    peek g (clampIndex y rows + 1) (clampIndex x cols) = Fin s /\
    peek g (clampIndex y rows - 1) (clampIndex x cols) = Fin n /\
    calculateGradient g (Fin x) (Fin y) (Fin nl) w
    = Returns (mkGrad (Fin ((e - wv) / 2)) (Fin ((s - n) / 2))) w.
Proof.
  intros Hs Hr Hc Hfin Hnl.
  destruct (clamped_floor_index y rows Hr) as (Ey & Hi1 & Hi2).
  destruct (clamped_floor_index x cols Hc) as (Ex & Hj1 & Hj2).
  set (i := clampIndex y rows) in *. set (j := clampIndex x cols) in *.
  assert (He : finite (peek g i (j + 1)))
    by (apply (peek_inside rows cols) with (P := finite); try assumption; lia).
  assert (Hw : finite (peek g i (j - 1)))
    by (apply (peek_inside rows cols) with (P := finite); try assumption; lia).
  assert (Hso : finite (peek g (i + 1) j))
    by (apply (peek_inside rows cols) with (P := finite); try assumption; lia).
  assert (Hn : finite (peek g (i - 1) j))
    by (apply (peek_inside rows cols) with (P := finite); try assumption; lia).
  apply finite_inv in He, Hw, Hso, Hn.
  destruct He as [e Ee], Hw as [wv Ew], Hso as [s Es], Hn as [n En].
  exists e, wv, s, n. repeat (split; [assumption|]).
  unfold calculateGradient, bind at 1.
  rewrite (row0_length_shape rows cols g Hs w) by lia. cbv beta zeta.
  replace (length g) with rows by (symmetry; apply Hs).
  rewrite !of_nat_minus.
  change (Fin 1) with (Fin (IZR 1)). rewrite Ey, Ex.
  rewrite !fin_plus_IZR, !fin_minus_IZR.
  assert (R2 : forall zi zj, (0 <= zi < Z.of_nat rows)%Z ->
                 (0 <= zj < Z.of_nat cols)%Z ->
                 read2_num g (Fin (IZR zi)) (Fin (IZR zj)) w
                 = Returns (peek g (Z.to_nat zi) (Z.to_nat zj)) w).
  { intros zi zj Hzi Hzj.
    pose proof (read2_num_peek rows cols g Hs zi zj w Hzi Hzj) as H.
    unfold run_ok in H. destruct (read2_num _ _ _ w) as [v w'|]; [|easy].
    destruct H as [-> ->]. reflexivity. }
  unfold bind at 1. rewrite R2 by lia.
  unfold bind at 1. rewrite R2 by lia.
  unfold bind at 1. rewrite R2 by lia.
  unfold bind at 1. rewrite R2 by lia.
  replace (Z.to_nat (Z.of_nat j + 1)) with (j + 1)%nat by lia.
  replace (Z.to_nat (Z.of_nat j - 1)) with (j - 1)%nat by lia.
  replace (Z.to_nat (Z.of_nat i + 1)) with (i + 1)%nat by lia.
  replace (Z.to_nat (Z.of_nat i - 1)) with (i - 1)%nat by lia.
  rewrite !Nat2Z.id, Ee, Ew, Es, En. fin_arith. rewrite !ndiv_fin by lra.
  unfold ngt, nlt. destruct (Rlt_dec 0 nl) as [H|_]; [lra|]. unfold ret.
  do 3 f_equal; lra.
Qed.

(** X8.  With [noiseLevel = 0] (or negative) [calculateGradient] draws no
    random number and returns the central differences at the cell its
    arguments are clamped to; on a grid with cells in [[lo, hi]] each
    component is at most [(hi - lo) / 2] in absolute value. *)
Theorem calculateGradient_noise_free
    (rows cols : nat) (g : grid) (x y nl lo hi : R) (w : world) :
  shape rows cols g -> (3 <= rows)%nat -> (3 <= cols)%nat ->
  all_cells (between lo hi) g -> nl <= 0 ->
  exists e wv s n,
    peek g (clampIndex y rows) (clampIndex x cols + 1) = Fin e /\
    peek g (clampIndex y rows) (clampIndex x cols - 1) = Fin wv /\
    peek g (clampIndex y rows + 1) (clampIndex x cols) = Fin s /\
    peek g (clampIndex y rows - 1) (clampIndex x cols) = Fin n /\
    calculateGradient g (Fin x) (Fin y) (Fin nl) w
    = Returns (mkGrad (Fin ((e - wv) / 2)) (Fin ((s - n) / 2))) w /\
    Rabs ((e - wv) / 2) <= (hi - lo) / 2 /\
    Rabs ((s - n) / 2) <= (hi - lo) / 2.
Proof.
  intros Hs Hr Hc Hb Hnl.
  destruct (calculateGradient_central rows cols g x y nl w Hs Hr Hc
              (between_finite lo hi g Hb) Hnl)
    as (e & wv & s & n & Ee & Ew & Es & En & Hrun).
  destruct (clamped_floor_index y rows Hr) as (_ & Hi1 & Hi2).
  destruct (clamped_floor_index x cols Hc) as (_ & Hj1 & Hj2).
  exists e, wv, s, n. repeat (split; [assumption|]).
  assert (Be : between lo hi (Fin e)).
  { rewrite <- Ee. apply (peek_inside rows cols); try assumption; lia. }
  assert (Bw : between lo hi (Fin wv)).
  { rewrite <- Ew. apply (peek_inside rows cols); try assumption; lia. }
  assert (Bs : between lo hi (Fin s)).
  { rewrite <- Es. apply (peek_inside rows cols); try assumption; lia. }
  assert (Bn : between lo hi (Fin n)).
  { rewrite <- En. apply (peek_inside rows cols); try assumption; lia. }
  simpl in Be, Bw, Bs, Bn. split; apply Rabs_le; lra.
Qed.

Lemma calculateGradient_noise_free_witness :
  exists e wv s n,
    peek spike_grid (clampIndex 7 3) (clampIndex (-4) 4 + 1) = Fin e /\
    peek spike_grid (clampIndex 7 3) (clampIndex (-4) 4 - 1) = Fin wv /\
    peek spike_grid (clampIndex 7 3 + 1) (clampIndex (-4) 4) = Fin s /\
    peek spike_grid (clampIndex 7 3 - 1) (clampIndex (-4) 4) = Fin n /\
    calculateGradient spike_grid (Fin (-4)) (Fin 7) (Fin 0) (half_world [])
    = Returns (mkGrad (Fin ((e - wv) / 2)) (Fin ((s - n) / 2)))
              (half_world []) /\
    Rabs ((e - wv) / 2) <= (1 - 0) / 2 /\
    Rabs ((s - n) / 2) <= (1 - 0) / 2.
Proof.
  apply (calculateGradient_noise_free 3 4 spike_grid (-4) 7 0 0 1);
    [apply spike_grid_shape|lia|lia| |lra].
  unfold all_cells, spike_grid.
  repeat (constructor; try (simpl; lra)).
Defined.

(* ================================================================= *)
(** ** The dynamic loss when the adversary is not the stronger side *)

Lemma applyAdvantage_none it r v dl al :
  (r >? Fin 1)%js = false -> applyAdvantage it r v dl al = (dl, al).
Proof. intros H. unfold applyAdvantage. now rewrite H. Qed.

Lemma strengthRatio_le d a :
  0 < d -> a <= d -> (strengthRatio (Fin a) (Fin d) >? Fin 1)%js = false.
Proof.
  intros Hd Ha. rewrite strengthRatio_fin by lra. apply ngt_fin_false.
  apply Rmult_le_reg_r with d; [assumption|].
  unfold Rdiv. rewrite Rmult_assoc, Rinv_l by lra. lra.
Qed.

(** X9.  The strengths matter to the losses only when the adversary is the
    stronger side: with [attackStrength <= defenseStrength] the result of
    [calculateDynamicLoss], value or exception, is the same for all
    strengths. *)
Theorem calculateDynamicLoss_no_advantage
    (g : grid) (defender adversary : position) (iteration : number)
    (d a d' a' : R) (w : world) :
  0 < d -> a <= d -> 0 < d' -> a' <= d' ->
  calculateDynamicLoss g defender adversary iteration (Fin d) (Fin a) w
  = calculateDynamicLoss g defender adversary iteration (Fin d') (Fin a') w.
Proof.
  intros Hd Ha Hd' Ha'. unfold calculateDynamicLoss, bind.
  destruct (row0_length g w) as [ncols w0|]; [|reflexivity]. cbv zeta.
  destruct (read2_num g _ _ w0) as [baseLoss w1|]; [|reflexivity].
  destruct (boxMullerTransform w1) as [z1 w2|]; [|reflexivity].
  destruct (read2_num g _ _ w2) as [advCell w3|]; [|reflexivity].
  destruct (boxMullerTransform w3) as [z2 w4|]; [|reflexivity].
  rewrite !applyAdvantage_none by now apply strengthRatio_le.
  reflexivity.
Qed.

Lemma calculateDynamicLoss_no_advantage_witness :
  calculateDynamicLoss (flat_grid 20 20 0.5) (mkPos (Fin 5) (Fin 14))
                       (mkPos (Fin 14) (Fin 5)) (Fin 0) (Fin 5) (Fin 5)
                       (half_world [])
  = calculateDynamicLoss (flat_grid 20 20 0.5) (mkPos (Fin 5) (Fin 14))
                         (mkPos (Fin 14) (Fin 5)) (Fin 0) (Fin 10) (Fin 1)
                         (half_world []).
Proof. apply calculateDynamicLoss_no_advantage; lra. Defined.

(* ================================================================= *)
(** ** Landscape synthesis on dimensions that are no array length *)

Lemma new_Array_out_of_range r w :
  r < 0 \/ 4294967296 <= r ->
  new_Array (Math_floor (Fin r)) w = Throws RangeError.
Proof.
  intros H. unfold new_Array, array_length. cbn [Math_floor].
  destruct H as [H | H].
  - rewrite index_of_below; [reflexivity|].
    pose proof (Zfloor_bound r). lra.
  - destruct (index_of (Fin (IZR (Zfloor r)))); [|reflexivity].
    destruct (Rlt_dec (IZR (Zfloor r)) 4294967296) as [L|_]; [|reflexivity].
    exfalso. apply lt_IZR in L.
    pose proof (Zfloor_lub 4294967296 r H). lia.
Qed.

Lemma new_Array_not_finite x w :
  ~ finite x -> new_Array (Math_floor x) w = Throws RangeError.
Proof. destruct x; simpl; intros H; [tauto|reflexivity..]. Qed.

Lemma ndiv_zero_not_finite a : ~ finite (Fin a / Fin 0)%js.
Proof.
  unfold ndiv. destruct (Req_dec_T 0 0) as [_|H]; [|lra].
  unfold scale_inf. destruct (Rlt_dec 0 a); [simpl; tauto|].
  destruct (Rlt_dec a 0); simpl; tauto.
Qed.

(** X10.  [generateLossLandscape] allocates with [new Array]: it throws a
    RangeError when the resolution is 0, when the number of rows [floor
    (height / resolution)] is negative or at least [2^32], and when there is
    at least one row and the number of columns is negative or at least
    [2^32]. *)
Theorem generateLossLandscape_range_error
    (width height resolution : R) (w : world) :
  resolution = 0 \/
  (resolution <> 0 /\
   (height / resolution < 0 \/ 4294967296 <= height / resolution)) \/
  (resolution <> 0 /\ 1 <= height / resolution < 4294967296 /\
   (width / resolution < 0 \/ 4294967296 <= width / resolution)) ->
  generateLossLandscape (Fin width) (Fin height) (Fin resolution) w
  = Throws RangeError.
Proof.
  intros [-> | [[Hres Hrows] | (Hres & Hrows & Hcols)]];
    unfold generateLossLandscape; cbv zeta; unfold bind at 1.
  - now rewrite new_Array_not_finite by apply ndiv_zero_not_finite.
  - rewrite !ndiv_fin by assumption.
    now rewrite new_Array_out_of_range by assumption.
  - rewrite !ndiv_fin by assumption.
    change (Math_floor (Fin (height / resolution)))
      with (Fin (IZR (Zfloor (height / resolution)))).
    assert (Hz : (1 <= Zfloor (height / resolution) < 4294967296)%Z).
    { split; [apply Zfloor_lub; simpl; lra|].
      apply lt_IZR. pose proof (Zfloor_bound (height / resolution)). lra. }
    rewrite new_Array_ok by lia. rewrite repeat_length.
    destruct (Z.to_nat (Zfloor (height / resolution))) as [|n] eqn:En; [lia|].
    cbn [seq for_each]. unfold bind at 1. unfold bind at 1. unfold bind at 1.
    now rewrite new_Array_out_of_range by assumption.
Qed.

Lemma generateLossLandscape_range_error_witness :
  generateLossLandscape (Fin (-10)) (Fin 20) (Fin 5) (half_world [])
  = Throws RangeError.
Proof.
  apply generateLossLandscape_range_error. right. right. lra.
Defined.

(* ================================================================= *)
(** ** What landscape synthesis draws *)

Lemma generateLossLandscape_ok (width height resolution : R) w :
  resolution <> 0 ->
  (0 <= Zfloor (width / resolution) < 4294967296)%Z ->
  (1 <= Zfloor (height / resolution) < 4294967296)%Z ->
  run_ok (generateLossLandscape (Fin width) (Fin height) (Fin resolution)) w
    (fun g w' =>
       only_draws w w' /\
       shape (Z.to_nat (Zfloor (height / resolution)))
             (Z.to_nat (Zfloor (width / resolution))) g /\
       all_cells in_unit g).
Proof.
  intros Hres Hc Hr.
  eapply generateLossLandscape_via_smoothing;
    try reflexivity; try assumption.
  intros g w' Hw' Hs Hu.
  eapply run_ok_weaken.
  - apply (gibbsSmoothingPass_unit _ _ g 1 w' Hs); [lia|exact Hu].
  - intros g' w'' (-> & Hs' & Hu'). now split.
Qed.

Lemma draws_0 w : draws 0 w w.
Proof. unfold draws. destruct w. cbn. now rewrite Nat.add_0_r. Qed.

Lemma draws_add n p w1 w2 w3 :
  draws n w1 w2 -> draws p w2 w3 -> draws (n + p) w1 w3.
Proof.
  unfold draws. intros -> ->. cbn. f_equal. lia.
Qed.

Lemma draws_bind {A B} (m : M A) (k : A -> M B) n p w :
  run_if m w (fun _ w1 => draws n w w1) ->
  (forall a w1, run_if (k a) w1 (fun _ w2 => draws p w1 w2)) ->
  run_if (bind m k) w (fun _ w2 => draws (n + p) w w2).
Proof.
  intros Hm Hk. eapply run_if_step; [exact Hm|].
  intros a w1 H1 b w2 E. eapply draws_add; [exact H1|].
  eapply Hk. exact E.
Qed.

Lemma draws_for_each {A S} (l : list A) (body : A -> S -> M S) k :
  (forall a s w, In a l -> run_if (body a s) w (fun _ w' => draws k w w')) ->
  forall s w,
    run_if (for_each l body s) w (fun _ w' => draws (length l * k) w w').
Proof.
  induction l as [|a l IH]; intros Hbody s w; cbn [for_each length Nat.mul].
  - apply run_if_ret. apply draws_0.
  - apply draws_bind; [apply Hbody; now left|].
    intros s' w1. apply IH. intros b s0 w0 Hb. apply Hbody. now right.
Qed.

Lemma draws_for_each_none {A S} (l : list A) (body : A -> S -> M S) :
  (forall a s w, In a l -> run_if (body a s) w (fun _ w' => draws 0 w w')) ->
  forall s w, run_if (for_each l body s) w (fun _ w' => draws 0 w w').
Proof.
  intros H s w a w' E.
  pose proof (draws_for_each l body 0 H s w a w' E) as D.
  now rewrite Nat.mul_0_r in D.
Qed.

Lemma draws_ret {A} (a : A) w : run_if (ret a) w (fun _ w' => draws 0 w w').
Proof. apply run_if_ret. apply draws_0. Qed.

Lemma draws_Math_random w :
  run_if Math_random w (fun _ w' => draws 1 w w').
Proof.
  intros u w' E. unfold Math_random in E. injection E as _ <-.
  unfold draws. f_equal. lia.
Qed.

Lemma draws_boxMullerTransform w :
  run_if boxMullerTransform w (fun _ w' => draws 2 w w').
Proof.
  unfold boxMullerTransform.
  apply (draws_bind _ _ 1 1); [apply draws_Math_random|]. intros u1 w1.
  apply (draws_bind _ _ 1 0); [apply draws_Math_random|]. intros u2 w2.
  apply draws_ret.
Qed.

Lemma draws_read2 g i j w : run_if (read2 g i j) w (fun _ w' => draws 0 w w').
Proof.
  unfold read2. destruct (nth_error g i); [apply draws_ret|].
  intros a w' E. discriminate.
Qed.

Lemma draws_write2 g i j v w :
  run_if (write2 g i j v) w (fun _ w' => draws 0 w w').
Proof.
  unfold write2. destruct (nth_error g i); [apply draws_ret|].
  intros a w' E. discriminate.
Qed.

Lemma draws_row0_length g w :
  run_if (row0_length g) w (fun _ w' => draws 0 w w').
Proof.
  unfold row0_length. destruct g; [|apply draws_ret].
  intros a w' E. discriminate.
Qed.

Lemma draws_new_Array n w :
  run_if (new_Array n) w (fun _ w' => draws 0 w w').
Proof.
  unfold new_Array. destruct (array_length n); [apply draws_ret|].
  intros a w' E. discriminate.
Qed.

Lemma draws_fillCell c r i j g w :
  run_if (fillCell c r i j g) w (fun _ w' => draws 3 w w').
Proof.
  unfold fillCell. cbv zeta.
  apply (draws_bind _ _ 2 1); [apply draws_boxMullerTransform|]. intros z w1.
  apply (draws_bind _ _ 1 0); [apply draws_Math_random|]. intros u w2.
  apply draws_write2.
Qed.

Lemma draws_smoothCell i j g w :
  run_if (smoothCell i j g) w (fun _ w' => draws 0 w w').
Proof.
  unfold smoothCell.
  repeat (apply (draws_bind _ _ 0 0); [apply draws_read2|intros ? ?]).
  apply draws_write2.
Qed.

Lemma draws_gibbsSmoothingPass g n w :
  run_if (gibbsSmoothingPass g n) w (fun _ w' => draws 0 w w').
Proof.
  unfold gibbsSmoothingPass.
  apply (draws_bind _ _ 0 0); [apply draws_row0_length|]. intros cols w1.
  cbv zeta.
  apply draws_for_each_none. intros _ s w2 _.
  apply draws_for_each_none. intros i s' w3 _.
  apply draws_for_each_none. intros j s'' w4 _.
  apply draws_smoothCell.
Qed.

Lemma draws_generateLossLandscape width height resolution w :
  run_if (generateLossLandscape width height resolution) w
    (fun _ w' =>
       draws (trip_count (Math_floor (height / resolution))
              * (trip_count (Math_floor (width / resolution)) * 3)) w w').
Proof.
  unfold generateLossLandscape. cbv zeta.
  set (cols := Math_floor (width / resolution)%js).
  set (rows := Math_floor (height / resolution)%js).
  replace (trip_count rows * (trip_count cols * 3))%nat
    with (0 + (0 + (trip_count rows * (trip_count cols * 3) + 0)))%nat by lia.
  apply draws_bind; [apply draws_new_Array|]. intros slots w1.
  apply draws_bind.
  { apply draws_for_each_none. intros _ s w2 _.
    apply (draws_bind _ _ 0 0); [apply draws_new_Array|]. intros row w3.
    apply draws_ret. }
  intros g0 w2. apply draws_bind; [|intros g1 w3;
                                    apply draws_gibbsSmoothingPass].
  intros g1 w3 E.
  pose proof (draws_for_each (seq 0 (trip_count rows))
    (fun i g => for_each (seq 0 (trip_count cols))
                  (fun j g => fillCell cols rows i j g) g)
    (trip_count cols * 3)) as H.
  rewrite length_seq in H. eapply H; [|exact E].
  intros i s w3' _ g2 w4 E2.
  pose proof (draws_for_each (seq 0 (trip_count cols))
    (fun j g => fillCell cols rows i j g) 3) as H2.
  rewrite length_seq in H2. eapply H2; [|exact E2].
  intros j s' w5 _. apply draws_fillCell.
Qed.
(** X11.  Landscape synthesis draws exactly three random numbers for each
    cell, two for the normal sample and one for the uniform noise, whatever
    the values drawn; the smoothing pass draws none and the store is left as
    it is. *)
Theorem generateLossLandscape_draws
    (width height resolution : R) (w : world) :
  0 < resolution ->
  (0 <= Zfloor (width / resolution) < 4294967296)%Z ->
  (1 <= Zfloor (height / resolution) < 4294967296)%Z ->
  exists g w',
    generateLossLandscape (Fin width) (Fin height) (Fin resolution) w
    = Returns g w' /\
    entropy w' = entropy w /\ store w' = store w /\
    drawn w'
    = (drawn w
       + 3 * (Z.to_nat (Zfloor (height / resolution))
              * Z.to_nat (Zfloor (width / resolution))))%nat.
Proof.
  intros Hres Hc Hr.
  destruct (run_ok_returns _ _ _
              (generateLossLandscape_ok width height resolution w
                 ltac:(lra) Hc Hr))
    as (g & w' & Hrun & _).
  exists g, w'. split; [exact Hrun|].
  pose proof (draws_generateLossLandscape _ _ _ w g w' Hrun) as D.
  rewrite !ndiv_fin in D by lra. cbn [Math_floor] in D.
  rewrite !trip_count_IZR in D. unfold draws in D. subst w'.
  cbn [entropy store drawn]. repeat split. lia.
Qed.

Lemma generateLossLandscape_draws_witness :
  exists g w',
    generateLossLandscape (Fin 100) (Fin 50) (Fin 5) zero_world
    = Returns g w' /\
    entropy w' = entropy zero_world /\ store w' = store zero_world /\
    drawn w'
    = (drawn zero_world
       + 3 * (Z.to_nat (Zfloor (50 / 5)) * Z.to_nat (Zfloor (100 / 5))))%nat.
Proof.
  apply generateLossLandscape_draws; [lra| |].
  - replace (100 / 5) with (IZR 20) by (simpl; lra). rewrite ZfloorZ. lia.
  - replace (50 / 5) with (IZR 10) by (simpl; lra). rewrite ZfloorZ. lia.
Defined.

(* ================================================================= *)
(** ** The colour map *)

Lemma Zfloor_half z : Zfloor (IZR z + 1 / 2) = z.
Proof. apply Zfloor_eq. lra. Qed.

Lemma color_at_stop k c w :
  nth_error colors (Z.to_nat k) = Some c -> (0 <= k)%Z ->
  color_at (Fin (IZR k)) w = Returns c w.
Proof.
  intros H Hk. unfold color_at. now rewrite (index_of_IZR k Hk), H.
Qed.

Ltac interpolate :=
  unfold bind, ret; cbn [color_r color_g color_b]; fin_arith;
  cbn [Math_round]; unfold ramp; decide_reals;
  repeat (f_equal; try lra).

Ltac between_stops k c0 c1 :=
  unfold nge, nlt; decide_reals; cbn [negb];
  unfold bind at 1;
  rewrite (color_at_stop k c0); [|reflexivity|lia];
  match goal with
  | |- context [(Fin ?a + Fin 1)%js] =>
      replace (Fin a + Fin 1)%js with (Fin (IZR (k + 1)))
        by (simpl; f_equal; lra)
  end;
  unfold bind at 1;
  rewrite (color_at_stop (k + 1) c1); [|reflexivity|lia];
  interpolate.

(** [getLossColor] rounds, channel by channel, the piecewise-linear ramp
    through its four colours. *)
Lemma lossChannels_ramp v w :
  lossChannels (Fin v) w
  = Returns (mkColor (Fin (IZR (Zfloor (ramp 245 230 180 66 v + 1 / 2))))
                     (Fin (IZR (Zfloor (ramp 167 190 210 245 v + 1 / 2))))
                     (Fin (IZR (Zfloor (ramp 66 120 170 209 v + 1 / 2))))) w.
Proof.
  unfold lossChannels. cbv zeta.
  replace (of_nat (length colors) - Fin 1)%js with (Fin (IZR 3))
    by (unfold of_nat; simpl; f_equal; lra).
  change (Fin v * Fin (IZR 3))%js with (Fin (v * 3)).
  change (Math_floor (Fin (v * 3))) with (Fin (IZR (Zfloor (v * 3)))).
  pose proof (Zfloor_bound (v * 3)) as Hz.
  assert (Hcase : (Zfloor (v * 3) < 0 \/ Zfloor (v * 3) = 0 \/
                   Zfloor (v * 3) = 1 \/ Zfloor (v * 3) = 2 \/
                   3 <= Zfloor (v * 3))%Z) by lia.
  destruct Hcase as [H | [H | [H | [H | H]]]].
  - (* below the gradient *)
    assert (Hr : IZR (Zfloor (v * 3)) <= -1) by (apply IZR_le; lia).
    unfold nge, nlt.
    destruct (Rlt_dec (IZR (Zfloor (v * 3))) 3) as [_|N]; [|lra].
    destruct (Rlt_dec (IZR (Zfloor (v * 3))) 0) as [_|N]; [|lra].
    cbn [negb].
    rewrite (color_at_stop 0 (mkColor (Fin 245) (Fin 167) (Fin 66)));
      [|reflexivity|lia].
    unfold ramp. destruct (Rlt_dec v 0); [|lra].
    now rewrite !Zfloor_half.
  - rewrite H in *.
    between_stops 0%Z (mkColor (Fin 245) (Fin 167) (Fin 66))
                  (mkColor (Fin 230) (Fin 190) (Fin 120)).
  - rewrite H in *.
    between_stops 1%Z (mkColor (Fin 230) (Fin 190) (Fin 120))
                  (mkColor (Fin 180) (Fin 210) (Fin 170)).
  - rewrite H in *.
    between_stops 2%Z (mkColor (Fin 180) (Fin 210) (Fin 170))
                  (mkColor (Fin 66) (Fin 245) (Fin 209)).
  - (* above the gradient *)
    assert (Hr : 3 <= IZR (Zfloor (v * 3))) by (apply IZR_le; lia).
    unfold nge, nlt.
    destruct (Rlt_dec (IZR (Zfloor (v * 3))) 3) as [N|_]; [lra|].
    cbn [negb].
    rewrite (color_at_stop 3 (mkColor (Fin 66) (Fin 245) (Fin 209)));
      [|reflexivity|lia].
    unfold ramp. decide_reals.
    now rewrite !Zfloor_half.
Qed.
Lemma ramp_between lo hi c0 c1 c2 c3 v :
  lo <= c0 <= hi -> lo <= c1 <= hi -> lo <= c2 <= hi -> lo <= c3 <= hi ->
  lo <= ramp c0 c1 c2 c3 v <= hi.
Proof.
  intros H0 H1 H2 H3. unfold ramp.
  destruct (Rlt_dec v 0); [lra|].
  destruct (Rlt_dec v (1 / 3)); [nra|].
  destruct (Rlt_dec v (2 / 3)); [nra|].
  destruct (Rlt_dec v 1); [nra|lra].
Qed.

Lemma ramp_increasing c0 c1 c2 c3 v1 v2 :
  c0 <= c1 -> c1 <= c2 -> c2 <= c3 -> v1 <= v2 ->
  ramp c0 c1 c2 c3 v1 <= ramp c0 c1 c2 c3 v2.
Proof.
  intros H0 H1 H2 Hv. unfold ramp.
  destruct (Rlt_dec v1 0), (Rlt_dec v2 0); try lra;
  destruct (Rlt_dec v1 (1 / 3)), (Rlt_dec v2 (1 / 3)); try lra; try nra;
  destruct (Rlt_dec v1 (2 / 3)), (Rlt_dec v2 (2 / 3)); try lra; try nra;
  destruct (Rlt_dec v1 1), (Rlt_dec v2 1); try lra; try nra.
Qed.

Lemma ramp_opp c0 c1 c2 c3 v :
  ramp (- c0) (- c1) (- c2) (- c3) v = - ramp c0 c1 c2 c3 v.
Proof. unfold ramp. decide_reals. Qed.

Lemma ramp_decreasing c0 c1 c2 c3 v1 v2 :
  c1 <= c0 -> c2 <= c1 -> c3 <= c2 -> v1 <= v2 ->
  ramp c0 c1 c2 c3 v2 <= ramp c0 c1 c2 c3 v1.
Proof.
  intros H0 H1 H2 Hv.
  pose proof (ramp_increasing (- c0) (- c1) (- c2) (- c3) v1 v2) as H.
  rewrite !ramp_opp in H. lra.
Qed.

Lemma round_between (lo hi : Z) x :
  IZR lo <= x <= IZR hi -> (lo <= Zfloor (x + 1 / 2) <= hi)%Z.
Proof.
  intros [H0 H1]. split.
  - apply Zfloor_lub. lra.
  - pose proof (Zfloor_bound (x + 1 / 2)) as [Hb _].
    assert (L : IZR (Zfloor (x + 1 / 2)) < IZR (hi + 1))
      by (rewrite plus_IZR; lra).
    apply lt_IZR in L. lia.
Qed.

Lemma round_monotone x y : x <= y -> (Zfloor (x + 1 / 2) <= Zfloor (y + 1 / 2))%Z.
Proof. intros H. apply Zfloor_le. lra. Qed.
Lemma number_to_string_integer z :
  number_to_string (Fin (IZR z)) = integer_to_string z.
Proof. unfold number_to_string. now rewrite ZfloorZ. Qed.

Lemma getLossColor_fin v w :
  getLossColor (Fin v) w
  = Returns (rgb (Fin (IZR (Zfloor (ramp 245 230 180 66 v + 1 / 2))))
                 (Fin (IZR (Zfloor (ramp 167 190 210 245 v + 1 / 2))))
                 (Fin (IZR (Zfloor (ramp 66 120 170 209 v + 1 / 2))))) w.
Proof. unfold getLossColor, bind. now rewrite lossChannels_ramp. Qed.

Lemma getLossColor_PInf w :
  getLossColor PInf w = Returns (rgb (Fin 66) (Fin 245) (Fin 209)) w.
Proof.
  unfold getLossColor, lossChannels, bind. cbv zeta.
  replace (of_nat (length colors) - Fin 1)%js with (Fin (IZR 3))
    by (unfold of_nat; simpl; f_equal; lra).
  assert (E : (PInf * Fin (IZR 3))%js = PInf).
  { simpl. unfold scale_inf. destruct (Rlt_dec 0 3); [reflexivity|lra]. }
  rewrite E. cbn [Math_floor nge nlt negb].
  rewrite (color_at_stop 3 (mkColor (Fin 66) (Fin 245) (Fin 209)));
    [reflexivity|reflexivity|lia].
Qed.

Lemma getLossColor_NInf w :
  getLossColor NInf w = Returns (rgb (Fin 245) (Fin 167) (Fin 66)) w.
Proof.
  unfold getLossColor, lossChannels, bind. cbv zeta.
  replace (of_nat (length colors) - Fin 1)%js with (Fin (IZR 3))
    by (unfold of_nat; simpl; f_equal; lra).
  assert (E : (NInf * Fin (IZR 3))%js = NInf).
  { simpl. unfold scale_inf. destruct (Rlt_dec 0 3); [reflexivity|lra]. }
  rewrite E. cbn [Math_floor nge nlt negb].
  rewrite (color_at_stop 0 (mkColor (Fin 245) (Fin 167) (Fin 66)));
    [reflexivity|reflexivity|lia].
Qed.

(** X12.  [getLossColor] returns a colour for every number but [NaN], for
    which [colors[NaN]] is missing and the call throws a TypeError. The
    channels of the colour are integers between those of the two ends of the
    gradient. *)
Theorem getLossColor_channels (value : number) (w : world) :
  (value = NaN -> getLossColor value w = Throws TypeError) /\
  (value <> NaN ->
   exists r g b : Z,
     getLossColor value w
     = Returns (rgb (Fin (IZR r)) (Fin (IZR g)) (Fin (IZR b))) w /\
     (66 <= r <= 245)%Z /\ (167 <= g <= 245)%Z /\ (66 <= b <= 209)%Z).
Proof.
  split; [intros ->; reflexivity|].
  intros Hn. destruct value as [v| | |]; [| | |congruence].
  - eexists _, _, _. split; [apply getLossColor_fin|].
    split; [|split].
    + apply (round_between 66 245). apply ramp_between; lra.
    + apply (round_between 167 245). apply ramp_between; lra.
    + apply (round_between 66 209). apply ramp_between; lra.
  - exists 66%Z, 245%Z, 209%Z. split; [apply getLossColor_PInf|lia].
  - exists 245%Z, 167%Z, 66%Z. split; [apply getLossColor_NInf|lia].
Qed.
Lemma rgb_end : rgb (Fin 66) (Fin 245) (Fin 209) = "rgb(66, 245, 209)"%string.
Proof. unfold rgb. now rewrite !number_to_string_integer. Qed.

Lemma rgb_start : rgb (Fin 245) (Fin 167) (Fin 66) = "rgb(245, 167, 66)"%string.
Proof. unfold rgb. now rewrite !number_to_string_integer. Qed.

(** X13.  The colour map saturates: every value of at least [1], [Infinity]
    included, is drawn in the last colour of the gradient, and every
    negative value in the first. *)
Theorem getLossColor_saturates (value : number) (w : world) :
  ((value >=? Fin 1)%js = true ->
   getLossColor value w = Returns "rgb(66, 245, 209)"%string w) /\
  ((value <? Fin 0)%js = true ->
   getLossColor value w = Returns "rgb(245, 167, 66)"%string w).
Proof.
  destruct value as [v| | |]; (split; [intros Hge|intros Hlt]);
    try discriminate.
  - rewrite getLossColor_fin, <- rgb_end.
    unfold nge, nlt in Hge. destruct (Rlt_dec v 1) as [|Hv]; [discriminate|].
    unfold ramp. decide_reals. now rewrite !Zfloor_half.
  - rewrite getLossColor_fin, <- rgb_start.
    unfold nlt in Hlt. destruct (Rlt_dec v 0) as [Hv|]; [|discriminate].
    unfold ramp. decide_reals. now rewrite !Zfloor_half.
  - rewrite getLossColor_PInf. f_equal. apply rgb_end.
  - rewrite getLossColor_NInf. f_equal. apply rgb_start.
Qed.

Lemma getLossColor_saturates_witness :
  getLossColor (Fin 1) (half_world [])
  = Returns "rgb(66, 245, 209)"%string (half_world []) /\
  getLossColor (Fin (-1)) (half_world [])
  = Returns "rgb(245, 167, 66)"%string (half_world []).
Proof.
  split.
  - apply (getLossColor_saturates (Fin 1)).
    unfold nge, nlt. destruct (Rlt_dec 1 1); [lra|reflexivity].
  - apply (getLossColor_saturates (Fin (-1))).
    unfold nlt. destruct (Rlt_dec (-1) 0); [reflexivity|lra].
Defined.

Lemma getLossColor_channels_witness :
  exists r g b : Z,
    getLossColor (Fin (1 / 2)) (half_world [])
    = Returns (rgb (Fin (IZR r)) (Fin (IZR g)) (Fin (IZR b))) (half_world [])
    /\ (66 <= r <= 245)%Z /\ (167 <= g <= 245)%Z /\ (66 <= b <= 209)%Z.
Proof. apply getLossColor_channels. discriminate. Defined.

(** X14.  The colour map is monotone: from a value to a larger one the red
    channel does not increase and the green and blue channels do not
    decrease. *)
Theorem getLossColor_monotone (v1 v2 : R) (w : world) :
  v1 <= v2 ->
  exists r1 g1 b1 r2 g2 b2 : Z,
    getLossColor (Fin v1) w
    = Returns (rgb (Fin (IZR r1)) (Fin (IZR g1)) (Fin (IZR b1))) w /\
    getLossColor (Fin v2) w
    = Returns (rgb (Fin (IZR r2)) (Fin (IZR g2)) (Fin (IZR b2))) w /\
    (r2 <= r1)%Z /\ (g1 <= g2)%Z /\ (b1 <= b2)%Z.
Proof.
  intros Hv. eexists _, _, _, _, _, _.
  split; [apply getLossColor_fin|]. split; [apply getLossColor_fin|].
  split; [|split]; apply round_monotone.
  - apply ramp_decreasing; lra.
  - apply ramp_increasing; lra.
  - apply ramp_increasing; lra.
Qed.

Lemma getLossColor_monotone_witness :
  exists r1 g1 b1 r2 g2 b2 : Z,
    getLossColor (Fin 0.25) (half_world [])
    = Returns (rgb (Fin (IZR r1)) (Fin (IZR g1)) (Fin (IZR b1)))
              (half_world []) /\
    getLossColor (Fin 0.75) (half_world [])
    = Returns (rgb (Fin (IZR r2)) (Fin (IZR g2)) (Fin (IZR b2)))
              (half_world []) /\
    (r2 <= r1)%Z /\ (g1 <= g2)%Z /\ (b1 <= b2)%Z.
Proof. apply getLossColor_monotone. lra. Defined.

(* ================================================================= *)
(** ** Contour lines *)

Lemma read2_row g i j w :
  (i < length g)%nat -> read2 g i j w = Returns (peek g i j) w.
Proof.
  intros Hi. unfold read2, peek.
  destruct (nth_error g i) as [row|] eqn:E.
  - now rewrite (nth_error_nth g i [] E).
  - apply nth_error_None in E. lia.
Qed.

Lemma cellCorners_ok g i j w :
  (i + 1 < length g)%nat ->
  cellCorners g i j w = Returns (cornersOf g i j) w.
Proof.
  intros Hi. unfold cellCorners, bind.
  rewrite !read2_row by lia. reflexivity.
Qed.

Lemma crossing_app th cm cn lines :
  crossing th cm cn lines = lines ++ crossing th cm cn [].
Proof.
  unfold crossing. destruct (_ || _); [reflexivity|now rewrite app_nil_r].
Qed.

Lemma cellCrossings_app th cell lines :
  cellCrossings th cell lines = lines ++ cellCrossings th cell [].
Proof.
  unfold cellCrossings. cbn [seq fold_left].
  rewrite (crossing_app th (nth 3 _ _) _ (crossing _ _ _ _)).
  rewrite (crossing_app th (nth 2 _ _) _ (crossing _ _ _ _)).
  rewrite (crossing_app th (nth 1 _ _) _ (crossing _ _ _ _)).
  rewrite (crossing_app th (nth 0 _ _) _ lines).
  rewrite (crossing_app th (nth 3 _ _) _ (crossing _ _ _ (crossing _ _ _ _))).
  rewrite (crossing_app th (nth 2 _ _) _ (crossing _ _ _ (crossing _ _ _ []))).
  rewrite (crossing_app th (nth 1 _ _) _ (crossing _ _ _ [])).
  now rewrite !app_assoc, ?app_nil_l.
Qed.

(** A loop that appends to a list collects what its turns append. *)
Lemma for_each_collect {A B} (l : list A) (f : A -> list B)
      (body : A -> list B -> M (list B)) w :
  (forall a s, In a l -> body a s w = Returns (s ++ f a) w) ->
  forall s, for_each l body s w = Returns (s ++ flat_map f l) w.
Proof.
  induction l as [|a l IH]; intros Hbody s; cbn [for_each flat_map].
  - now rewrite app_nil_r.
  - unfold bind. rewrite Hbody by now left.
    rewrite IH; [now rewrite app_assoc|].
    intros b s' Hb. apply Hbody. now right.
Qed.
Lemma contour_loop g cols th w :
  for_each (seq 0 (length g - 1)) (fun i lines =>
    for_each (seq 0 (cols - 1)) (fun j lines =>
      cell <- cellCorners g i j ;;
      ret (cellCrossings th cell lines))
    lines) [] w
  = Returns (levelPoints th g (length g) cols) w.
Proof.
  unfold levelPoints.
  rewrite (for_each_collect _
             (fun i => flat_map (fun j => cellPoints th g i j)
                                (seq 0 (cols - 1)))); [reflexivity|].
  intros i s Hi. apply in_seq in Hi.
  apply for_each_collect. intros j s' _.
  unfold bind. rewrite cellCorners_ok by lia.
  unfold ret, cellPoints. now rewrite cellCrossings_app.
Qed.

Lemma flat_map_singleton {A B} (h : A -> B) l :
  flat_map (fun a => [h a]) l = map h l.
Proof. induction l as [|a l IH]; simpl; [reflexivity|now rewrite IH]. Qed.

(** The contours of a grid with at least one row: one for each level, made
    of the points of its cells. *)
Lemma generateContours_eq row g levels w :
  generateContours (row :: g) levels w
  = Returns
      (map (fun k =>
              mkContour (of_nat k / of_nat levels)%js
                (levelPoints (of_nat k / of_nat levels)%js (row :: g)
                             (length (row :: g)) (length row)))
           (seq 1 levels)) w.
Proof.
  unfold generateContours, bind at 1. cbn [row0_length ret]. cbv zeta.
  rewrite (for_each_collect _
             (fun k =>
                [mkContour (of_nat k / of_nat levels)%js
                   (levelPoints (of_nat k / of_nat levels)%js (row :: g)
                                (length (row :: g)) (length row))])).
  - now rewrite flat_map_singleton.
  - intros k s _. unfold bind at 1. now rewrite contour_loop.
Qed.
Lemma cellCrossings_edges th c0 c1 c2 c3 :
  cellCrossings th [c0; c1; c2; c3] []
  = crossing th c0 c1 [] ++ crossing th c1 c2 [] ++ crossing th c2 c3 []
    ++ crossing th c3 c0 [].
Proof.
  unfold cellCrossings.
  cbn [seq fold_left nth Nat.add Nat.modulo Nat.divmod fst snd Nat.sub].
  rewrite (crossing_app th c3 c0), (crossing_app th c2 c3),
    (crossing_app th c1 c2).
  now rewrite <- !app_assoc.
Qed.

Lemma crossing_fin th xm ym a xn yn b :
  crossing (Fin th) (mkCorner (Fin xm) (Fin ym) (Fin a))
           (mkCorner (Fin xn) (Fin yn) (Fin b)) []
  = edgePoints th xm ym a xn yn b.
Proof.
  unfold crossing, edgePoints.
  cbn [corner_value corner_x corner_y nge nlt].
  destruct (Rlt_dec a th) as [Ha|Ha], (Rlt_dec b th) as [Hb|Hb];
    cbn [negb andb orb]; try reflexivity.
  - fin_arith. rewrite ndiv_fin by lra. fin_arith. cbn [app].
    do 3 f_equal; lra.
  - fin_arith. rewrite ndiv_fin by lra. fin_arith. cbn [app].
    do 3 f_equal; lra.
Qed.

Lemma ratio_unit a b th :
  a < th <= b \/ b < th <= a ->
  0 <= (th - a) / (b - a) <= 1 /\ a + (th - a) / (b - a) * (b - a) = th.
Proof.
  intros H. set (t := (th - a) / (b - a)).
  assert (E : t * (b - a) = th - a) by (unfold t; field; lra).
  split; [|lra]. destruct H as [H | H]; split; nra.
Qed.

Lemma edgePoints_In th xm ym a xn yn b p :
  In p (edgePoints th xm ym a xn yn b) ->
  (a < th <= b \/ b < th <= a) /\
  p = mkPoint (Fin (xm + (th - a) / (b - a) * (xn - xm)))
              (Fin (ym + (th - a) / (b - a) * (yn - ym))).
Proof.
  unfold edgePoints.
  destruct (Rlt_dec a th), (Rlt_dec b th); cbn [In]; intros H;
    try contradiction; destruct H as [<- | []]; (split; [lra|reflexivity]).
Qed.

Lemma edgePoints_same_side th xm ym a xn yn b :
  (a < th /\ b < th) \/ (th <= a /\ th <= b) ->
  edgePoints th xm ym a xn yn b = [].
Proof.
  unfold edgePoints. intros H.
  destruct (Rlt_dec a th), (Rlt_dec b th); try reflexivity; lra.
Qed.

Lemma edgePoints_length th xm ym a xn yn b :
  length (edgePoints th xm ym a xn yn b)
  = if xorb (if Rlt_dec a th then true else false)
            (if Rlt_dec b th then true else false) then 1%nat else 0%nat.
Proof.
  unfold edgePoints. now destruct (Rlt_dec a th), (Rlt_dec b th).
Qed.

(** The corners of a cell of a grid of reals, and the points the cell
    contributes, edge by edge. *)
Lemma cellPoints_fin rows cols g th i j :
  shape rows cols g -> all_cells finite g ->
  (i + 1 < rows)%nat -> (j + 1 < cols)%nat ->
  exists v0 v1 v2 v3,
    cornersOf g i j
    = [ mkCorner (Fin (INR j)) (Fin (INR i)) (Fin v0);
        mkCorner (Fin (INR j + 1)) (Fin (INR i)) (Fin v1);
        mkCorner (Fin (INR j + 1)) (Fin (INR i + 1)) (Fin v2);
        mkCorner (Fin (INR j)) (Fin (INR i + 1)) (Fin v3) ] /\
    peek g i j = Fin v0 /\ peek g i (j + 1) = Fin v1 /\
    peek g (i + 1) (j + 1) = Fin v2 /\ peek g (i + 1) j = Fin v3 /\
    cellPoints (Fin th) g i j
    = edgePoints th (INR j) (INR i) v0 (INR j + 1) (INR i) v1
      ++ edgePoints th (INR j + 1) (INR i) v1 (INR j + 1) (INR i + 1) v2
      ++ edgePoints th (INR j + 1) (INR i + 1) v2 (INR j) (INR i + 1) v3
      ++ edgePoints th (INR j) (INR i + 1) v3 (INR j) (INR i) v0.
Proof.
  intros Hs Hfin Hi Hj.
  assert (H0 : finite (peek g i j))
    by (apply (peek_inside rows cols); try assumption; lia).
  assert (H1 : finite (peek g i (j + 1)))
    by (apply (peek_inside rows cols); try assumption; lia).
  assert (H2 : finite (peek g (i + 1) (j + 1)))
    by (apply (peek_inside rows cols); try assumption; lia).
  assert (H3 : finite (peek g (i + 1) j))
    by (apply (peek_inside rows cols); try assumption; lia).
  apply finite_inv in H0, H1, H2, H3.
  destruct H0 as [v0 E0], H1 as [v1 E1], H2 as [v2 E2], H3 as [v3 E3].
  exists v0, v1, v2, v3.
  assert (Ec : cornersOf g i j
    = [ mkCorner (Fin (INR j)) (Fin (INR i)) (Fin v0);
        mkCorner (Fin (INR j + 1)) (Fin (INR i)) (Fin v1);
        mkCorner (Fin (INR j + 1)) (Fin (INR i + 1)) (Fin v2);
        mkCorner (Fin (INR j)) (Fin (INR i + 1)) (Fin v3) ]).
  { unfold cornersOf, of_nat. now rewrite E0, E1, E2, E3. }
  repeat (split; [assumption|]).
  unfold cellPoints. rewrite Ec, cellCrossings_edges.
  now rewrite !crossing_fin.
Qed.
Lemma cellPoints_crossed rows cols g th i j p :
  shape rows cols g -> all_cells finite g ->
  (i + 1 < rows)%nat -> (j + 1 < cols)%nat ->
  In p (cellPoints (Fin th) g i j) ->
  on_cell_boundary i j p /\ level_crossed th g i j p.
Proof.
  intros Hs Hfin Hi Hj Hp.
  destruct (cellPoints_fin rows cols g th i j Hs Hfin Hi Hj)
    as (v0 & v1 & v2 & v3 & Ec & _ & _ & _ & _ & E).
  rewrite E in Hp. clear E.
  repeat (apply in_app_or in Hp; destruct Hp as [Hp | Hp]);
    apply edgePoints_In in Hp; destruct Hp as [Hside ->];
    destruct (ratio_unit _ _ _ Hside) as [Ht Hv];
    match goal with
    | |- context [(?th' - ?a) / (?b - ?a)] => set (t := (th' - a) / (b - a)) in *
    end.
  - split.
    + exists (INR j + t * (INR j + 1 - INR j)), (INR i + t * (INR i - INR i)).
      split; [reflexivity|]. split; [nra|]. split; [nra|]. right. right. left.
      lra.
    + unfold level_crossed. rewrite Ec.
      exists 0%nat. do 2 eexists.
      exists (INR j), (INR i), v0, (INR j + 1), (INR i), v1, t.
      repeat split; try reflexivity; try assumption; apply Ht.
  - split.
    + exists (INR j + 1 + t * (INR j + 1 - (INR j + 1))),
             (INR i + t * (INR i + 1 - INR i)).
      split; [reflexivity|]. split; [nra|]. split; [nra|]. right. left. lra.
    + unfold level_crossed. rewrite Ec.
      exists 1%nat. do 2 eexists.
      exists (INR j + 1), (INR i), v1, (INR j + 1), (INR i + 1), v2, t.
      repeat split; try reflexivity; try assumption; apply Ht.
  - split.
    + exists (INR j + 1 + t * (INR j - (INR j + 1))),
             (INR i + 1 + t * (INR i + 1 - (INR i + 1))).
      split; [reflexivity|]. split; [nra|]. split; [nra|]. right. right. right.
      lra.
    + unfold level_crossed. rewrite Ec.
      exists 2%nat. do 2 eexists.
      exists (INR j + 1), (INR i + 1), v2, (INR j), (INR i + 1), v3, t.
      repeat split; try reflexivity; try assumption; apply Ht.
  - split.
    + exists (INR j + t * (INR j - INR j)),
             (INR i + 1 + t * (INR i - (INR i + 1))).
      split; [reflexivity|]. split; [nra|]. split; [nra|]. left. lra.
    + unfold level_crossed. rewrite Ec.
      exists 3%nat. do 2 eexists.
      exists (INR j), (INR i + 1), v3, (INR j), (INR i), v0, t.
      repeat split; try reflexivity; try assumption; apply Ht.
Qed.
Lemma cellPoints_even rows cols g th i j :
  shape rows cols g -> all_cells finite g ->
  (i + 1 < rows)%nat -> (j + 1 < cols)%nat ->
  Nat.even (length (cellPoints (Fin th) g i j)) = true.
Proof.
  intros Hs Hfin Hi Hj.
  destruct (cellPoints_fin rows cols g th i j Hs Hfin Hi Hj)
    as (v0 & v1 & v2 & v3 & _ & _ & _ & _ & _ & ->).
  rewrite !length_app, !edgePoints_length.
  now destruct (Rlt_dec v0 th), (Rlt_dec v1 th), (Rlt_dec v2 th),
    (Rlt_dec v3 th).
Qed.

Lemma cellPoints_none rows cols g lo hi th i j :
  shape rows cols g -> all_cells (between lo hi) g ->
  (i + 1 < rows)%nat -> (j + 1 < cols)%nat ->
  th <= lo \/ hi < th ->
  cellPoints (Fin th) g i j = [].
Proof.
  intros Hs Hb Hi Hj Hth.
  destruct (cellPoints_fin rows cols g th i j Hs (between_finite lo hi g Hb)
              Hi Hj)
    as (v0 & v1 & v2 & v3 & _ & E0 & E1 & E2 & E3 & ->).
  assert (B0 : between lo hi (Fin v0)).
  { rewrite <- E0. apply (peek_inside rows cols); try assumption; lia. }
  assert (B1 : between lo hi (Fin v1)).
  { rewrite <- E1. apply (peek_inside rows cols); try assumption; lia. }
  assert (B2 : between lo hi (Fin v2)).
  { rewrite <- E2. apply (peek_inside rows cols); try assumption; lia. }
  assert (B3 : between lo hi (Fin v3)).
  { rewrite <- E3. apply (peek_inside rows cols); try assumption; lia. }
  simpl in B0, B1, B2, B3.
  rewrite !edgePoints_same_side by lra. reflexivity.
Qed.

Lemma levelPoints_In th g rows cols p :
  In p (levelPoints th g rows cols) ->
  exists i j, (i + 1 < rows)%nat /\ (j + 1 < cols)%nat /\
              In p (cellPoints th g i j).
Proof.
  unfold levelPoints. intros H.
  apply in_flat_map in H. destruct H as (i & Hi & H).
  apply in_flat_map in H. destruct H as (j & Hj & H).
  apply in_seq in Hi, Hj. exists i, j. repeat split; [lia|lia|assumption].
Qed.

Lemma flat_map_even {A B} (f : A -> list B) l :
  (forall a, In a l -> Nat.even (length (f a)) = true) ->
  Nat.even (length (flat_map f l)) = true.
Proof.
  induction l as [|a l IH]; intros H; cbn [flat_map]; [reflexivity|].
  rewrite length_app, Nat.even_add, H by now left.
  rewrite IH; [reflexivity|]. intros b Hb. apply H. now right.
Qed.

Lemma flat_map_nil {A B} (f : A -> list B) l :
  (forall a, In a l -> f a = []) -> flat_map f l = [].
Proof.
  induction l as [|a l IH]; intros H; cbn [flat_map]; [reflexivity|].
  rewrite H by now left. rewrite IH; [reflexivity|].
  intros b Hb. apply H. now right.
Qed.

Lemma level_fin k levels :
  (1 <= levels)%nat ->
  (of_nat k / of_nat levels)%js = Fin (INR k / INR levels).
Proof.
  intros H. unfold of_nat. apply ndiv_fin.
  apply not_0_INR. lia.
Qed.

(** The contours of a rectangular grid, with the levels as reals. *)
Lemma generateContours_fin rows cols g levels w :
  shape rows cols g -> (1 <= rows)%nat ->
  generateContours g levels w
  = Returns
      (map (fun k =>
              mkContour (Fin (INR k / INR levels))
                (levelPoints (Fin (INR k / INR levels)) g rows cols))
           (seq 1 levels)) w.
Proof.
  intros Hs Hr. destruct g as [|row g]; [destruct Hs; simpl in *; lia|].
  rewrite generateContours_eq. f_equal.
  destruct Hs as [Hlen Hrows]. inversion Hrows as [|? ? Hrow _]; subst.
  apply map_ext_in. intros k Hk. apply in_seq in Hk.
  rewrite level_fin by lia. reflexivity.
Qed.
(** X15.  [generateContours] throws a TypeError on the empty grid, at
    [grid[0].length]. On every other grid, rectangular or not, it returns
    one contour for each of the levels [1/levels], [2/levels], ...,
    [levels/levels], in this order, and draws no random number. *)
Theorem generateContours_levels (g : grid) (levels : nat) (w : world) :
  (g = [] -> generateContours g levels w = Throws TypeError) /\
  (g <> [] ->
   exists cs,
     generateContours g levels w = Returns cs w /\
     length cs = levels /\
     map contour_level cs
     = map (fun k => (of_nat k / of_nat levels)%js) (seq 1 levels)).
Proof.
  split; [intros ->; reflexivity|].
  intros Hg. destruct g as [|row g]; [congruence|].
  eexists. split; [apply generateContours_eq|].
  split; [now rewrite length_map, length_seq|].
  rewrite map_map. reflexivity.
Qed.

Lemma generateContours_levels_witness :
  exists cs,
    generateContours spike_grid 15 (half_world []) = Returns cs (half_world [])
    /\ length cs = 15%nat /\
    map contour_level cs
    = map (fun k => (of_nat k / of_nat 15)%js) (seq 1 15).
Proof.
  apply (generateContours_levels spike_grid 15 (half_world [])).
  discriminate.
Defined.

(** X16.  On a rectangular grid of reals every point of every contour lies
    on the boundary of a cell of the grid: contour points never leave the
    board, and one of their coordinates is a whole number. *)
Theorem generateContours_on_cell_boundaries
    (rows cols : nat) (g : grid) (levels : nat) (w : world) :
  shape rows cols g -> (1 <= rows)%nat -> all_cells finite g ->
  exists cs,
    generateContours g levels w = Returns cs w /\
    forall c p, In c cs -> In p (contour_points c) ->
      exists i j, (i + 1 < rows)%nat /\ (j + 1 < cols)%nat /\
                  on_cell_boundary i j p.
Proof.
  intros Hs Hr Hfin. eexists.
  split; [apply (generateContours_fin rows cols); assumption|].
  intros c p Hc Hp. apply in_map_iff in Hc. destruct Hc as (k & <- & _).
  cbn [contour_points] in Hp. apply levelPoints_In in Hp.
  destruct Hp as (i & j & Hi & Hj & Hp). exists i, j.
  repeat (split; [assumption|]).
  exact (proj1 (cellPoints_crossed rows cols g _ i j p Hs Hfin Hi Hj Hp)).
Qed.

Lemma generateContours_on_cell_boundaries_witness :
  exists cs,
    generateContours spike_grid 4 (half_world []) = Returns cs (half_world [])
    /\ forall c p, In c cs -> In p (contour_points c) ->
         exists i j, (i + 1 < 3)%nat /\ (j + 1 < 4)%nat /\
                     on_cell_boundary i j p.
Proof.
  apply generateContours_on_cell_boundaries;
    [apply spike_grid_shape|lia|apply spike_grid_finite].
Defined.

(** X17.  On a rectangular grid of reals every point of a contour marks a
    crossing of its level: it lies on an edge of a cell whose end values are
    on different sides of the level, at the place where their linear
    interpolation equals the level. *)
Theorem generateContours_crosses_level
    (rows cols : nat) (g : grid) (levels : nat) (w : world) :
  shape rows cols g -> (1 <= rows)%nat -> all_cells finite g ->
  exists cs,
    generateContours g levels w = Returns cs w /\
    forall c p, In c cs -> In p (contour_points c) ->
      exists th i j,
        contour_level c = Fin th /\
        (i + 1 < rows)%nat /\ (j + 1 < cols)%nat /\
        level_crossed th g i j p.
Proof.
  intros Hs Hr Hfin. eexists.
  split; [apply (generateContours_fin rows cols); assumption|].
  intros c p Hc Hp. apply in_map_iff in Hc. destruct Hc as (k & <- & _).
  cbn [contour_points] in Hp. apply levelPoints_In in Hp.
  destruct Hp as (i & j & Hi & Hj & Hp). eexists _, i, j.
  split; [reflexivity|]. repeat (split; [assumption|]).
  exact (proj2 (cellPoints_crossed rows cols g _ i j p Hs Hfin Hi Hj Hp)).
Qed.

Lemma generateContours_crosses_level_witness :
  exists cs,
    generateContours spike_grid 4 (half_world []) = Returns cs (half_world [])
    /\ forall c p, In c cs -> In p (contour_points c) ->
         exists th i j,
           contour_level c = Fin th /\
           (i + 1 < 3)%nat /\ (j + 1 < 4)%nat /\
           level_crossed th spike_grid i j p.
Proof.
  apply generateContours_crosses_level;
    [apply spike_grid_shape|lia|apply spike_grid_finite].
Defined.

(** X18.  On a rectangular grid of reals every contour has an even number of
    points, every cell contributing an even number of them in turn: the
    points can be joined two by two, as the view draws them, without a
    segment running from one cell to another. *)
Theorem generateContours_points_in_pairs
    (rows cols : nat) (g : grid) (levels : nat) (w : world) :
  shape rows cols g -> (1 <= rows)%nat -> all_cells finite g ->
  exists cs,
    generateContours g levels w = Returns cs w /\
    forall c, In c cs ->
      Nat.even (length (contour_points c)) = true /\
      exists th,
        contour_points c
        = flat_map (fun i => flat_map (fun j => cellPoints th g i j)
                                      (seq 0 (cols - 1)))
                   (seq 0 (rows - 1)) /\
        forall i j, (i + 1 < rows)%nat -> (j + 1 < cols)%nat ->
                    Nat.even (length (cellPoints th g i j)) = true.
Proof.
  intros Hs Hr Hfin. eexists.
  split; [apply (generateContours_fin rows cols); assumption|].
  intros c Hc. apply in_map_iff in Hc. destruct Hc as (k & <- & _).
  cbn [contour_points].
  assert (Hcell : forall i j, (i + 1 < rows)%nat -> (j + 1 < cols)%nat ->
            Nat.even (length (cellPoints (Fin (INR k / INR levels)) g i j))
            = true).
  { intros i j Hi Hj. now apply (cellPoints_even rows cols). }
  split.
  - unfold levelPoints. apply flat_map_even. intros i Hi.
    apply flat_map_even. intros j Hj. apply in_seq in Hi, Hj.
    apply Hcell; lia.
  - eexists. split; [reflexivity|exact Hcell].
Qed.

Lemma generateContours_points_in_pairs_witness :
  exists cs,
    generateContours spike_grid 4 (half_world []) = Returns cs (half_world [])
    /\ forall c, In c cs ->
      Nat.even (length (contour_points c)) = true /\
      exists th,
        contour_points c
        = flat_map (fun i => flat_map (fun j => cellPoints th spike_grid i j)
                                      (seq 0 (4 - 1)))
                   (seq 0 (3 - 1)) /\
        forall i j, (i + 1 < 3)%nat -> (j + 1 < 4)%nat ->
                    Nat.even (length (cellPoints th spike_grid i j)) = true.
Proof.
  apply generateContours_points_in_pairs;
    [apply spike_grid_shape|lia|apply spike_grid_finite].
Defined.

(** X19.  A contour whose level is not inside the range of the grid is
    empty: when every cell lies in [[lo, hi]], the contours at levels [th <=
    lo] and [th > hi] have no point. On a constant grid every contour is
    empty. *)
Theorem generateContours_outside_range
    (rows cols : nat) (g : grid) (levels : nat) (lo hi : R) (w : world) :
  shape rows cols g -> (1 <= rows)%nat -> all_cells (between lo hi) g ->
  exists cs,
    generateContours g levels w = Returns cs w /\
    forall c th, In c cs -> contour_level c = Fin th ->
      th <= lo \/ hi < th -> contour_points c = [].
Proof.
  intros Hs Hr Hb. eexists.
  split; [apply (generateContours_fin rows cols); assumption|].
  intros c th Hc Hl Hth. apply in_map_iff in Hc. destruct Hc as (k & <- & _).
  cbn [contour_points contour_level] in *. injection Hl as Hl. rewrite Hl.
  unfold levelPoints. apply flat_map_nil. intros i Hi.
  apply flat_map_nil. intros j Hj. apply in_seq in Hi, Hj.
  apply (cellPoints_none rows cols g lo hi); try assumption; lia.
Qed.

Lemma generateContours_outside_range_witness :
  exists cs,
    generateContours (flat_grid 20 20 0.5) 15 (half_world [])
    = Returns cs (half_world []) /\
    forall c th, In c cs -> contour_level c = Fin th ->
      th <= 0.5 \/ 0.5 < th -> contour_points c = [].
Proof.
  apply (generateContours_outside_range 20 20);
    [apply flat_grid_shape|lia|].
  apply flat_grid_cells. simpl. lra.
Defined.

(* ================================================================= *)
(** ** The gradient field *)

Lemma strides_In spacing n i :
  In i (strides spacing n) <->
  (0 < i < n)%nat /\ Nat.divide (Pos.to_nat spacing) i.
Proof.
  unfold strides. pose proof (Pos2Nat.is_pos spacing) as Hs.
  set (s := Pos.to_nat spacing) in *. rewrite in_map_iff. split.
  - intros (k & <- & Hk). apply in_seq in Hk.
    assert (Hq : ((n - 1) / s * s <= n - 1)%nat).
    { rewrite Nat.mul_comm. apply Nat.Div0.mul_div_le. }
    split; [nia|]. now exists k.
  - intros ((H0 & Hn) & (q & ->)). exists q. split; [reflexivity|].
    apply in_seq. split; [nia|].
    assert (q <= (n - 1) / s)%nat; [|lia].
    apply Nat.div_le_lower_bound; nia.
Qed.

Lemma calculateGradient_differences rows cols g x y nl w :
  shape rows cols g -> (3 <= rows)%nat -> (3 <= cols)%nat ->
  all_cells finite g -> nl <= 0 ->
  calculateGradient g (Fin x) (Fin y) (Fin nl) w
  = Returns (mkGrad (Fin (central_dx g rows cols x y))
                    (Fin (central_dy g rows cols x y))) w.
Proof.
  intros Hs Hr Hc Hfin Hnl.
  destruct (calculateGradient_central rows cols g x y nl w Hs Hr Hc Hfin Hnl)
    as (e & wv & s & n & Ee & Ew & Es & En & ->).
  unfold central_dx, central_dy. now rewrite Ee, Ew, Es, En.
Qed.

Lemma fieldArrow_ok rows cols g i j gradients w :
  shape rows cols g -> (3 <= rows)%nat -> (3 <= cols)%nat ->
  all_cells finite g ->
  fieldArrow g i j gradients w
  = Returns (gradients ++ arrowsAt g rows cols i j) w.
Proof.
  intros Hs Hr Hc Hfin. unfold fieldArrow, bind, of_nat.
  rewrite (calculateGradient_differences rows cols) by (assumption || lra).
  cbn [grad_dx grad_dy]. fin_arith. unfold arrowsAt, ngt, nlt.
  destruct (Rlt_dec 0.0001 _) as [H|H].
  - unfold ret, Math_sqrt.
    destruct (Rlt_dec _ 0) as [N|_]; [lra|]. reflexivity.
  - unfold ret. now rewrite app_nil_r.
Qed.

(** The field of a grid of reals with at least three rows and three
    columns, stride point by stride point. *)
Lemma generateGradientField_eq rows cols g spacing w :
  shape rows cols g -> (3 <= rows)%nat -> (3 <= cols)%nat ->
  all_cells finite g ->
  generateGradientField g spacing w
  = Returns (flat_map (fun i => flat_map (fun j => arrowsAt g rows cols i j)
                                         (strides spacing cols))
                      (strides spacing rows)) w.
Proof.
  intros Hs Hr Hc Hfin. unfold generateGradientField, bind at 1.
  rewrite (row0_length_shape rows cols g Hs w) by lia. cbv zeta.
  replace (length g) with rows by (symmetry; apply Hs).
  rewrite (for_each_collect _
             (fun i => flat_map (fun j => arrowsAt g rows cols i j)
                                (strides spacing cols))); [reflexivity|].
  intros i s _. apply for_each_collect. intros j s' _.
  now apply fieldArrow_ok.
Qed.
Lemma arrowsAt_In g rows cols i j a :
  In a (arrowsAt g rows cols i j) <->
  0.0001 < central_dx g rows cols (INR j) (INR i)
           * central_dx g rows cols (INR j) (INR i)
           + central_dy g rows cols (INR j) (INR i)
             * central_dy g rows cols (INR j) (INR i) /\
  a = mkArrow (of_nat j) (of_nat i)
        (Fin (central_dx g rows cols (INR j) (INR i)))
        (Fin (central_dy g rows cols (INR j) (INR i)))
        (Fin (norm (central_dx g rows cols (INR j) (INR i))
                   (central_dy g rows cols (INR j) (INR i)))).
Proof.
  unfold arrowsAt. cbv zeta. destruct (Rlt_dec 0.0001 _) as [H|H]; cbn [In].
  - split; [intros [<- | []]; now split|intros [_ ->]; now left].
  - split; [contradiction|intros [H' _]; contradiction].
Qed.

Lemma central_bounds rows cols g lo hi x y :
  shape rows cols g -> (3 <= rows)%nat -> (3 <= cols)%nat ->
  all_cells (between lo hi) g ->
  Rabs (central_dx g rows cols x y) <= (hi - lo) / 2 /\
  Rabs (central_dy g rows cols x y) <= (hi - lo) / 2.
Proof.
  intros Hs Hr Hc Hb.
  destruct (clamped_floor_index y rows Hr) as (_ & Hi1 & Hi2).
  destruct (clamped_floor_index x cols Hc) as (_ & Hj1 & Hj2).
  unfold central_dx, central_dy.
  set (i := clampIndex y rows) in *. set (j := clampIndex x cols) in *.
  assert (B : forall i' j', (i' < rows)%nat -> (j' < cols)%nat ->
                            lo <= real_of (peek g i' j') <= hi).
  { intros i' j' Hi' Hj'.
    pose proof (peek_inside rows cols g Hs (between lo hi) i' j' Hb Hi' Hj')
      as H.
    destruct (peek g i' j'); simpl in *; tauto. }
  assert (B1 := B i (j + 1)%nat ltac:(lia) ltac:(lia)).
  assert (B2 := B i (j - 1)%nat ltac:(lia) ltac:(lia)).
  assert (B3 := B (i + 1)%nat j ltac:(lia) ltac:(lia)).
  assert (B4 := B (i - 1)%nat j ltac:(lia) ltac:(lia)).
  split; apply Rabs_le; lra.
Qed.

Lemma significant_norm dx dy : 0.0001 < dx * dx + dy * dy -> 0.01 < norm dx dy.
Proof.
  intros H. unfold norm.
  replace 0.01 with (sqrt (0.01 * 0.01)) by (apply sqrt_square; lra).
  apply sqrt_lt_1_alt. lra.
Qed.

Lemma strides_coarse spacing n :
  (n <= Pos.to_nat spacing)%nat -> strides spacing n = [].
Proof.
  intros H. unfold strides.
  pose proof (Pos2Nat.is_pos spacing).
  rewrite Nat.div_small by lia. reflexivity.
Qed.

(** X20.  The field of a grid of reals with at least three rows and three
    columns holds exactly one arrow for every stride point (the rows and
    columns that are positive multiples of the spacing) at which the
    gradient, estimated without noise, has a squared norm above 0.0001; the
    arrow carries the position, the gradient and its norm. No random number
    is drawn. *)
Theorem generateGradientField_arrows
    (rows cols : nat) (g : grid) (spacing : positive) (w : world) :
  shape rows cols g -> (3 <= rows)%nat -> (3 <= cols)%nat ->
  all_cells finite g ->
  exists field,
    generateGradientField g spacing w = Returns field w /\
    forall a,
      In a field <->
      exists i j dx dy,
        (0 < i < rows)%nat /\ Nat.divide (Pos.to_nat spacing) i /\
        (0 < j < cols)%nat /\ Nat.divide (Pos.to_nat spacing) j /\
        calculateGradient g (of_nat j) (of_nat i) (Fin 0) w
        = Returns (mkGrad (Fin dx) (Fin dy)) w /\
        0.0001 < dx * dx + dy * dy /\
        a = mkArrow (of_nat j) (of_nat i) (Fin dx) (Fin dy)
                    (Fin (norm dx dy)).
Proof.
  intros Hs Hr Hc Hfin. eexists.
  split; [apply (generateGradientField_eq rows cols); assumption|].
  assert (Hg : forall i j,
            calculateGradient g (of_nat j) (of_nat i) (Fin 0) w
            = Returns (mkGrad (Fin (central_dx g rows cols (INR j) (INR i)))
                              (Fin (central_dy g rows cols (INR j) (INR i))))
                      w).
  { intros i j. unfold of_nat.
    apply (calculateGradient_differences rows cols); assumption || lra. }
  intros a. split.
  - intros H. apply in_flat_map in H. destruct H as (i & Hi & H).
    apply in_flat_map in H. destruct H as (j & Hj & H).
    apply strides_In in Hi, Hj. apply arrowsAt_In in H.
    destruct H as [Hsig ->], Hi as [Hi Hdi], Hj as [Hj Hdj].
    exists i, j, (central_dx g rows cols (INR j) (INR i)),
      (central_dy g rows cols (INR j) (INR i)).
    repeat (split; [assumption || apply Hi || apply Hj || apply Hg|]).
    reflexivity.
  - intros (i & j & dx & dy & Hi & Hdi & Hj & Hdj & Hrun & Hsig & ->).
    rewrite Hg in Hrun. injection Hrun as <- <-.
    apply in_flat_map. exists i. split; [apply strides_In; now split|].
    apply in_flat_map. exists j. split; [apply strides_In; now split|].
    apply arrowsAt_In. now split.
Qed.

Lemma generateGradientField_arrows_witness :
  exists field,
    generateGradientField spike_grid 1 (half_world [])
    = Returns field (half_world []) /\
    forall a,
      In a field <->
      exists i j dx dy,
        (0 < i < 3)%nat /\ Nat.divide (Pos.to_nat 1) i /\
        (0 < j < 4)%nat /\ Nat.divide (Pos.to_nat 1) j /\
        calculateGradient spike_grid (of_nat j) (of_nat i) (Fin 0)
                          (half_world [])
        = Returns (mkGrad (Fin dx) (Fin dy)) (half_world []) /\
        0.0001 < dx * dx + dy * dy /\
        a = mkArrow (of_nat j) (of_nat i) (Fin dx) (Fin dy)
                    (Fin (norm dx dy)).
Proof.
  apply (generateGradientField_arrows 3 4);
    [apply spike_grid_shape|lia|lia|apply spike_grid_finite].
Defined.

(** X21.  Every arrow of the field has a magnitude above 0.01, the norm of
    its direction, so that a user can divide by it; on a grid with cells in
    [[lo, hi]] each component of the direction is at most [(hi - lo) / 2] in
    absolute value. *)
Theorem generateGradientField_magnitude
    (rows cols : nat) (g : grid) (spacing : positive) (lo hi : R)
    (w : world) :
  shape rows cols g -> (3 <= rows)%nat -> (3 <= cols)%nat ->
  all_cells (between lo hi) g ->
  exists field,
    generateGradientField g spacing w = Returns field w /\
    forall a, In a field ->
      exists dx dy,
        arrow_dx a = Fin dx /\ arrow_dy a = Fin dy /\
        arrow_magnitude a = Fin (norm dx dy) /\
        0.01 < norm dx dy /\
        Rabs dx <= (hi - lo) / 2 /\ Rabs dy <= (hi - lo) / 2.
Proof.
  intros Hs Hr Hc Hb. eexists.
  split; [apply (generateGradientField_eq rows cols); try assumption;
          now apply (between_finite lo hi)|].
  intros a H. apply in_flat_map in H. destruct H as (i & _ & H).
  apply in_flat_map in H. destruct H as (j & _ & H).
  apply arrowsAt_In in H. destruct H as [Hsig ->].
  destruct (central_bounds rows cols g lo hi (INR j) (INR i) Hs Hr Hc Hb)
    as [Bx By].
  eexists _, _. cbn [arrow_dx arrow_dy arrow_magnitude].
  repeat (split; [reflexivity|]).
  split; [now apply significant_norm|]. now split.
Qed.

Lemma generateGradientField_magnitude_witness :
  exists field,
    generateGradientField spike_grid 1 (half_world [])
    = Returns field (half_world []) /\
    forall a, In a field ->
      exists dx dy,
        arrow_dx a = Fin dx /\ arrow_dy a = Fin dy /\
        arrow_magnitude a = Fin (norm dx dy) /\
        0.01 < norm dx dy /\
        Rabs dx <= (1 - 0) / 2 /\ Rabs dy <= (1 - 0) / 2.
Proof.
  apply (generateGradientField_magnitude 3 4);
    [apply spike_grid_shape|lia|lia|].
  unfold all_cells, spike_grid.
  repeat (constructor; try (simpl; lra)).
Defined.

(** X22.  A constant grid has no significant gradient: its field is empty. *)
Theorem generateGradientField_flat
    (rows cols : nat) (c : R) (spacing : positive) (w : world) :
  (3 <= rows)%nat -> (3 <= cols)%nat ->
  generateGradientField (flat_grid rows cols c) spacing w = Returns [] w.
Proof.
  intros Hr Hc.
  rewrite (generateGradientField_eq rows cols _ spacing w
             (flat_grid_shape rows cols c) Hr Hc
             (flat_grid_cells finite rows cols c I)).
  f_equal. apply flat_map_nil. intros i _. apply flat_map_nil. intros j _.
  destruct (central_bounds rows cols (flat_grid rows cols c) c c
              (INR j) (INR i) (flat_grid_shape rows cols c) Hr Hc)
    as [Bx By].
  { apply flat_grid_cells. simpl. lra. }
  unfold arrowsAt. cbv zeta.
  destruct (Rlt_dec 0.0001 _) as [H|_]; [|reflexivity].
  replace ((c - c) / 2) with 0 in Bx, By by lra.
  assert (Ex : central_dx (flat_grid rows cols c) rows cols (INR j) (INR i) = 0).
  { revert Bx. unfold Rabs. destruct (Rcase_abs _); lra. }
  assert (Ey : central_dy (flat_grid rows cols c) rows cols (INR j) (INR i) = 0).
  { revert By. unfold Rabs. destruct (Rcase_abs _); lra. }
  rewrite Ex, Ey in H. lra.
Qed.

Lemma generateGradientField_flat_witness :
  generateGradientField (flat_grid 20 20 0.5) 20 (half_world [])
  = Returns [] (half_world []).
Proof. apply generateGradientField_flat; lia. Defined.

Lemma field_loop_coarse g rows cols spacing w :
  (rows <= Pos.to_nat spacing)%nat \/ (cols <= Pos.to_nat spacing)%nat ->
  for_each (strides spacing rows)
    (fun i gradients =>
       for_each (strides spacing cols)
         (fun j gradients => fieldArrow g i j gradients) gradients) [] w
  = Returns [] w.
Proof.
  intros [H | H].
  - now rewrite strides_coarse by assumption.
  - apply for_each_skip. intros i s w0 _.
    now rewrite strides_coarse by assumption.
Qed.

(** X23.  A spacing that reaches the number of rows or of columns leaves no
    stride point: the field of such a grid is empty whatever its cells hold,
    also where the gradient estimator would throw. *)
Theorem generateGradientField_coarse
    (row : list number) (g : grid) (spacing : positive) (w : world) :
  (length (row :: g) <= Pos.to_nat spacing)%nat \/
  (length row <= Pos.to_nat spacing)%nat ->
  generateGradientField (row :: g) spacing w = Returns [] w.
Proof.
  intros H. unfold generateGradientField, bind at 1.
  cbn [row0_length ret]. cbv zeta. now apply field_loop_coarse.
Qed.

Lemma generateGradientField_coarse_witness :
  generateGradientField [[Fin 1; NaN]; [PInf; Fin 0]] 20 (half_world [])
  = Returns [] (half_world []).
Proof. apply generateGradientField_coarse. left. simpl. lia. Defined.

(* ================================================================= *)
(** ** The state kept by the view *)

Lemma Array_slice_last {A} (n : nat) (a : list A) :
  (0 < n)%nat ->
  Array_slice (- Z.of_nat n) a = skipn (length a - n) a.
Proof.
  intros Hn. unfold Array_slice.
  destruct (Z.ltb_spec (- Z.of_nat n) 0) as [_|H]; [|lia].
  f_equal. lia.
Qed.

Lemma pushPosition_skipn {A} (prev : list A) p :
  pushPosition prev p = skipn (length (prev ++ [p]) - 50) (prev ++ [p]).
Proof.
  unfold pushPosition. cbv zeta.
  destruct (Nat.ltb_spec 50 (length (prev ++ [p]))) as [H|H].
  - apply (Array_slice_last 50). lia.
  - replace (length (prev ++ [p]) - 50)%nat with O by lia. reflexivity.
Qed.

(** X24.  A position history never holds more than 50 positions: the update
    appends the new position, which becomes the last one, and drops the
    oldest positions beyond the last 50. *)
Theorem pushPosition_bounded {A} (prev : list A) (p : A) :
  length (pushPosition prev p) = Nat.min 50 (S (length prev)) /\
  last (pushPosition prev p) p = p /\
  exists dropped,
    prev ++ [p] = dropped ++ pushPosition prev p /\
    length dropped = (S (length prev) - 50)%nat.
Proof.
  rewrite pushPosition_skipn.
  assert (Hlen : length (prev ++ [p]) = S (length prev))
    by (rewrite length_app; simpl; lia).
  split; [rewrite length_skipn; lia|]. split.
  - rewrite Hlen.
    assert (Hk : (S (length prev) - 50 <= length prev)%nat) by lia.
    revert Hk. generalize (S (length prev) - 50)%nat as k. intros k Hk.
    rewrite skipn_app. replace (k - length prev)%nat with O by lia.
    cbn [skipn]. now rewrite last_last.
  - exists (firstn (length (prev ++ [p]) - 50) (prev ++ [p])).
    split; [now rewrite firstn_skipn|].
    rewrite length_firstn. lia.
Qed.
Lemma Array_slice_keeps {A} (n : nat) (prev : list A) (x : A) :
  (0 < n)%nat ->
  length (Array_slice (- Z.of_nat n) (prev ++ [x]))
  = Nat.min n (S (length prev)) /\
  last (Array_slice (- Z.of_nat n) (prev ++ [x])) x = x /\
  exists dropped,
    prev ++ [x] = dropped ++ Array_slice (- Z.of_nat n) (prev ++ [x]) /\
    length dropped = (S (length prev) - n)%nat.
Proof.
  intros Hn. rewrite Array_slice_last by assumption.
  assert (Hlen : length (prev ++ [x]) = S (length prev))
    by (rewrite length_app; simpl; lia).
  split; [rewrite length_skipn; lia|]. split.
  - rewrite Hlen.
    assert (Hk : (S (length prev) - n <= length prev)%nat) by lia.
    revert Hk. generalize (S (length prev) - n)%nat as k. intros k Hk.
    rewrite skipn_app. replace (k - length prev)%nat with O by lia.
    cbn [skipn]. now rewrite last_last.
  - exists (firstn (length (prev ++ [x]) - n) (prev ++ [x])).
    split; [now rewrite firstn_skipn|].
    rewrite length_firstn. lia.
Qed.

(** X25.  The loss history never holds more than 100 values of either loss:
    an update appends the two new losses, which become the last values, and
    drops the oldest values beyond the last 100. *)
Theorem pushLosses_bounded (prev : lossHistory) (l : losses) :
  (length (history_defender (pushLosses prev l))
   = Nat.min 100 (S (length (history_defender prev))) /\
   last (history_defender (pushLosses prev l)) (defenderLoss l)
   = defenderLoss l /\
   exists dropped,
     history_defender prev ++ [defenderLoss l]
     = dropped ++ history_defender (pushLosses prev l) /\
     length dropped = (S (length (history_defender prev)) - 100)%nat) /\
  (length (history_adversary (pushLosses prev l))
   = Nat.min 100 (S (length (history_adversary prev))) /\
   last (history_adversary (pushLosses prev l)) (adversaryLoss l)
   = adversaryLoss l /\
   exists dropped,
     history_adversary prev ++ [adversaryLoss l]
     = dropped ++ history_adversary (pushLosses prev l) /\
     length dropped = (S (length (history_adversary prev)) - 100)%nat).
Proof.
  unfold pushLosses. cbn [history_defender history_adversary].
  split; apply (Array_slice_keeps 100); lia.
Qed.
Lemma on_board_finite rows cols p : on_board rows cols p -> finite_pos p.
Proof.
  intros [Hx Hy]. split.
  - destruct (pos_x p); simpl in *; tauto.
  - destruct (pos_y p); simpl in *; tauto.
Qed.

Lemma holds_on_board_old rows cols w w' ext l :
  store w' = store w ++ ext ->
  holds_on_board rows cols w l -> holds_on_board rows cols w' l.
Proof.
  intros Hst (p & Hp & Hb). exists p. split; [|assumption].
  rewrite Hst. now apply nth_error_old.
Qed.

Lemma pushPosition_Forall {A} (P : A -> Prop) prev p :
  Forall P prev -> P p -> Forall P (pushPosition prev p).
Proof.
  intros Hprev Hp. rewrite pushPosition_skipn. apply Forall_drop.
  apply Forall_app. split; [assumption|]. now constructor.
Qed.

Lemma pushPosition_length {A} (prev : list A) p :
  length (pushPosition prev p) = Nat.min 50 (S (length prev)).
Proof.
  rewrite pushPosition_skipn, length_skipn, length_app. cbn [length]. lia.
Qed.

(** One frame on a board of reals with at least three rows and columns. *)
Lemma animationStep_ok rows cols g d a v w :
  shape rows cols g -> (3 <= rows)%nat -> (3 <= cols)%nat ->
  all_cells finite g -> 0 < d -> 0 <= a -> zero_free w ->
  nth_error (store w) (view_grid v) = Some (OGrid g) ->
  (exists p, nth_error (store w) (view_defender v) = Some (OPos p) /\
             finite_pos p) ->
  (exists p, nth_error (store w) (view_adversary v) = Some (OPos p) /\
             finite_pos p) ->
  exists w' pd pa,
    animationStep (Fin d) (Fin a) v w
    = Returns (mkView (view_grid v) (length (store w)) (S (length (store w)))
                 (S (view_iteration v))
                 (pushPosition (view_defenderHistory v) (length (store w)))
                 (pushPosition (view_adversaryHistory v)
                               (S (length (store w)))))
              w' /\
    entropy w' = entropy w /\
    store w' = store w ++ [OPos pd; OPos pa] /\
    on_board rows cols pd /\ on_board rows cols pa.
Proof.
  intros Hs Hr Hc Hfin Hd Ha Hz Hg (pd & Hpd & Fd) (pa & Hpa & Fa).
  destruct pd as [xd yd], pa as [xa ya].
  destruct Fd as [Fxd Fyd], Fa as [Fxa Fya]. cbn [pos_x pos_y] in *.
  apply finite_inv in Fxd, Fyd, Fxa, Fya.
  destruct Fxd as [xd' ->], Fyd as [yd' ->], Fxa as [xa' ->], Fya as [ya' ->].
  pose proof (simulateStep_ok (view_defender v) (view_adversary v)
                (view_grid v) g rows cols xd' yd' xa' ya' d a w
                Hpd Hpa Hg Hs Hr Hc Hfin Hd Ha Hz) as H.
  unfold run_ok in H. unfold animationStep, bind.
  destruct (simulateStep _ _ _ _ _ w) as [[nd na] w'|e]; [|contradiction].
  destruct H as (Er & He & gdx & gdy & ax' & ay' & _ & Hst).
  injection Er as -> ->.
  eexists w', _, _. split; [reflexivity|]. split; [assumption|].
  split; [exact Hst|].
  split; apply clampToBoard_on_board; lia.
Qed.

(** What a run of frames keeps: the uniform source, the objects that were
    there, the grid; the histories hold positions on the board. *)
Lemma animation_ok rows cols g strengths :
  shape rows cols g -> (3 <= rows)%nat -> (3 <= cols)%nat ->
  all_cells finite g ->
  Forall (fun s => 0 < fst s /\ 0 <= snd s) strengths ->
  forall v w,
    zero_free w ->
    nth_error (store w) (view_grid v) = Some (OGrid g) ->
    (exists p, nth_error (store w) (view_defender v) = Some (OPos p) /\
               finite_pos p) ->
    (exists p, nth_error (store w) (view_adversary v) = Some (OPos p) /\
               finite_pos p) ->
    (length (view_defenderHistory v) <= 50)%nat ->
    (length (view_adversaryHistory v) <= 50)%nat ->
    Forall (holds_on_board rows cols w) (view_defenderHistory v) ->
    Forall (holds_on_board rows cols w) (view_adversaryHistory v) ->
    exists v' w' ext,
      animation strengths v w = Returns v' w' /\
      entropy w' = entropy w /\
      store w' = store w ++ ext /\
      view_grid v' = view_grid v /\
      view_iteration v' = (view_iteration v + length strengths)%nat /\
      length (view_defenderHistory v')
      = Nat.min 50 (length (view_defenderHistory v) + length strengths) /\
      length (view_adversaryHistory v')
      = Nat.min 50 (length (view_adversaryHistory v) + length strengths) /\
      Forall (holds_on_board rows cols w') (view_defenderHistory v') /\
      Forall (holds_on_board rows cols w') (view_adversaryHistory v') /\
      (strengths <> [] ->
       holds_on_board rows cols w' (view_defender v') /\
       holds_on_board rows cols w' (view_adversary v')).
Proof.
  intros Hs Hr Hc Hfin Hstr.
  induction Hstr as [|[d a] strengths [Hd Ha] Hstr IH];
    intros v w Hz Hg Hdef Hadv HdL HaL HdH HaH.
  - exists v, w, []. unfold animation. cbn [for_each ret length].
    rewrite app_nil_r, !Nat.add_0_r.
    repeat (split; [reflexivity || assumption || lia|]). congruence.
  - cbn [fst snd] in Hd, Ha.
    destruct (animationStep_ok rows cols g d a v w Hs Hr Hc Hfin Hd Ha Hz Hg
                Hdef Hadv)
      as (w1 & pd & pa & Hrun & He & Hst & Bd & Ba).
    set (v1 := mkView _ _ _ _ _ _) in Hrun.
    assert (Hd1 : holds_on_board rows cols w1 (view_defender v1)).
    { exists pd. split; [|assumption]. rewrite Hst. apply nth_error_first. }
    assert (Ha1 : holds_on_board rows cols w1 (view_adversary v1)).
    { exists pa. split; [|assumption]. rewrite Hst. apply nth_error_second. }
    destruct (IH v1 w1) as (v' & w' & ext & Hrun' & He' & Hst' & Hg' & Hit &
                            HLd & HLa & HFd & HFa & Hcur).
    + intros n. rewrite He. apply Hz.
    + cbn [v1 view_grid]. rewrite Hst. now apply nth_error_old.
    + destruct Hd1 as (p & Hp & Hb). exists p. split; [assumption|].
      now apply (on_board_finite rows cols).
    + destruct Ha1 as (p & Hp & Hb). exists p. split; [assumption|].
      now apply (on_board_finite rows cols).
    + cbn [v1 view_defenderHistory]. rewrite pushPosition_length. lia.
    + cbn [v1 view_adversaryHistory]. rewrite pushPosition_length. lia.
    + cbn [v1 view_defenderHistory]. apply pushPosition_Forall; [|exact Hd1].
      eapply Forall_impl; [|exact HdH]. intros l.
      now apply (holds_on_board_old rows cols w w1 [OPos pd; OPos pa]).
    + cbn [v1 view_adversaryHistory]. apply pushPosition_Forall; [|exact Ha1].
      eapply Forall_impl; [|exact HaH]. intros l.
      now apply (holds_on_board_old rows cols w w1 [OPos pd; OPos pa]).
    + exists v', w', ([OPos pd; OPos pa] ++ ext).
      split.
      { unfold animation in *. cbn [for_each fst snd]. unfold bind.
        now rewrite Hrun. }
      split; [congruence|].
      split; [rewrite Hst', Hst; now rewrite <- app_assoc|].
      split; [exact Hg'|].
      split; [rewrite Hit; cbn [v1 view_iteration length]; lia|].
      split.
      { rewrite HLd. cbn [v1 view_defenderHistory length].
        rewrite pushPosition_length. lia. }
      split.
      { rewrite HLa. cbn [v1 view_adversaryHistory length].
        rewrite pushPosition_length. lia. }
      split; [assumption|]. split; [assumption|].
      intros _. destruct strengths as [|s strengths].
      * unfold animation in Hrun'. cbn [for_each ret] in Hrun'.
        injection Hrun' as <- <-. now split.
      * apply Hcur. discriminate.
Qed.
(** X26.  The states a run of frames reaches. Starting from empty histories
    on a board of reals with at least three rows and three columns, with
    positive defender strengths and a uniform source that never returns 0,
    any number of frames runs without an exception; afterwards the iteration
    counter has advanced by the number of frames, each history holds the
    positions of the last frames, 50 at most, every position of the
    histories and the two current positions are on the board, and no object
    that existed before the run has changed. *)
Theorem animation_reachable
    (rows cols : nat) (g : grid) (strengths : list (R * R))
    (gridloc defender adversary : loc) (pd pa : position) (it : nat)
    (w : world) :
  shape rows cols g -> (3 <= rows)%nat -> (3 <= cols)%nat ->
  all_cells finite g ->
  Forall (fun s => 0 < fst s /\ 0 <= snd s) strengths ->
  zero_free w ->
  nth_error (store w) gridloc = Some (OGrid g) ->
  nth_error (store w) defender = Some (OPos pd) -> finite_pos pd ->
  nth_error (store w) adversary = Some (OPos pa) -> finite_pos pa ->
  exists v' w',
    animation strengths (mkView gridloc defender adversary it [] []) w
    = Returns v' w' /\
    view_grid v' = gridloc /\
    view_iteration v' = (it + length strengths)%nat /\
    length (view_defenderHistory v') = Nat.min 50 (length strengths) /\
    length (view_adversaryHistory v') = Nat.min 50 (length strengths) /\
    Forall (holds_on_board rows cols w') (view_defenderHistory v') /\
    Forall (holds_on_board rows cols w') (view_adversaryHistory v') /\
    (strengths <> [] ->
     holds_on_board rows cols w' (view_defender v') /\
     holds_on_board rows cols w' (view_adversary v')) /\
    (forall l, (l < length (store w))%nat ->
               nth_error (store w') l = nth_error (store w) l).
Proof.
  intros Hs Hr Hc Hfin Hstr Hz Hg Hd Fd Ha Fa.
  destruct (animation_ok rows cols g strengths Hs Hr Hc Hfin Hstr
              (mkView gridloc defender adversary it [] []) w Hz Hg)
    as (v' & w' & ext & Hrun & _ & Hst & Hg' & Hit & HLd & HLa & HFd & HFa
        & Hcur);
    cbn [view_defender view_adversary view_defenderHistory
         view_adversaryHistory length];
    try (now eexists; split; eassumption); try lia; try constructor.
  exists v', w'. cbn [view_grid view_iteration view_defenderHistory
                      view_adversaryHistory length Nat.add] in *.
  repeat (split; [assumption|]).
  intros l Hl. rewrite Hst. now apply nth_error_app1.
Qed.

Lemma animation_reachable_witness :
  exists v' w',
    animation [(5, 5); (5, 5); (5, 7)]
              (mkView 2%nat 0%nat 1%nat 0%nat [] []) scenario_world
    = Returns v' w' /\
    view_grid v' = 2%nat /\
    view_iteration v' = (0 + 3)%nat /\
    length (view_defenderHistory v') = Nat.min 50 3 /\
    length (view_adversaryHistory v') = Nat.min 50 3 /\
    Forall (holds_on_board 20 20 w') (view_defenderHistory v') /\
    Forall (holds_on_board 20 20 w') (view_adversaryHistory v') /\
    ([(5, 5); (5, 5); (5, 7)] <> [] ->
     holds_on_board 20 20 w' (view_defender v') /\
     holds_on_board 20 20 w' (view_adversary v')) /\
    (forall l, (l < length (store scenario_world))%nat ->
               nth_error (store w') l = nth_error (store scenario_world) l).
Proof.
  apply (animation_reachable 20 20 (flat_grid 20 20 0.5)
           [(5, 5); (5, 5); (5, 7)] 2%nat 0%nat 1%nat
           (mkPos (Fin 5) (Fin 14)) (mkPos (Fin 14) (Fin 5)) 0%nat
           scenario_world);
    try reflexivity; try lia; try (simpl; tauto).
  - apply flat_grid_shape.
  - now apply flat_grid_cells.
  - repeat constructor; simpl; lra.
  - apply zero_free_half.
  - split; exact I.
  - split; exact I.
Defined.

(* ================================================================= *)
(** ** From the regeneration of the landscape to the frames *)

Lemma in_unit_finite g : all_cells in_unit g -> all_cells finite g.
Proof. apply between_finite. Qed.

Lemma generateGradientField_returns rows cols g spacing w :
  shape rows cols g -> (1 <= rows)%nat -> all_cells finite g ->
  (2 <= Pos.to_nat spacing)%nat ->
  exists field, generateGradientField g spacing w = Returns field w.
Proof.
  intros Hs Hr Hfin Hsp.
  destruct (le_lt_dec 3 rows) as [Hr3|Hr3];
    [destruct (le_lt_dec 3 cols) as [Hc3|Hc3]|].
  - eexists. apply (generateGradientField_eq rows cols); assumption.
  - destruct g as [|row g]; [destruct Hs; simpl in *; lia|].
    exists []. unfold generateGradientField, bind at 1.
    cbn [row0_length ret]. cbv zeta. apply field_loop_coarse. right.
    destruct Hs as [_ Hrows]. inversion Hrows; subst. lia.
  - destruct g as [|row g]; [destruct Hs; simpl in *; lia|].
    exists []. unfold generateGradientField, bind at 1.
    cbn [row0_length ret]. cbv zeta. apply field_loop_coarse. left.
    destruct Hs as [Hlen _]. lia.
Qed.
Lemma floor_fifth x (lo hi : Z) :
  IZR lo * 5 <= x < IZR hi * 5 -> (lo <= Zfloor (x / 5) < hi)%Z.
Proof.
  intros [H0 H1]. split.
  - apply Zfloor_lub. lra.
  - apply lt_IZR. pose proof (Zfloor_bound (x / 5)). lra.
Qed.

(** The regeneration on a canvas at least five pixels high. *)
Lemma regenerate_ok width height w :
  0 < width < 21474836480 -> 5 <= height < 21474836480 ->
  exists g w1 contours field,
    generateLossLandscape (Fin width) (Fin height) (Fin 5) w = Returns g w1 /\
    only_draws w w1 /\
    shape (Z.to_nat (Zfloor (height / 5))) (Z.to_nat (Zfloor (width / 5))) g /\
    all_cells in_unit g /\
    length contours = 15%nat /\
    regenerate (Fin width) (Fin height) w
    = Returns
        (Some (mkScene contours field
                 (mkView (length (store w)) (S (length (store w)))
                         (S (S (length (store w)))) 0 [] [])))
        (set_store w1
           (store w
            ++ [ OGrid g;
                 OPos (mkPos (Fin (INR (Z.to_nat (Zfloor (width / 5))) * 0.3))
                             (Fin (INR (Z.to_nat (Zfloor (height / 5))) * 0.7)));
                 OPos (mkPos (Fin (INR (Z.to_nat (Zfloor (width / 5))) * 0.7))
                             (Fin (INR (Z.to_nat (Zfloor (height / 5))) * 0.3)))
               ])).
Proof.
  intros Hw Hh.
  assert (Hzc : (0 <= Zfloor (width / 5) < 4294967296)%Z)
    by (apply floor_fifth; simpl; lra).
  assert (Hzr : (1 <= Zfloor (height / 5) < 4294967296)%Z)
    by (apply floor_fifth; simpl; lra).
  destruct (run_ok_returns _ _ _
              (generateLossLandscape_ok width height 5 w ltac:(lra) Hzc Hzr))
    as (g & w1 & Hrun & Hw1 & Hs & Hu).
  set (rows := Z.to_nat (Zfloor (height / 5))) in *.
  set (cols := Z.to_nat (Zfloor (width / 5))) in *.
  assert (Hr : (1 <= rows)%nat) by (unfold rows; lia).
  pose proof (in_unit_finite g Hu) as Hfin.
  destruct (generateGradientField_returns rows cols g 20
              (set_store w1 (store w1 ++ [OGrid g])) Hs Hr Hfin)
    as [field Hfield]; [simpl; lia|].
  exists g, w1,
    (map (fun k =>
            mkContour (Fin (INR k / INR 15))
              (levelPoints (Fin (INR k / INR 15)) g rows cols))
         (seq 1 15)), field.
  split; [exact Hrun|]. split; [assumption|].
  split; [assumption|]. split; [assumption|]. split.
  2:{ unfold regenerate, nseq.
      destruct (Req_dec_T width 0) as [E|_]; [lra|].
      destruct (Req_dec_T height 0) as [E|_]; [lra|]. cbn [orb]. cbv zeta.
      unfold bind at 1. rewrite Hrun. unfold bind at 1, alloc at 1.
      unfold bind at 1.
      rewrite (generateContours_fin rows cols g 15 _ Hs Hr).
      unfold bind at 1. rewrite Hfield.
      unfold bind at 1.
      rewrite (row0_length_shape rows cols g Hs _ Hr).
      replace (length g) with rows by (symmetry; apply Hs).
      unfold bind, alloc, ret, of_nat. fin_arith.
      cbn [store set_store entropy drawn].
      destruct Hw1 as [He Hst]. rewrite Hst.
      rewrite !length_app. cbn [length].
      rewrite <- !app_assoc. cbn [app].
      unfold set_store. cbn [entropy drawn store].
      replace (length (store w) + 1)%nat with (S (length (store w))) by lia.
      replace (S (length (store w)) + 1)%nat with (S (S (length (store w))))
        by lia.
      reflexivity. }
  now rewrite length_map, length_seq.
Qed.
(** X27.  The regeneration of the landscape on a canvas at least five pixels
    high: the effect returns a scene. The grid has [floor (height / 5)] rows
    and [floor (width / 5)] columns of cells in [[0, 1]] and there are 15
    contours; the store gains the grid and the two positions, the defender
    at [(0.3 cols, 0.7 rows)] and the adversary at [(0.7 cols, 0.3 rows)],
    which are on the board as soon as the grid has four rows and four
    columns; the histories are empty and the iteration counter is 0. *)
Theorem regenerate_scene (width height : R) (w : world) :
  0 < width < 21474836480 -> 5 <= height < 21474836480 ->
  exists sc g pd pa w',
    regenerate (Fin width) (Fin height) w = Returns (Some sc) w' /\
    entropy w' = entropy w /\
    store w' = store w ++ [OGrid g; OPos pd; OPos pa] /\
    scene_view sc
    = mkView (length (store w)) (S (length (store w)))
             (S (S (length (store w)))) 0 [] [] /\
    length (scene_contours sc) = 15%nat /\
    shape (Z.to_nat (Zfloor (height / 5))) (Z.to_nat (Zfloor (width / 5))) g /\
    all_cells in_unit g /\
    pd = mkPos (Fin (INR (Z.to_nat (Zfloor (width / 5))) * 0.3))
               (Fin (INR (Z.to_nat (Zfloor (height / 5))) * 0.7)) /\
    pa = mkPos (Fin (INR (Z.to_nat (Zfloor (width / 5))) * 0.7))
               (Fin (INR (Z.to_nat (Zfloor (height / 5))) * 0.3)) /\
    ((4 <= Z.to_nat (Zfloor (height / 5)))%nat ->
     (4 <= Z.to_nat (Zfloor (width / 5)))%nat ->
     on_board (Z.to_nat (Zfloor (height / 5)))
              (Z.to_nat (Zfloor (width / 5))) pd /\
     on_board (Z.to_nat (Zfloor (height / 5)))
              (Z.to_nat (Zfloor (width / 5))) pa).
Proof.
  intros Hw Hh.
  destruct (regenerate_ok width height w Hw Hh)
    as (g & w1 & contours & field & _ & [He Hst] & Hs & Hu & Hlen & Hrun).
  eexists _, g, _, _, _. split; [exact Hrun|].
  cbn [entropy store set_store scene_view scene_contours].
  repeat (split; [assumption || reflexivity|]).
  intros Hr Hc. apply le_INR in Hr, Hc.
  change (INR 4) with (1 + 1 + 1 + 1) in Hr, Hc.
  unfold on_board. cbn [pos_x pos_y between]. lra.
Qed.

Lemma regenerate_scene_witness :
  exists sc g pd pa w',
    regenerate (Fin 100) (Fin 100) (half_world []) = Returns (Some sc) w' /\
    entropy w' = entropy (half_world []) /\
    store w' = store (half_world []) ++ [OGrid g; OPos pd; OPos pa] /\
    scene_view sc
    = mkView (length (store (half_world [])))
             (S (length (store (half_world []))))
             (S (S (length (store (half_world []))))) 0 [] [] /\
    length (scene_contours sc) = 15%nat /\
    shape (Z.to_nat (Zfloor (100 / 5))) (Z.to_nat (Zfloor (100 / 5))) g /\
    all_cells in_unit g /\
    pd = mkPos (Fin (INR (Z.to_nat (Zfloor (100 / 5))) * 0.3))
               (Fin (INR (Z.to_nat (Zfloor (100 / 5))) * 0.7)) /\
    pa = mkPos (Fin (INR (Z.to_nat (Zfloor (100 / 5))) * 0.7))
               (Fin (INR (Z.to_nat (Zfloor (100 / 5))) * 0.3)) /\
    ((4 <= Z.to_nat (Zfloor (100 / 5)))%nat ->
     (4 <= Z.to_nat (Zfloor (100 / 5)))%nat ->
     on_board (Z.to_nat (Zfloor (100 / 5)))
              (Z.to_nat (Zfloor (100 / 5))) pd /\
     on_board (Z.to_nat (Zfloor (100 / 5)))
              (Z.to_nat (Zfloor (100 / 5))) pa).
Proof. apply regenerate_scene; lra. Defined.

(** X28.  The guard of the regeneration only catches a canvas of width or
    height 0: on a canvas less than five pixels high the grid has no row and
    the effect throws a TypeError. *)
Theorem regenerate_thin_canvas (width height : R) (w : world) :
  (width = 0 \/ height = 0 ->
   regenerate (Fin width) (Fin height) w = Returns None w) /\
  (width <> 0 -> 0 < height < 5 ->
   regenerate (Fin width) (Fin height) w = Throws TypeError).
Proof.
  split.
  - intros H. unfold regenerate, nseq.
    destruct (Req_dec_T width 0), (Req_dec_T height 0); try reflexivity.
    lra.
  - intros Hw Hh. unfold regenerate, nseq.
    destruct (Req_dec_T width 0) as [E|_]; [lra|].
    destruct (Req_dec_T height 0) as [E|_]; [lra|]. cbn [orb]. cbv zeta.
    unfold bind at 1.
    rewrite generateLossLandscape_no_row; [reflexivity|lra|].
    apply Zfloor_eq. simpl. lra.
Qed.

Lemma regenerate_thin_canvas_witness :
  regenerate (Fin 300) (Fin 4) (half_world []) = Throws TypeError.
Proof. apply regenerate_thin_canvas; lra. Defined.
Lemma nth_error_added {A} (st ext : list A) k :
  nth_error (st ++ ext) (length st + k) = nth_error ext k.
Proof.
  rewrite nth_error_app2 by lia. f_equal. lia.
Qed.

Lemma nth_error_added_first {A} (st ext : list A) :
  nth_error (st ++ ext) (length st) = nth_error ext 0.
Proof. now rewrite <- (nth_error_added st ext 0), Nat.add_0_r. Qed.

(** X29.  From the regeneration to the frames. On a canvas of at least 15 by
    15 pixels, with positive defender strengths and a uniform source that
    never returns 0, the regeneration followed by any number of frames runs
    without an exception: the iteration counter counts the frames, each
    history holds the positions of the last frames, 50 at most, all on the
    board, and after the first frame the two agents are on the board. *)
Theorem game_runs
    (width height : R) (strengths : list (R * R)) (w : world) :
  15 <= width < 21474836480 -> 15 <= height < 21474836480 ->
  Forall (fun s => 0 < fst s /\ 0 <= snd s) strengths ->
  zero_free w ->
  exists sc w1 v' w',
    regenerate (Fin width) (Fin height) w = Returns (Some sc) w1 /\
    animation strengths (scene_view sc) w1 = Returns v' w' /\
    view_iteration v' = length strengths /\
    length (view_defenderHistory v') = Nat.min 50 (length strengths) /\
    length (view_adversaryHistory v') = Nat.min 50 (length strengths) /\
    Forall (holds_on_board (Z.to_nat (Zfloor (height / 5)))
                           (Z.to_nat (Zfloor (width / 5))) w')
           (view_defenderHistory v') /\
    Forall (holds_on_board (Z.to_nat (Zfloor (height / 5)))
                           (Z.to_nat (Zfloor (width / 5))) w')
           (view_adversaryHistory v') /\
    (strengths <> [] ->
     holds_on_board (Z.to_nat (Zfloor (height / 5)))
                    (Z.to_nat (Zfloor (width / 5))) w' (view_defender v') /\
     holds_on_board (Z.to_nat (Zfloor (height / 5)))
                    (Z.to_nat (Zfloor (width / 5))) w' (view_adversary v')).
Proof.
  intros Hw Hh Hstr Hz.
  destruct (regenerate_ok width height w ltac:(lra) ltac:(lra))
    as (g & w1 & contours & field & _ & [He Hst] & Hs & Hu & _ & Hrun).
  assert (Hzc : (3 <= Zfloor (width / 5) < 4294967296)%Z)
    by (apply floor_fifth; simpl; lra).
  assert (Hzr : (3 <= Zfloor (height / 5) < 4294967296)%Z)
    by (apply floor_fifth; simpl; lra).
  set (rows := Z.to_nat (Zfloor (height / 5))) in *.
  set (cols := Z.to_nat (Zfloor (width / 5))) in *.
  match type of Hrun with
  | _ = Returns (Some ?sc) ?w2 => set (sc0 := sc) in *; set (w2' := w2) in *
  end.
  destruct (animation_ok rows cols g strengths Hs ltac:(lia) ltac:(lia)
              (in_unit_finite g Hu) Hstr (scene_view sc0) w2')
    as (v' & w' & ext & Hrun' & _ & _ & _ & Hit & HLd & HLa & HFd & HFa
        & Hcur).
  - intros n. cbn [w2' set_store entropy]. rewrite He. apply Hz.
  - cbn [sc0 scene_view view_grid w2' set_store store].
    now rewrite nth_error_added_first.
  - eexists. cbn [sc0 scene_view view_defender w2' set_store store].
    replace (S (length (store w))) with (length (store w) + 1)%nat by lia.
    rewrite nth_error_added. split; [reflexivity|]. now split.
  - eexists. cbn [sc0 scene_view view_adversary w2' set_store store].
    replace (S (S (length (store w)))) with (length (store w) + 2)%nat by lia.
    rewrite nth_error_added. split; [reflexivity|]. now split.
  - cbn. lia.
  - cbn. lia.
  - constructor.
  - constructor.
  - exists sc0, w2', v', w'.
    cbn [sc0 scene_view view_iteration view_defenderHistory
         view_adversaryHistory length Nat.add] in *.
    repeat (split; [assumption|]). exact Hcur.
Qed.

Lemma game_runs_witness :
  exists sc w1 v' w',
    regenerate (Fin 100) (Fin 100) (half_world []) = Returns (Some sc) w1 /\
    animation [(5, 5); (5, 7)] (scene_view sc) w1 = Returns v' w' /\
    view_iteration v' = length [(5, 5); (5, 7)] /\
    length (view_defenderHistory v') = Nat.min 50 (length [(5, 5); (5, 7)]) /\
    length (view_adversaryHistory v') = Nat.min 50 (length [(5, 5); (5, 7)]) /\
    Forall (holds_on_board (Z.to_nat (Zfloor (100 / 5)))
                           (Z.to_nat (Zfloor (100 / 5))) w')
           (view_defenderHistory v') /\
    Forall (holds_on_board (Z.to_nat (Zfloor (100 / 5)))
                           (Z.to_nat (Zfloor (100 / 5))) w')
           (view_adversaryHistory v') /\
    ([(5, 5); (5, 7)] <> [] ->
     holds_on_board (Z.to_nat (Zfloor (100 / 5)))
                    (Z.to_nat (Zfloor (100 / 5))) w' (view_defender v') /\
     holds_on_board (Z.to_nat (Zfloor (100 / 5)))
                    (Z.to_nat (Zfloor (100 / 5))) w' (view_adversary v')).
Proof.
  apply game_runs; try lra; [|apply zero_free_half].
  repeat constructor; simpl; lra.
Defined.

(** X30.  A canvas between 5 and 15 pixels high is regenerated without an
    exception, with a grid of one or two rows; the first frame of the
    animation then throws a TypeError, whatever the strengths. *)
Theorem regenerate_low_canvas
    (width height : R) (defenseStrength attackStrength : number) (w : world) :
  0 < width < 21474836480 -> 5 <= height < 15 ->
  exists sc w1,
    regenerate (Fin width) (Fin height) w = Returns (Some sc) w1 /\
    animationStep defenseStrength attackStrength (scene_view sc) w1
    = Throws TypeError.
Proof.
  intros Hw Hh.
  destruct (regenerate_ok width height w Hw ltac:(lra))
    as (g & w1 & contours & field & _ & [He Hst] & Hs & Hu & _ & Hrun).
  assert (Hzr : (1 <= Zfloor (height / 5) < 3)%Z)
    by (apply floor_fifth; simpl; lra).
  eexists _, _. split; [exact Hrun|].
  unfold animationStep, simulateStep, bind.
  cbn [scene_view view_defender view_adversary view_grid].
  erewrite proposeMoves_throws; [reflexivity| | |].
  - cbn [set_store store].
    replace (S (length (store w))) with (length (store w) + 1)%nat by lia.
    rewrite nth_error_added. reflexivity.
  - cbn [set_store store].
    rewrite nth_error_added_first. reflexivity.
  - destruct Hs as [-> _]. lia.
Qed.

Lemma regenerate_low_canvas_witness :
  exists sc w1,
    regenerate (Fin 300) (Fin 12) (half_world []) = Returns (Some sc) w1 /\
    animationStep (Fin 5) (Fin 5) (scene_view sc) w1 = Throws TypeError.
Proof. apply regenerate_low_canvas; lra. Defined.
